(** * Constant evaluation and control-flow analysis of the Solidity front end

    A shallow embedding of
    - [libsolidity/analysis/ConstantEvaluator.cpp] (exact rational constant
      folding with a 4096-bit precision ceiling, memoised and depth-bounded
      evaluation of constant declarations), and
    - [libsolidity/analysis/ControlFlowAnalyzer.cpp] (uninitialised-access
      dataflow and unreachable-code detection over a control-flow graph),
    followed by the properties proved about them.

    Conventions.  [bigint] is [Z]; [boost::rational<bigint>] is [Qc], the
    rationals of the Standard Library kept in lowest terms with a positive
    denominator, which is the representation invariant of the C++ class.
    Pointers are addresses in [nat]; [std::set] and [std::map] keyed by
    pointers are stdpp's [gset] and [gmap]. *)

From Stdlib Require Import ZArith QArith Qcanon Qround Qpower Qabs Lia.
From Stdlib Require Import Ascii String.
From stdpp Require Import base option list sorting gmap sets strings.

#[local] Set Warnings "-clear-no-such-hyp".

Local Open Scope Z_scope.

(** ** Part I: the model *)

(** *** Tokens (the operators the evaluator switches on) *)

Module Token.
Inductive t : Set :=
  | BitOr | BitXor | BitAnd
  | Add | Sub | Mul | Div | Mod | Exp
  | SHL | SAR | SHR
  | BitNot | Not | Inc | Dec
  | Equal | NotEqual | LessThan | GreaterThan
  | LessThanOrEqual | GreaterThanOrEqual
  | And | Or.
End Token.

(** [TokenTraits::isCompareOp]: the six comparison operators. *)
Definition isCompareOp (op : Token.t) : bool :=
  match op with
  | Token.Equal | Token.NotEqual | Token.LessThan | Token.GreaterThan
  | Token.LessThanOrEqual | Token.GreaterThanOrEqual => true
  | _ => false
  end.

(** *** Rationals *)

Definition rational : Set := Qc.

Definition numerator (r : rational) : Z := Qnum (this r).
Definition denominator (r : rational) : Z := Zpos (Qden (this r)).

(** The implicit conversion [bigint -> rational]. *)
Definition rational_of_bigint (z : Z) : rational := Q2Qc (inject_Z z).

(** [boost::rational] compared with an integer: [r == i], [r < i], [r > i]. *)
Definition rat_eq_int (r : rational) (i : Z) : bool :=
  (numerator r =? i) && (denominator r =? 1).
Definition rat_lt_int (r : rational) (i : Z) : bool :=
  numerator r <? i * denominator r.
Definition rat_gt_int (r : rational) (i : Z) : bool :=
  i * denominator r <? numerator r.

(** [boost::rational::operator==] on two rationals in lowest terms. *)
Definition rat_eqb (a b : rational) : bool :=
  (numerator a =? numerator b) && (denominator a =? denominator b).

(** Modelled from the spec: [makeRational] (declared outside src/), which
    builds the fraction [_numerator / _denominator] in reduced form with a
    positive denominator; a zero denominator has no fraction. *)
Definition makeRational (_numerator _denominator : Z) : option rational :=
  match _denominator with
  | Z0 => None
  | Zpos d => Some (Q2Qc (_numerator # d))
  | Zneg d => Some (Q2Qc ((- _numerator) # d))
  end.

Definition uint32_max : Z := 4294967295.

(** *** Precision guards *)

(** [fitsPrecisionExp]: does [_base ** _exp] fit into 4096 bits?  [None] is
    the failure of [solAssert(_base > 0)].  [boost::multiprecision::msb] is
    [Z.log2] on positive arguments. *)
Definition fitsPrecisionExp (_base _exp : Z) : option bool :=
  if _base =? 0 then Some true
  else if negb (0 <? _base) then None
  else
    let bitsMax := 4096 in
    let mostSignificantBaseBit := Z.log2 _base in
    if mostSignificantBaseBit =? 0 then Some true
    else if bitsMax <? mostSignificantBaseBit then Some false
    else
      let bitsNeeded := _exp * (mostSignificantBaseBit + 1) in
      Some (bitsNeeded <=? bitsMax).

(** The guards are only ever called on absolute values, where the assertion
    holds (see [fitsPrecisionExp_abs] below); [guard] reads the answer. *)
Definition guard (o : option bool) : bool :=
  match o with Some b => b | None => false end.

(** The lambda [optimizedPow] of the exponentiation case. *)
Definition optimizedPow (_base _exponent : Z) : Z :=
  if _base =? 1 then 1
  else if _base =? -1 then 1 - 2 * Z.land _exponent 1
  else _base ^ _exponent.

Section BinaryOperator.

(** [fitsPrecisionBaseX(_mantissa, _log2OfBase, _exp)] is called by
    [fitsPrecisionBase2] but defined outside src/: it is a parameter of the
    development, so that what is proved holds whatever it answers. *)
Variable fitsPrecisionBaseX : Z -> Q -> Z -> bool.

Definition fitsPrecisionBase2 (_mantissa _expBase2 : Z) : bool :=
  fitsPrecisionBaseX _mantissa 1%Q _expBase2.

Definition evaluateBinaryOperator
    (_operator : Token.t) (_left _right : rational) : option rational :=
  let fractional :=
    negb (denominator _left =? 1) || negb (denominator _right =? 1) in
  match _operator with
  | Token.BitOr =>
      if fractional then None
      else Some (rational_of_bigint (Z.lor (numerator _left) (numerator _right)))
  | Token.BitXor =>
      if fractional then None
      else Some (rational_of_bigint (Z.lxor (numerator _left) (numerator _right)))
  | Token.BitAnd =>
      if fractional then None
      else Some (rational_of_bigint (Z.land (numerator _left) (numerator _right)))
  | Token.Add => Some (_left + _right)%Qc
  | Token.Sub => Some (_left - _right)%Qc
  | Token.Mul => Some (_left * _right)%Qc
  | Token.Div =>
      if rat_eqb _right (rational_of_bigint 0) then None
      else Some (_left / _right)%Qc
  | Token.Mod =>
      if rat_eqb _right (rational_of_bigint 0) then None
      else if fractional then
        let tempValue := (_left / _right)%Qc in
        Some (_left
              - rational_of_bigint
                  (Z.quot (numerator tempValue) (denominator tempValue))
                * _right)%Qc
      else Some (rational_of_bigint (Z.rem (numerator _left) (numerator _right)))
  | Token.Exp =>
      if negb (denominator _right =? 1) then None
      else
        let exp := numerator _right in
        if exp =? 0 then Some (rational_of_bigint 1)
        else if rat_eq_int _left 0 || rat_eq_int _left 1 then Some _left
        else if rat_eq_int _left (-1) then
          let isOdd := Z.land (Z.abs exp) 1 in
          Some (rational_of_bigint (1 - 2 * isOdd))
        else
          if uint32_max <? Z.abs exp then None
          else
            let absExp := Z.abs exp in
            if negb (guard (fitsPrecisionExp (Z.abs (numerator _left)) absExp))
               || negb (guard (fitsPrecisionExp (Z.abs (denominator _left)) absExp))
            then None
            else
              let numerator' := optimizedPow (numerator _left) absExp in
              let denominator' := optimizedPow (denominator _left) absExp in
              if 0 <=? exp then makeRational numerator' denominator'
              else makeRational denominator' numerator'
  | Token.SHL =>
      if fractional then None
      else if rat_lt_int _right 0 then None
      else if rat_gt_int _right uint32_max then None
      else if numerator _left =? 0 then Some (rational_of_bigint 0)
      else
        let exponent := numerator _right in
        if negb (fitsPrecisionBase2 (Z.abs (numerator _left)) exponent) then None
        else Some (rational_of_bigint (numerator _left * 2 ^ exponent))
  | Token.SAR =>
      if fractional then None
      else if rat_lt_int _right 0 then None
      else if rat_gt_int _right uint32_max then None
      else if numerator _left =? 0 then Some (rational_of_bigint 0)
      else
        let exponent := numerator _right in
        if Z.log2 (Z.abs (numerator _left)) <? exponent then
          Some (rational_of_bigint (if numerator _left <? 0 then -1 else 0))
        else if numerator _left <? 0 then
          Some (rational_of_bigint
                  (Z.quot (numerator _left + 1) (2 ^ exponent) - 1))
        else
          Some (rational_of_bigint (Z.quot (numerator _left) (2 ^ exponent)))
  | _ => None
  end.

End BinaryOperator.

(** Modelled from the spec: [fitsPrecisionBaseX] (defined outside src/).
    [_mantissa * (X ** _exp)], with [_log2OfBase = log2 X], fits iff the
    most-significant-bit estimate of its bit length stays within the same
    4096-bit ceiling.  Used to run the evaluator on concrete inputs. *)
Definition fitsPrecisionBaseX_spec (_mantissa : Z) (_log2OfBase : Q) (_exp : Z)
  : bool :=
  if _mantissa =? 0 then true
  else
    let bitsMax := 4096 in
    let mostSignificantMantissaBit := Z.log2 _mantissa in
    if bitsMax <? mostSignificantMantissaBit then false
    else
      let bitsNeeded :=
        mostSignificantMantissaBit
        + Qfloor (inject_Z _exp * _log2OfBase) + 1 in
      bitsNeeded <=? bitsMax.

Definition evaluateUnaryOperator (_operator : Token.t) (_input : rational)
  : option rational :=
  match _operator with
  | Token.BitNot =>
      if negb (denominator _input =? 1) then None
      else Some (rational_of_bigint (Z.lnot (numerator _input)))
  | Token.Sub => Some (- _input)%Qc
  | _ => None
  end.

(** *** Types and typed values *)

(** The part of the semantic [Type] hierarchy the evaluator looks at: the
    category [RationalNumber] (a [RationalNumberType] carries its constant
    value), [IntegerType] with its inclusive bounds [minValue], [maxValue],
    and every other category. *)
Inductive SolType : Set :=
| RationalNumberType (value : rational)
| IntegerType (minValue maxValue : Z)
| OtherType (tag : nat).

Record TypedRational : Set := mkTypedRational {
  type : SolType;
  value : rational
}.

(** [rational > bigint] and [rational < bigint]. *)
Definition convertType (_value : rational) (_type : SolType)
  : option TypedRational :=
  match _type with
  | RationalNumberType _ =>
      Some (mkTypedRational (RationalNumberType _value) _value)
  | IntegerType minValue maxValue =>
      if rat_gt_int _value maxValue || rat_lt_int _value minValue then None
      else Some (mkTypedRational _type
                   (rational_of_bigint
                      (Z.quot (numerator _value) (denominator _value))))
  | OtherType _ => None
  end.

(** The overload on an optional typed value. *)
Definition convertType_opt (_value : option TypedRational) (_type : SolType)
  : option TypedRational :=
  match _value with
  | Some v => convertType (value v) _type
  | None => None
  end.

Definition constantToTypedValue (_type : SolType) : option TypedRational :=
  match _type with
  | RationalNumberType v => Some (mkTypedRational _type v)
  | _ => None
  end.

(** *** Source locations and diagnostics *)

(** [langutil::SourceLocation]; the invalid location has [start = -1],
    [end = -1] and no source. *)
Record SourceLocation : Set := mkLoc {
  start : Z;
  end_ : Z;
  sourceName : option string
}.

Inductive Severity : Set := Warning | TypeError | FatalTypeError.

(** What the error reporter receives: severity, numeric identifier, primary
    location, secondary (note, location) pairs and the message. *)
Record Diagnostic : Set := mkDiagnostic {
  severity : Severity;
  errorId : Z;
  location : SourceLocation;
  secondary : list (string * SourceLocation);
  message : string
}.

(** *** The syntax tree the evaluator walks *)

(** Every node carries its address [id], the key of the memoisation map.
    An identifier holds the address of the declaration it refers to, which is
    how constant initialisers can refer to each other in a cycle. *)
#[warnings="-register-all"]
Inductive Expression : Set :=
| BinaryOperation (id : nat) (loc : SourceLocation) (op : Token.t)
    (leftExpression rightExpression : Expression)
| UnaryOperation (id : nat) (loc : SourceLocation) (op : Token.t)
    (subExpression : Expression)
| Literal (id : nat) (literalType : option SolType)
| Identifier (id : nat) (referencedDeclaration : option nat)
| TupleExpression (id : nat) (components : list Expression)
| OtherExpression (id : nat).

Definition expressionId (e : Expression) : nat :=
  match e with
  | BinaryOperation id _ _ _ _ | UnaryOperation id _ _ _ | Literal id _
  | Identifier id _ | TupleExpression id _ | OtherExpression id => id
  end.

Record VariableDeclaration : Set := mkVariableDeclaration {
  declLocation : SourceLocation;
  isConstant : bool;
  declValue : option Expression;
  declType : option SolType
}.

(** The argument of [evaluate(ASTNode const&)]: the address of a variable
    declaration, or an expression. *)
Inductive ASTNode : Set :=
| VariableDeclarationNode (id : nat)
| ExpressionNode (e : Expression).

Definition nodeId (n : ASTNode) : nat :=
  match n with
  | VariableDeclarationNode id => id
  | ExpressionNode e => expressionId e
  end.

(** *** The evaluator *)

Record ConstantEvaluator : Set := mkEvaluator {
  m_errorReporter : list Diagnostic;
  m_depth : nat;
  m_values : gmap nat (option TypedRational)
}.

(** How a member function ends: it returns; [fatalTypeError] has thrown
    [FatalError] after reporting; an assertion or [std::map::at] has thrown;
    or the model ran out of fuel. *)
Inductive Outcome (A : Type) : Type :=
| Returns (a : A) (s : ConstantEvaluator)
| Fatal (s : ConstantEvaluator)
| AssertionFailed (s : ConstantEvaluator)
| OutOfFuel.
Arguments Returns {A} a s.
Arguments Fatal {A} s.
Arguments AssertionFailed {A} s.
Arguments OutOfFuel {A}.

Definition bind {A B : Type} (m : Outcome A)
    (k : A -> ConstantEvaluator -> Outcome B) : Outcome B :=
  match m with
  | Returns a s => k a s
  | Fatal s => Fatal s
  | AssertionFailed s => AssertionFailed s
  | OutOfFuel => OutOfFuel
  end.

Definition setValue (id : nat) (v : option TypedRational)
    (s : ConstantEvaluator) : ConstantEvaluator :=
  mkEvaluator (m_errorReporter s) (m_depth s) (<[id := v]> (m_values s)).

Definition setDepth (d : nat) (s : ConstantEvaluator) : ConstantEvaluator :=
  mkEvaluator (m_errorReporter s) d (m_values s).

(** [m_errorReporter.fatalTypeError(...)]: report, then throw. *)
Definition fatalTypeError {A : Type} (id : Z) (l : SourceLocation)
    (msg : string) (s : ConstantEvaluator) : Outcome A :=
  Fatal (mkEvaluator
           (m_errorReporter s ++ [mkDiagnostic FatalTypeError id l [] msg])
           (m_depth s) (m_values s)).

Section Evaluator.

Variable fitsPrecisionBaseX : Z -> Q -> Z -> bool.

(** The type rules and the printers live outside src/ and are parameters:
    [Type::unaryOperatorResult], [Type::binaryOperatorResult],
    [TokenTraits::toString] and [Type::toString]. *)
Variable unaryOperatorResult : SolType -> Token.t -> option SolType.
Variable binaryOperatorResult : SolType -> Token.t -> SolType -> option SolType.
Variable tokenToString : Token.t -> string.
Variable typeToString : SolType -> string.

(** The declarations of the program, by address. *)
Variable declarations : gmap nat VariableDeclaration.

(** The recursive calls of the handlers go through [evaluate]. *)
Variable evaluate_rec :
  ASTNode -> ConstantEvaluator -> Outcome (option TypedRational).

Definition endVisit_UnaryOperation (id : nat) (loc : SourceLocation)
    (op : Token.t) (subExpression : Expression) (s : ConstantEvaluator)
  : Outcome unit :=
  bind (evaluate_rec (ExpressionNode subExpression) s) (fun sub s =>
  match sub with
  | None => Returns tt s
  | Some v =>
    match unaryOperatorResult (type v) op with
    | None => Returns tt s
    | Some resultType =>
      match convertType_opt (Some v) resultType with
      | None => Returns tt s
      | Some v' =>
        match evaluateUnaryOperator op (value v') with
        | Some result =>
          match convertType result resultType with
          | None =>
              fatalTypeError 3667 loc
                "Arithmetic error when computing constant value." s
          | Some converted => Returns tt (setValue id (Some converted) s)
          end
        | None => Returns tt s
        end
      end
    end
  end).

Definition endVisit_BinaryOperation (id : nat) (loc : SourceLocation)
    (op : Token.t) (leftExpression rightExpression : Expression)
    (s : ConstantEvaluator) : Outcome unit :=
  bind (evaluate_rec (ExpressionNode leftExpression) s) (fun left s =>
  bind (evaluate_rec (ExpressionNode rightExpression) s) (fun right s =>
  match left, right with
  | Some l, Some r =>
    if isCompareOp op then Returns tt s
    else
      match binaryOperatorResult (type l) op (type r) with
      | None =>
          fatalTypeError 6020 loc
            ("Operator " ++ tokenToString op
             ++ " not compatible with types " ++ typeToString (type l)
             ++ " and " ++ typeToString (type r)) s
      | Some resultType =>
        match convertType_opt (Some l) resultType,
              convertType_opt (Some r) resultType with
        | Some l', Some r' =>
          match evaluateBinaryOperator fitsPrecisionBaseX op
                  (value l') (value r') with
          | Some v =>
            match convertType v resultType with
            | None =>
                fatalTypeError 2643 loc
                  "Arithmetic error when computing constant value." s
            | Some converted => Returns tt (setValue id (Some converted) s)
            end
          | None => Returns tt s
          end
        | _, _ => Returns tt s
        end
      end
  | _, _ => Returns tt s
  end)).

Definition endVisit_Literal (id : nat) (literalType : option SolType)
    (s : ConstantEvaluator) : Outcome unit :=
  match literalType with
  | Some t => Returns tt (setValue id (constantToTypedValue t) s)
  | None => Returns tt s
  end.

Definition endVisit_Identifier (id : nat) (referencedDeclaration : option nat)
    (s : ConstantEvaluator) : Outcome unit :=
  match referencedDeclaration with
  | Some d =>
    match declarations !! d with
    | Some variableDeclaration =>
      if isConstant variableDeclaration then
        bind (evaluate_rec (VariableDeclarationNode d) s) (fun v s =>
        Returns tt (setValue id v s))
      else Returns tt s
    | None => Returns tt s
    end
  | None => Returns tt s
  end.

(** Modelled from the spec: [endVisit(TupleExpression const&)], declared in
    the header and defined outside src/.  A tuple with a single component
    (a parenthesised constant) delegates to the inner expression. *)
Definition endVisit_TupleExpression (id : nat) (components : list Expression)
    (s : ConstantEvaluator) : Outcome unit :=
  match components with
  | [inner] =>
      bind (evaluate_rec (ExpressionNode inner) s) (fun v s =>
      Returns tt (setValue id v s))
  | _ => Returns tt s
  end.

(** Modelled from the spec: [Expression::accept], the visitor dispatch
    defined outside src/.  It dispatches to the visit handler of the kind
    of the node; a node of another kind has no handler. *)
Definition accept (e : Expression) (s : ConstantEvaluator) : Outcome unit :=
  match e with
  | BinaryOperation id loc op l r => endVisit_BinaryOperation id loc op l r s
  | UnaryOperation id loc op sub => endVisit_UnaryOperation id loc op sub s
  | Literal id t => endVisit_Literal id t s
  | Identifier id d => endVisit_Identifier id d s
  | TupleExpression id cs => endVisit_TupleExpression id cs s
  | OtherExpression _ => Returns tt s
  end.

(** [return m_values.at(&_node)]. *)
Definition returnCached (id : nat) (s : ConstantEvaluator)
  : Outcome (option TypedRational) :=
  match m_values s !! id with
  | Some v => Returns v s
  | None => AssertionFailed s
  end.

(** The body of [ConstantEvaluator::evaluate(ASTNode const&)].  In
    [m_values[&_node] = convertType(evaluate(...), ...)] the right-hand side
    is evaluated before the entry for the node is created (the order of
    C++17), so that a declaration is not yet memoised while its initialiser
    is evaluated. *)
Definition evaluate_body (node : ASTNode) (s : ConstantEvaluator)
  : Outcome (option TypedRational) :=
  match m_values s !! nodeId node with
  | Some cached => Returns cached s
  | None =>
    match node with
    | VariableDeclarationNode d =>
      match declarations !! d with
      | Some varDecl =>
        if negb (isConstant varDecl) then AssertionFailed s
        else
          match declValue varDecl, declType varDecl with
          | Some initializer, Some t =>
            let s := setDepth (S (m_depth s)) s in
            if (32 <? m_depth s)%nat then
              fatalTypeError 5210 (declLocation varDecl)
                "Cyclic constant definition (or maximum recursion depth exhausted)."
                s
            else
              bind (evaluate_rec (ExpressionNode initializer) s) (fun v s =>
              let s := setValue d (convertType_opt v t) s in
              let s := setDepth (pred (m_depth s)) s in
              returnCached d s)
          | _, _ => returnCached d (setValue d None s)
          end
      | None => returnCached d s
      end
    | ExpressionNode e =>
      bind (accept e s) (fun _ s =>
      let s :=
        match m_values s !! expressionId e with
        | Some _ => s
        | None => setValue (expressionId e) None s
        end in
      returnCached (expressionId e) s)
    end
  end.

End Evaluator.

Section Evaluate.

Variable fitsPrecisionBaseX : Z -> Q -> Z -> bool.
Variable unaryOperatorResult : SolType -> Token.t -> option SolType.
Variable binaryOperatorResult : SolType -> Token.t -> SolType -> option SolType.
Variable tokenToString : Token.t -> string.
Variable typeToString : SolType -> string.
Variable declarations : gmap nat VariableDeclaration.

(** [evaluate]: the recursion of the C++ function, cut off by [fuel]. *)
Fixpoint evaluate (fuel : nat) (node : ASTNode) (s : ConstantEvaluator)
  : Outcome (option TypedRational) :=
  match fuel with
  | O => OutOfFuel
  | S fuel' =>
      evaluate_body fitsPrecisionBaseX unaryOperatorResult
        binaryOperatorResult tokenToString typeToString declarations
        (evaluate fuel') node s
  end.

End Evaluate.

(** *** The control-flow graph *)

Inductive DataLocation : Set := Storage | CallData | Memory.

#[global] Instance SourceLocation_eq_dec : EqDecision SourceLocation.
Proof. solve_decision. Defined.

#[global] Instance SourceLocation_countable : Countable SourceLocation.
Proof.
  apply (inj_countable'
           (fun l => (start l, end_ l, sourceName l))
           (fun t => mkLoc (fst (fst t)) (snd (fst t)) (snd t))).
  now intros [].
Defined.

Module VariableOccurrence.
Inductive Kind : Set := Declaration | Access | Return | Assignment | InlineAssembly.
End VariableOccurrence.

#[global] Instance Kind_eq_dec : EqDecision VariableOccurrence.Kind.
Proof. solve_decision. Defined.

(** What the analyser reads of the graph.  A declaration is identified by
    its address [id]; [dataStoredIn] stands for [type()->dataStoredIn(...)].
    A node refers to its predecessors ([entries]) and successors ([exits])
    by address. *)
Module CFG.
Record VariableDeclaration : Set := mkVariableDeclaration {
  id : nat;
  name : string;
  location : SourceLocation;
  dataStoredIn : DataLocation -> bool
}.
Record VariableOccurrence : Set := mkVariableOccurrence {
  kind : VariableOccurrence.Kind;
  declaration : VariableDeclaration;
  occurrence : option SourceLocation
}.
Record CFGNode : Set := mkCFGNode {
  entries : list nat;
  exits : list nat;
  variableOccurrences : list VariableOccurrence;
  nodeLocation : SourceLocation
}.
End CFG.

(** The nodes of a function, by address.  An address without a node is read
    as a node without edges, occurrences or valid location. *)
Definition emptyNode : CFG.CFGNode :=
  CFG.mkCFGNode [] [] [] (mkLoc (-1) (-1) None).

Definition nodeAt (cfg : gmap nat CFG.CFGNode) (n : nat) : CFG.CFGNode :=
  default emptyNode (cfg !! n).

(** A pointer to a [VariableOccurrence]: the node and the index in its
    vector of occurrences. *)
Definition occurrenceAt (cfg : gmap nat CFG.CFGNode) (p : nat * nat)
  : option CFG.VariableOccurrence :=
  CFG.variableOccurrences (nodeAt cfg (fst p)) !! snd p.

(** *** The analyser *)

Module ControlFlowAnalyzer.
Record t : Type := mk {
  m_errorReporter : list Diagnostic;
  m_unassignedReturnVarsAlreadyWarnedFor : gset nat;
  m_unreachableLocationsAlreadyWarnedFor : gset SourceLocation
}.
End ControlFlowAnalyzer.

(** The local [struct NodeInfo] of [checkUninitializedAccess]. *)
Record NodeInfo : Type := mkNodeInfo {
  unassignedVariablesAtEntry : gset nat;
  unassignedVariablesAtExit : gset nat;
  uninitializedVariableAccesses : gset (nat * nat)
}.

(** A default-constructed [NodeInfo], as [nodeInfos[node]] creates it. *)
Definition newNodeInfo : NodeInfo := mkNodeInfo ∅ ∅ ∅.

(** [NodeInfo::propagateFrom]: the updated receiver and the returned flag. *)
Definition propagateFrom (self _entryNode : NodeInfo) : NodeInfo * bool :=
  let previousUnassignedVariablesAtEntry :=
    size (unassignedVariablesAtEntry self) in
  let previousUninitializedVariableAccessess :=
    size (uninitializedVariableAccesses self) in
  let self' :=
    mkNodeInfo
      (unassignedVariablesAtEntry self ∪ unassignedVariablesAtExit _entryNode)
      (unassignedVariablesAtExit self)
      (uninitializedVariableAccesses self
       ∪ uninitializedVariableAccesses _entryNode) in
  (self',
   (previousUnassignedVariablesAtEntry
    <? size (unassignedVariablesAtEntry self'))%nat
   || (previousUninitializedVariableAccessess
       <? size (uninitializedVariableAccesses self'))%nat).

(** One round of the loop over the occurrences of the current node: the
    [switch] on the kind.  [ptr] is the address of the occurrence. *)
Definition replayOccurrence (ptr : nat * nat)
    (variableOccurrence : CFG.VariableOccurrence)
    (st : gset nat * gset (nat * nat)) : gset nat * gset (nat * nat) :=
  let unassignedVariables := fst st in
  let accesses := snd st in
  let declaration := CFG.id (CFG.declaration variableOccurrence) in
  match CFG.kind variableOccurrence with
  | VariableOccurrence.Assignment =>
      (unassignedVariables ∖ {[declaration]}, accesses)
  | VariableOccurrence.InlineAssembly
  | VariableOccurrence.Access
  | VariableOccurrence.Return =>
      if decide (declaration ∈ unassignedVariables)
      then (unassignedVariables, {[ptr]} ∪ accesses)
      else (unassignedVariables, accesses)
  | VariableOccurrence.Declaration =>
      ({[declaration]} ∪ unassignedVariables, accesses)
  end.

(** The loop over [currentNode->variableOccurrences], from the occurrence
    with index [index] on. *)
Fixpoint replay (currentNode index : nat)
    (occurrences : list CFG.VariableOccurrence)
    (st : gset nat * gset (nat * nat)) : gset nat * gset (nat * nat) :=
  match occurrences with
  | [] => st
  | variableOccurrence :: rest =>
      replay currentNode (S index) rest
        (replayOccurrence (currentNode, index) variableOccurrence st)
  end.

(** The first element of a [std::set] of addresses. *)
Definition firstAddress (s : gset nat) : option nat :=
  match elements s with
  | [] => None
  | x :: l => Some (foldr Nat.min x l)
  end.

(** The body of the loop over [currentNode->exits].  [nodeInfo] is a
    reference into the map, so it is read again for every exit (it changes
    when the node is its own successor). *)
Definition propagateTo (currentNode exit : nat)
    (st : gmap nat NodeInfo * gset nat) : gmap nat NodeInfo * gset nat :=
  let nodeInfos := fst st in
  let nodesToTraverse := snd st in
  let exists_ := nodeInfos !! exit in
  let nodeInfo := default newNodeInfo (nodeInfos !! currentNode) in
  let r := propagateFrom (default newNodeInfo exists_) nodeInfo in
  let nodeInfos := <[exit := fst r]> nodeInfos in
  if snd r || negb (bool_decide (is_Some exists_))
  then (nodeInfos, {[exit]} ∪ nodesToTraverse)
  else (nodeInfos, nodesToTraverse).

(** One round of the [while (!nodesToTraverse.empty())] loop; [None] when
    the set is empty. *)
Definition traverseStep (cfg : gmap nat CFG.CFGNode)
    (st : gmap nat NodeInfo * gset nat)
  : option (gmap nat NodeInfo * gset nat) :=
  let nodeInfos := fst st in
  let nodesToTraverse := snd st in
  match firstAddress nodesToTraverse with
  | None => None
  | Some currentNode =>
      let nodesToTraverse := nodesToTraverse ∖ {[currentNode]} in
      let nodeInfo := default newNodeInfo (nodeInfos !! currentNode) in
      let r :=
        replay currentNode 0
          (CFG.variableOccurrences (nodeAt cfg currentNode))
          (unassignedVariablesAtEntry nodeInfo,
           uninitializedVariableAccesses nodeInfo) in
      let nodeInfo :=
        mkNodeInfo (unassignedVariablesAtEntry nodeInfo) (fst r) (snd r) in
      let nodeInfos := <[currentNode := nodeInfo]> nodeInfos in
      Some (foldl (fun st exit => propagateTo currentNode exit st)
              (nodeInfos, nodesToTraverse)
              (CFG.exits (nodeAt cfg currentNode)))
  end.

(** The loop, cut off by [fuel]; the result is the map [nodeInfos]. *)
Fixpoint traverse (cfg : gmap nat CFG.CFGNode) (fuel : nat)
    (st : gmap nat NodeInfo * gset nat) : option (gmap nat NodeInfo) :=
  match fuel with
  | O => None
  | S fuel' =>
      match traverseStep cfg st with
      | None => Some (fst st)
      | Some st' => traverse cfg fuel' st'
      end
  end.

Definition quote : string := String "034"%char EmptyString.

Definition uninitializedAccessMessage (isStorage : bool)
    (k : VariableOccurrence.Kind) : string :=
  "This variable is of " ++ (if isStorage then "storage" else "calldata")
  ++ " pointer type and can be "
  ++ match k with
     | VariableOccurrence.Return => "returned"
     | _ => "accessed"
     end
  ++ " without prior assignment, which would lead to undefined behaviour.".

Definition unassignedReturnMessage (_contractName : option string) : string :=
  "Unnamed return variable can remain unassigned"
  ++ match _contractName with
     | Some contractName =>
         " when the function is called when " ++ quote ++ contractName
         ++ quote ++ " is the most derived contract."
     | None => "."
     end
  ++ " Add an explicit return with value to all non-reverting code paths or name the variable.".

(** The body of the loop over [uninitializedAccessesOrdered]. *)
Definition reportUninitializedAccess (_emptyBody : bool)
    (_contractName : option string)
    (variableOccurrence : CFG.VariableOccurrence)
    (a : ControlFlowAnalyzer.t) : ControlFlowAnalyzer.t :=
  let varDecl := CFG.declaration variableOccurrence in
  let ssl :=
    match CFG.occurrence variableOccurrence with
    | Some _ => [("The variable was declared here.", CFG.location varDecl)]
    | None => []
    end in
  let isStorage := CFG.dataStoredIn varDecl Storage in
  let isCalldata := CFG.dataStoredIn varDecl CallData in
  if isStorage || isCalldata then
    ControlFlowAnalyzer.mk
      (ControlFlowAnalyzer.m_errorReporter a
       ++ [mkDiagnostic TypeError 3464
             (default (CFG.location varDecl)
                (CFG.occurrence variableOccurrence))
             ssl
             (uninitializedAccessMessage isStorage
                (CFG.kind variableOccurrence))])
      (ControlFlowAnalyzer.m_unassignedReturnVarsAlreadyWarnedFor a)
      (ControlFlowAnalyzer.m_unreachableLocationsAlreadyWarnedFor a)
  else if negb _emptyBody && bool_decide (CFG.name varDecl = EmptyString) then
    if decide (CFG.id varDecl
               ∈ ControlFlowAnalyzer.m_unassignedReturnVarsAlreadyWarnedFor a)
    then a
    else
      ControlFlowAnalyzer.mk
        (ControlFlowAnalyzer.m_errorReporter a
         ++ [mkDiagnostic Warning 6321 (CFG.location varDecl) []
               (unassignedReturnMessage _contractName)])
        ({[CFG.id varDecl]}
         ∪ ControlFlowAnalyzer.m_unassignedReturnVarsAlreadyWarnedFor a)
        (ControlFlowAnalyzer.m_unreachableLocationsAlreadyWarnedFor a)
  else a.

Section UninitializedAccess.

(** [VariableOccurrence::operator<], declared outside src/: the order in
    which the flagged occurrences are reported is a parameter. *)
Variable occurrenceBefore :
  CFG.VariableOccurrence -> CFG.VariableOccurrence -> bool.

(** [lhs] may stay before [rhs] in the sorted vector. *)
Definition inReportOrder (lhs rhs : CFG.VariableOccurrence) : Prop :=
  occurrenceBefore rhs lhs = false.

#[local] Instance inReportOrder_dec lhs rhs : Decision (inReportOrder lhs rhs).
Proof. unfold inReportOrder. apply _. Defined.

(** The vector [uninitializedAccessesOrdered]: the flagged occurrences of
    the exit node, sorted ([ranges::sort]). *)
Definition uninitializedAccessesOrdered (cfg : gmap nat CFG.CFGNode)
    (exitInfo : NodeInfo) : list CFG.VariableOccurrence :=
  merge_sort inReportOrder
    (omap (occurrenceAt cfg)
       (elements (uninitializedVariableAccesses exitInfo))).

(** Step 5 of [checkUninitializedAccess]: what is reported once the loop has
    left [nodeInfos]. *)
Definition reportUninitializedAccesses (cfg : gmap nat CFG.CFGNode)
    (_exit : nat) (_emptyBody : bool) (_contractName : option string)
    (nodeInfos : gmap nat NodeInfo) (a : ControlFlowAnalyzer.t)
  : ControlFlowAnalyzer.t :=
  let exitInfo := default newNodeInfo (nodeInfos !! _exit) in
  foldl (fun a variableOccurrence =>
           reportUninitializedAccess _emptyBody _contractName
             variableOccurrence a)
    a (uninitializedAccessesOrdered cfg exitInfo).

(** [ControlFlowAnalyzer::checkUninitializedAccess]; [None] when the fuel
    does not suffice for the traversal. *)
Definition checkUninitializedAccess (cfg : gmap nat CFG.CFGNode) (fuel : nat)
    (_entry _exit : nat) (_emptyBody : bool) (_contractName : option string)
    (a : ControlFlowAnalyzer.t) : option ControlFlowAnalyzer.t :=
  match traverse cfg fuel (∅, {[_entry]}) with
  | Some nodeInfos =>
      Some (reportUninitializedAccesses cfg _exit _emptyBody _contractName
              nodeInfos a)
  | None => None
  end.

End UninitializedAccess.

(** *** Unreachable code *)

(** Modelled from the spec: the order of [langutil::SourceLocation] (its
    [operator<] is declared outside src/), by position: the source first (a
    location without source before one with), then the start, then the
    end.  It is the order of the two [std::set<SourceLocation>]. *)
Definition locationBefore (a b : SourceLocation) : bool :=
  let positionBefore :=
    (start a <? start b) || ((start a =? start b) && (end_ a <? end_ b)) in
  match sourceName a, sourceName b with
  | Some x, Some y =>
      match String.compare x y with
      | Lt => true
      | Eq => positionBefore
      | Gt => false
      end
  | None, Some _ => true
  | Some _, None => false
  | None, None => positionBefore
  end.

(** [a] may stay before [b] when the set is walked from [begin()]. *)
Definition inLocationOrder (a b : SourceLocation) : Prop :=
  locationBefore b a = false.

#[global] Instance inLocationOrder_dec a b : Decision (inLocationOrder a b).
Proof. unfold inLocationOrder. apply _. Defined.

(** The elements of a [std::set<SourceLocation>] from [begin()] to [end()]. *)
Definition inOrder (s : gset SourceLocation) : list SourceLocation :=
  merge_sort inLocationOrder (elements s).

Section BreadthFirstSearch.

Context {A : Type}.

(** The callback of [run]: the children it passes to [_addChild] for a
    vertex, and its effect on what it captures. *)
Variable forEachChild : nat -> A -> list nat * A.

(** Modelled from the spec: [util::BreadthFirstSearch<V>::run] (defined
    outside src/).  Vertices are taken from the front of the list to
    traverse; a vertex not visited before is marked visited and handed to
    the callback, and those of its children that are not visited yet are
    appended.  The result is the set of visited vertices. *)
Fixpoint breadthFirstSearch (fuel : nat) (verticesToTraverse : list nat)
    (visited : gset nat) (captured : A) : option (gset nat * A) :=
  match fuel with
  | O => None
  | S fuel' =>
      match verticesToTraverse with
      | [] => Some (visited, captured)
      | v :: rest =>
          if decide (v ∈ visited)
          then breadthFirstSearch fuel' rest visited captured
          else
            let visited := {[v]} ∪ visited in
            let r := forEachChild v captured in
            breadthFirstSearch fuel'
              (rest ++ filter (fun c => c ∉ visited) (fst r))
              visited (snd r)
      end
  end.

End BreadthFirstSearch.

(** [m_unreachableLocationsAlreadyWarnedFor.emplace(location).second], and
    the warning when the range is new. *)
Definition reportUnreachable (location : SourceLocation)
    (a : ControlFlowAnalyzer.t) : ControlFlowAnalyzer.t :=
  if decide (location
             ∈ ControlFlowAnalyzer.m_unreachableLocationsAlreadyWarnedFor a)
  then a
  else
    ControlFlowAnalyzer.mk
      (ControlFlowAnalyzer.m_errorReporter a
       ++ [mkDiagnostic Warning 5740 location [] "Unreachable code."])
      (ControlFlowAnalyzer.m_unassignedReturnVarsAlreadyWarnedFor a)
      ({[location]}
       ∪ ControlFlowAnalyzer.m_unreachableLocationsAlreadyWarnedFor a).

(** The two nested loops of step 3, with the iterator at the head of [rest]
    and the range built so far in [location]: the inner loop extends the
    range while the next location starts at or before its end; then the
    range is reported and the outer loop goes on from the iterator. *)
Fixpoint reportFrom (location : SourceLocation) (rest : list SourceLocation)
    (a : ControlFlowAnalyzer.t) : ControlFlowAnalyzer.t :=
  match rest with
  | [] => reportUnreachable location a
  | it :: rest' =>
      if start it <=? end_ location
      then
        reportFrom
          (mkLoc (start location) (Z.max (end_ location) (end_ it))
             (sourceName location))
          rest' a
      else reportFrom it rest' (reportUnreachable location a)
  end.

Definition reportUnreachableRanges (unreachable : list SourceLocation)
    (a : ControlFlowAnalyzer.t) : ControlFlowAnalyzer.t :=
  match unreachable with
  | [] => a
  | location :: rest => reportFrom location rest a
  end.

Section Unreachable.

(** [SourceLocation::isValid], declared outside src/, is a parameter. *)
Variable isValid : SourceLocation -> bool.

(** The callback of the backward search: it records the location of a
    vertex that is not reachable and follows the predecessors. *)
Definition recordUnreachable (cfg : gmap nat CFG.CFGNode)
    (reachable : gset nat) (_node : nat) (unreachable : gset SourceLocation)
  : list nat * gset SourceLocation :=
  (CFG.entries (nodeAt cfg _node),
   if negb (bool_decide (_node ∈ reachable))
      && isValid (CFG.nodeLocation (nodeAt cfg _node))
   then {[CFG.nodeLocation (nodeAt cfg _node)]} ∪ unreachable
   else unreachable).

(** [ControlFlowAnalyzer::checkUnreachable]; [None] when the fuel does not
    suffice for one of the two searches. *)
Definition checkUnreachable (cfg : gmap nat CFG.CFGNode) (fuel : nat)
    (_entry _exit _revert _transactionReturn : nat)
    (a : ControlFlowAnalyzer.t) : option ControlFlowAnalyzer.t :=
  match breadthFirstSearch
          (fun _node (_ : unit) => (CFG.exits (nodeAt cfg _node), tt))
          fuel [_entry] ∅ tt with
  | None => None
  | Some (reachable, _) =>
      match breadthFirstSearch (recordUnreachable cfg reachable)
              fuel [_exit; _revert; _transactionReturn] ∅ ∅ with
      | None => None
      | Some (_, unreachable) =>
          Some (reportUnreachableRanges (inOrder unreachable) a)
      end
  end.

End Unreachable.


(** *** The entry point of the evaluator *)

Section EvaluateExpression.

Variable fitsPrecisionBaseX : Z -> Q -> Z -> bool.
Variable unaryOperatorResult : SolType -> Token.t -> option SolType.
Variable binaryOperatorResult : SolType -> Token.t -> SolType -> option SolType.
Variable tokenToString : Token.t -> string.
Variable typeToString : SolType -> string.
Variable declarations : gmap nat VariableDeclaration.

(** The static [ConstantEvaluator::evaluate(ErrorReporter&, Expression
    const&)]: a new evaluator around the reporter, with the counter at 0 and
    nothing memoised, evaluates the expression. *)
Definition evaluateExpression (fuel : nat) (_errorReporter : list Diagnostic)
    (_expr : Expression) : Outcome (option TypedRational) :=
  evaluate fitsPrecisionBaseX unaryOperatorResult binaryOperatorResult
    tokenToString typeToString declarations fuel (ExpressionNode _expr)
    (mkEvaluator _errorReporter 0 ∅).

End EvaluateExpression.

(** *** The driver of the control-flow analysis *)

(** What [analyze] reads of a function: whether it is implemented, the
    address of the contract in its annotation (none for a null pointer), and
    whether its body has no statements. *)
Record FunctionDefinition : Set := mkFunctionDefinition {
  isImplemented : bool;
  annotationContract : option nat;
  bodyStatementsEmpty : bool
}.

Record ContractDefinition : Set := mkContractDefinition {
  contractAddress : nat;
  contractName : string
}.

Module FunctionFlow.
Record t : Set := mk {
  entry : nat;
  exit : nat;
  revert : nat;
  transactionReturn : nat
}.
End FunctionFlow.

Section Run.

Variable occurrenceBefore :
  CFG.VariableOccurrence -> CFG.VariableOccurrence -> bool.
Variable isValid : SourceLocation -> bool.

(** [Error::containsErrors], declared outside src/, is a parameter. *)
Variable containsErrors : list Diagnostic -> bool.

(** The nodes of all functions, by address. *)
Variable cfg : gmap nat CFG.CFGNode.

(** [ControlFlowAnalyzer::analyze]; [_contract] is a pointer that may be
    null.  [None] when the fuel does not suffice for one of the checks. *)
Definition analyze (fuel : nat) (_function : FunctionDefinition)
    (_contract : option ContractDefinition) (_flow : FunctionFlow.t)
    (a : ControlFlowAnalyzer.t) : option ControlFlowAnalyzer.t :=
  if negb (isImplemented _function) then Some a
  else
    let mostDerivedContractName :=
      match _contract with
      | Some contract =>
          if bool_decide (Some (contractAddress contract)
                          <> annotationContract _function)
          then Some (contractName contract)
          else None
      | None => None
      end in
    match checkUninitializedAccess occurrenceBefore cfg fuel
            (FunctionFlow.entry _flow) (FunctionFlow.exit _flow)
            (bodyStatementsEmpty _function) mostDerivedContractName a with
    | Some a =>
        checkUnreachable isValid cfg fuel
          (FunctionFlow.entry _flow) (FunctionFlow.exit _flow)
          (FunctionFlow.revert _flow) (FunctionFlow.transactionReturn _flow) a
    | None => None
    end.


End Run.
(** *** Vocabulary of the properties *)

(** Number of bits of a positive integer. *)
Definition bitLength (n : Z) : Z := Z.log2 n + 1.

(** The value lies within the inclusive bounds of an integer type. *)
Definition withinBounds (v : rational) (minValue maxValue : Z) : Prop :=
  (inject_Z minValue <= this v)%Q /\ (this v <= inject_Z maxValue)%Q.

(** Nesting depth of an expression. *)
Fixpoint height (e : Expression) : nat :=
  match e with
  | BinaryOperation _ _ _ l r => S (Nat.max (height l) (height r))
  | UnaryOperation _ _ _ sub => S (height sub)
  | TupleExpression _ cs =>
      S ((fix heights (l : list Expression) : nat :=
            match l with
            | [] => O
            | c :: l' => Nat.max (height c) (heights l')
            end) cs)
  | Literal _ _ | Identifier _ _ | OtherExpression _ => 1%nat
  end.

(** The deepest initialiser among the declarations of the program. *)
Definition initialiserHeight (declarations : gmap nat VariableDeclaration)
  : nat :=
  max_list
    ((fun kv => match declValue (snd kv) with
                | Some e => height e
                | None => O
                end) <$> map_to_list declarations).

(** Calls of [evaluate] that suffice below a declaration entered with the
    counter at [depth], when no initialiser is deeper than [H]; and below a
    node. *)
Definition declarationFuel (H depth : nat) : nat :=
  ((32 - depth) * (H + 1) + 1)%nat.

Definition nodeFuel (H : nat) (node : ASTNode) (depth : nat) : nat :=
  match node with
  | VariableDeclarationNode _ => declarationFuel H depth
  | ExpressionNode e => (height e + declarationFuel H depth)%nat
  end.

(** A chain of constants [d0; d1; ...; dk], none evaluated yet: each but the
    last is initialised by an identifier that refers to the next, and the
    last has an initialiser and a type.  A cyclic definition unrolls into
    such chains of any length. *)
Fixpoint aliasChain (declarations : gmap nat VariableDeclaration)
    (values : gmap nat (option TypedRational)) (chain : list nat) : Prop :=
  match chain with
  | [] => False
  | d :: rest =>
      exists varDecl initializer t,
        declarations !! d = Some varDecl
        /\ isConstant varDecl = true
        /\ declValue varDecl = Some initializer
        /\ declType varDecl = Some t
        /\ values !! d = None
        /\ match rest with
           | [] => True
           | d' :: _ =>
               exists i, initializer = Identifier i (Some d')
                         /\ values !! i = None
                         /\ aliasChain declarations values rest
           end
  end.

(** The location of the last declaration of a chain. *)
Definition chainEnd (declarations : gmap nat VariableDeclaration)
    (chain : list nat) : SourceLocation :=
  match last chain with
  | Some d =>
      match declarations !! d with
      | Some varDecl => declLocation varDecl
      | None => mkLoc (-1) (-1) None
      end
  | None => mkLoc (-1) (-1) None
  end.

Definition cyclicDefinitionError (l : SourceLocation) : Diagnostic :=
  mkDiagnostic FatalTypeError 5210 l []
    "Cyclic constant definition (or maximum recursion depth exhausted).".

(** What an evaluation entered with the counter at [depth] may end in: it
    does end; when it returns the counter is back at [depth]; when it throws
    the fatal error the counter has not passed 33 (nor [depth + 1]). *)
Definition depthBounded {A : Type} (depth : nat) (o : Outcome A) : Prop :=
  match o with
  | Returns _ s' => m_depth s' = depth
  | Fatal s' => (m_depth s' <= Nat.max 33 (S depth))%nat
  | AssertionFailed _ => True
  | OutOfFuel => False
  end.

(** *** The chain of calls below an evaluation *)

Section CallChain.

(** The evaluation whose calls are followed, and the declarations of the
    program. *)
Variable eval :
  nat -> ASTNode -> ConstantEvaluator -> Outcome (option TypedRational).
Variable declarations : gmap nat VariableDeclaration.

(** In the state [s] the declaration at [d] is the constant [varDecl], with
    the initialiser [initializer] and a type, and not evaluated yet. *)
Definition constantToEvaluate (s : ConstantEvaluator) (d : nat)
    (varDecl : VariableDeclaration) (initializer : Expression) : Prop :=
  declarations !! d = Some varDecl
  /\ isConstant varDecl = true
  /\ declValue varDecl = Some initializer
  /\ is_Some (declType varDecl)
  /\ m_values s !! d = None.

(** [drivesCounterPast32 fuel node s last s32]: the evaluation of [node],
    begun in the state [s], leads through a chain of initialisers of
    constants to the constant [last], entered in the state [s32] with the
    counter at 32 (or beyond), so that the increment drives it past 32.
    The chain runs through nodes not evaluated yet and may pass, between one
    constant and the next, through the operands of binary and unary
    operations, the component of a parenthesised expression and the
    identifier that refers to the next constant; where it passes through a
    right operand, the left operand has returned.  [fuel] counts the calls
    as [evaluate] does. *)
Inductive drivesCounterPast32
  : nat -> ASTNode -> ConstantEvaluator -> VariableDeclaration ->
    ConstantEvaluator -> Prop :=
| past32_declaration fuel d varDecl initializer s :
    constantToEvaluate s d varDecl initializer ->
    (32 <= m_depth s)%nat ->
    drivesCounterPast32 (S fuel) (VariableDeclarationNode d) s varDecl s
| past32_initializer fuel d varDecl initializer s last s32 :
    constantToEvaluate s d varDecl initializer ->
    (m_depth s < 32)%nat ->
    drivesCounterPast32 fuel (ExpressionNode initializer)
      (setDepth (S (m_depth s)) s) last s32 ->
    drivesCounterPast32 (S fuel) (VariableDeclarationNode d) s last s32
| past32_identifier fuel id d varDecl s last s32 :
    m_values s !! id = None ->
    declarations !! d = Some varDecl -> isConstant varDecl = true ->
    drivesCounterPast32 fuel (VariableDeclarationNode d) s last s32 ->
    drivesCounterPast32 (S fuel) (ExpressionNode (Identifier id (Some d))) s
      last s32
| past32_leftOperand fuel id loc op l r s last s32 :
    m_values s !! id = None ->
    drivesCounterPast32 fuel (ExpressionNode l) s last s32 ->
    drivesCounterPast32 (S fuel)
      (ExpressionNode (BinaryOperation id loc op l r)) s last s32
| past32_rightOperand fuel id loc op l r s v s1 last s32 :
    m_values s !! id = None ->
    eval fuel (ExpressionNode l) s = Returns v s1 ->
    drivesCounterPast32 fuel (ExpressionNode r) s1 last s32 ->
    drivesCounterPast32 (S fuel)
      (ExpressionNode (BinaryOperation id loc op l r)) s last s32
| past32_operand fuel id loc op sub s last s32 :
    m_values s !! id = None ->
    drivesCounterPast32 fuel (ExpressionNode sub) s last s32 ->
    drivesCounterPast32 (S fuel)
      (ExpressionNode (UnaryOperation id loc op sub)) s last s32
| past32_component fuel id inner s last s32 :
    m_values s !! id = None ->
    drivesCounterPast32 fuel (ExpressionNode inner) s last s32 ->
    drivesCounterPast32 (S fuel)
      (ExpressionNode (TupleExpression id [inner])) s last s32.

End CallChain.

(** *** Example programs *)

Definition uint256 : SolType := IntegerType 0 (2 ^ 256 - 1).

(** Type rules for the examples: the result type is that of the operand. *)
Definition sameTypeUnary (t : SolType) (_ : Token.t) : option SolType := Some t.
Definition sameTypeBinary (t : SolType) (_ : Token.t) (_ : SolType)
  : option SolType := Some t.
Definition printToken (_ : Token.t) : string := "op".
Definition printType (_ : SolType) : string := "type".

(** [uint256 constant a = b; uint256 constant b = a;] with the declarations
    at the addresses 1 and 2 and the two identifiers at 11 and 12. *)
Definition cyclicConstants : gmap nat VariableDeclaration :=
  <[1%nat := mkVariableDeclaration (mkLoc 0 24 (Some "c.sol")) true
               (Some (Identifier 11 (Some 2%nat))) (Some uint256)]>
  (<[2%nat := mkVariableDeclaration (mkLoc 26 50 (Some "c.sol")) true
                (Some (Identifier 12 (Some 1%nat))) (Some uint256)]> ∅).

(** The cycle unrolled: [a; b; a; b; ...], [n] declarations starting at [a]. *)
Fixpoint unrollCycle (n : nat) (a b : nat) : list nat :=
  match n with
  | O => []
  | S n' => a :: unrollCycle n' b a
  end.

Definition freshEvaluator : ConstantEvaluator := mkEvaluator [] 0 ∅.

(** A chain of [n + 1] constants at the addresses [d], [d + 1], ...: each is
    initialised by an identifier for the next one, the last one by the
    literal 7. *)
Fixpoint constantChain (n d : nat) : gmap nat VariableDeclaration :=
  match n with
  | O =>
      <[d := mkVariableDeclaration (mkLoc 0 1 (Some "c.sol")) true
               (Some (Literal (1000 + d)
                        (Some (RationalNumberType (rational_of_bigint 7)))))
               (Some uint256)]> ∅
  | S n' =>
      <[d := mkVariableDeclaration (mkLoc 0 1 (Some "c.sol")) true
               (Some (Identifier (1000 + d) (Some (S d))))
               (Some uint256)]> (constantChain n' (S d))
  end.

(** *** Vocabulary of the control-flow properties *)

(** The kinds that read a variable. *)
Definition readsVariable (k : VariableOccurrence.Kind) : Prop :=
  k = VariableOccurrence.Access \/ k = VariableOccurrence.Return
  \/ k = VariableOccurrence.InlineAssembly.

(** The unassigned set in front of the occurrence with index [i], when the
    node is entered with [atEntry]. *)
Definition unassignedBefore (occurrences : list CFG.VariableOccurrence)
    (atEntry : gset nat) (i : nat) : gset nat :=
  fst (replay 0 0 (take i occurrences) (atEntry, ∅)).

(** What an analyser does to its reporter and its two sets over its
    lifetime: it handles flagged accesses and merged unreachable ranges, in
    some sequence. *)
Inductive Action : Set :=
| ReportAccess (_emptyBody : bool) (_contractName : option string)
    (variableOccurrence : CFG.VariableOccurrence)
| ReportUnreachable (location : SourceLocation).

Definition perform (x : Action) (a : ControlFlowAnalyzer.t)
  : ControlFlowAnalyzer.t :=
  match x with
  | ReportAccess e c o => reportUninitializedAccess e c o a
  | ReportUnreachable l => reportUnreachable l a
  end.

(** The diagnostics reported between two states of the analyser. *)
Definition emitted (a a' : ControlFlowAnalyzer.t) : list Diagnostic :=
  drop (length (ControlFlowAnalyzer.m_errorReporter a))
    (ControlFlowAnalyzer.m_errorReporter a').

Definition emitsId (i : Z) (a a' : ControlFlowAnalyzer.t) : bool :=
  bool_decide (i ∈ errorId <$> emitted a a').

(** The declarations for which the unassigned-return warning (6321) is
    emitted in the course of a sequence of actions, one entry per emission;
    and likewise the ranges warned about as unreachable (5740). *)
Fixpoint warnedDeclarations (actions : list Action)
    (a : ControlFlowAnalyzer.t) : list nat :=
  match actions with
  | [] => []
  | x :: rest =>
      let a' := perform x a in
      match x with
      | ReportAccess _ _ o =>
          if emitsId 6321 a a' then [CFG.id (CFG.declaration o)] else []
      | ReportUnreachable _ => []
      end ++ warnedDeclarations rest a'
  end.

Fixpoint warnedRanges (actions : list Action)
    (a : ControlFlowAnalyzer.t) : list SourceLocation :=
  match actions with
  | [] => []
  | x :: rest =>
      let a' := perform x a in
      match x with
      | ReportUnreachable l => if emitsId 5740 a a' then [l] else []
      | ReportAccess _ _ _ => []
      end ++ warnedRanges rest a'
  end.

(** *** Example graphs *)

Definition inSource (s e : Z) : SourceLocation := mkLoc s e (Some "a.sol").
Definition noLocation : SourceLocation := mkLoc (-1) (-1) None.

Definition storagePointer : CFG.VariableDeclaration :=
  CFG.mkVariableDeclaration 100 "s" (inSource 10 20)
    (fun l => match l with Storage => true | _ => false end).

Definition unnamedReturn : CFG.VariableDeclaration :=
  CFG.mkVariableDeclaration 101 EmptyString (inSource 5 9) (fun _ => false).

(** [S storage s; if (c) { s = x; } s.a;] in a function with an unnamed
    return variable: the entry node 0 declares both, the branch 1 assigns
    [s], the join 2 reads [s], the exit 3 returns the unnamed variable. *)
Definition storagePointerExample : gmap nat CFG.CFGNode :=
  <[0%nat := CFG.mkCFGNode [] [1%nat; 2%nat]
               [CFG.mkVariableOccurrence VariableOccurrence.Declaration
                  unnamedReturn None;
                CFG.mkVariableOccurrence VariableOccurrence.Declaration
                  storagePointer (Some (inSource 10 20))]
               (inSource 0 30)]>
  (<[1%nat := CFG.mkCFGNode [0%nat] [2%nat]
                [CFG.mkVariableOccurrence VariableOccurrence.Assignment
                   storagePointer (Some (inSource 40 45))]
                (inSource 40 45)]>
  (<[2%nat := CFG.mkCFGNode [0%nat; 1%nat] [3%nat]
                [CFG.mkVariableOccurrence VariableOccurrence.Access
                   storagePointer (Some (inSource 50 55))]
                (inSource 50 55)]>
  (<[3%nat := CFG.mkCFGNode [2%nat] []
                [CFG.mkVariableOccurrence VariableOccurrence.Return
                   unnamedReturn None]
                noLocation]> ∅))).

(** An order of the occurrences by the start of their own location, those
    without one first. *)
Definition byOccurrenceStart (a b : CFG.VariableOccurrence) : bool :=
  match CFG.occurrence a, CFG.occurrence b with
  | Some la, Some lb => start la <? start lb
  | None, Some _ => true
  | _, _ => false
  end.

Definition freshAnalyzer : ControlFlowAnalyzer.t :=
  ControlFlowAnalyzer.mk [] ∅ ∅.

(** Paths along successor edges. *)
Definition successor (cfg : gmap nat CFG.CFGNode) (a b : nat) : Prop :=
  b ∈ CFG.exits (nodeAt cfg a).

Definition reaches (cfg : gmap nat CFG.CFGNode) : nat -> nat -> Prop :=
  rtc (successor cfg).

(** Every flagged access recorded for a node is a reading occurrence of a
    node that is reachable from the entry and from which that node is
    reachable; and only nodes reachable from the entry are visited. *)
Definition flagsJustified (cfg : gmap nat CFG.CFGNode) (_entry : nat)
    (st : gmap nat NodeInfo * gset nat) : Prop :=
  (forall m info, fst st !! m = Some info ->
     reaches cfg _entry m
     /\ forall p, p ∈ uninitializedVariableAccesses info ->
          reaches cfg _entry (fst p) /\ reaches cfg (fst p) m
          /\ exists o, occurrenceAt cfg p = Some o
                       /\ readsVariable (CFG.kind o))
  /\ (forall m, m ∈ snd st -> reaches cfg _entry m).

(** The nodes the traversal can meet, the variables that occur in the graph
    and the addresses of its occurrences. *)
Definition allNodes (cfg : gmap nat CFG.CFGNode) (_entry : nat) : gset nat :=
  {[_entry]}
  ∪ list_to_set (concat ((fun kv => CFG.exits (snd kv)) <$> map_to_list cfg)).

Definition allVariables (cfg : gmap nat CFG.CFGNode) : gset nat :=
  list_to_set
    (concat ((fun kv => (fun o => CFG.id (CFG.declaration o))
                          <$> CFG.variableOccurrences (snd kv))
               <$> map_to_list cfg)).

Definition allOccurrences (cfg : gmap nat CFG.CFGNode) : gset (nat * nat) :=
  list_to_set
    (concat ((fun kv => (fun i => (fst kv, i))
                          <$> seq 0 (length (CFG.variableOccurrences (snd kv))))
               <$> map_to_list cfg)).

(** Rounds of the traversal loop that always suffice. *)
Definition traverseFuel (cfg : gmap nat CFG.CFGNode) (_entry : nat) : nat :=
  (2 * (size (allNodes cfg _entry)
        * S (size (allVariables cfg) + size (allOccurrences cfg))) + 2)%nat.

(** The sets of the traversal stay within the graph. *)
Definition withinGraph (cfg : gmap nat CFG.CFGNode) (_entry : nat)
    (st : gmap nat NodeInfo * gset nat) : Prop :=
  snd st ⊆ allNodes cfg _entry
  /\ forall m info, fst st !! m = Some info ->
       unassignedVariablesAtEntry info ⊆ allVariables cfg
       /\ unassignedVariablesAtExit info ⊆ allVariables cfg
       /\ uninitializedVariableAccesses info ⊆ allOccurrences cfg.

(** What a node can still gain, and the measure of the traversal: every
    round lowers it. *)
Definition nodePotential (cfg : gmap nat CFG.CFGNode)
    (nodeInfos : gmap nat NodeInfo) (m : nat) : nat :=
  match nodeInfos !! m with
  | None => S (size (allVariables cfg) + size (allOccurrences cfg))
  | Some info =>
      ((size (allVariables cfg) - size (unassignedVariablesAtEntry info))
       + (size (allOccurrences cfg)
          - size (uninitializedVariableAccesses info)))%nat
  end.

Definition traversePotential (cfg : gmap nat CFG.CFGNode) (_entry : nat)
    (st : gmap nat NodeInfo * gset nat) : nat :=
  (2 * sum_list (nodePotential cfg (fst st) <$> elements (allNodes cfg _entry))
   + size (snd st))%nat.

(** [S storage s; if (c) { s.a; revert(); } s = x; s.a;]: the read in the
    branch 1 comes before any assignment, but the branch only leads to the
    revert node 4, not to the exit 3. *)
Definition readBeforeRevertExample : gmap nat CFG.CFGNode :=
  <[0%nat := CFG.mkCFGNode [] [1%nat; 2%nat]
               [CFG.mkVariableOccurrence VariableOccurrence.Declaration
                  storagePointer (Some (inSource 10 20))]
               (inSource 0 30)]>
  (<[1%nat := CFG.mkCFGNode [0%nat] [4%nat]
                [CFG.mkVariableOccurrence VariableOccurrence.Access
                   storagePointer (Some (inSource 40 45))]
                (inSource 40 45)]>
  (<[2%nat := CFG.mkCFGNode [0%nat] [3%nat]
                [CFG.mkVariableOccurrence VariableOccurrence.Assignment
                   storagePointer (Some (inSource 50 55));
                 CFG.mkVariableOccurrence VariableOccurrence.Access
                   storagePointer (Some (inSource 60 65))]
                (inSource 50 65)]>
  (<[3%nat := CFG.mkCFGNode [2%nat] [] [] noLocation]>
  (<[4%nat := CFG.mkCFGNode [1%nat] [] [] noLocation]> ∅)))).

(** Paths along predecessor edges, as the backward search follows them. *)
Definition predecessor (cfg : gmap nat CFG.CFGNode) (a b : nat) : Prop :=
  b ∈ CFG.entries (nodeAt cfg a).

Definition reachesBackward (cfg : gmap nat CFG.CFGNode) : nat -> nat -> Prop :=
  rtc (predecessor cfg).

(** Rounds that always suffice for either search of [checkUnreachable]: the
    start vertices and one round per edge, in either direction. *)
Definition searchFuel (cfg : gmap nat CFG.CFGNode) : nat :=
  (4 + sum_list ((fun kv => length (CFG.exits (snd kv))
                            + length (CFG.entries (snd kv)))%nat
                   <$> map_to_list cfg))%nat.

(** What a search has still to do: the vertices in its list, and the
    children of the vertices of [support] it has not visited. *)
Definition searchPotential (children : nat -> list nat) (support : list nat)
    (verticesToTraverse : list nat) (visited : gset nat) : nat :=
  (length verticesToTraverse
   + sum_list ((fun v => if decide (v ∈ visited) then O
                         else length (children v)) <$> support))%nat.

(** The vertices on a path from one of the start vertices. *)
Definition reachedFrom (children : nat -> list nat) (starts : list nat)
    (v : nat) : Prop :=
  exists s, s ∈ starts /\ rtc (fun a b => b ∈ children a) s v.

(** The state of a search in progress: what is visited or listed can be
    reached from the start vertices; these are visited or listed; the
    children of a visited vertex are visited or listed; and the callback's
    property of what it captured holds. *)
Definition searchProgress {A : Type} (children : nat -> list nat)
    (starts : list nat) (captures : gset nat -> A -> Prop)
    (queue : list nat) (visited : gset nat) (captured : A) : Prop :=
  (forall v, v ∈ visited \/ v ∈ queue -> reachedFrom children starts v)
  /\ (forall s, s ∈ starts -> s ∈ visited \/ s ∈ queue)
  /\ (forall v c, v ∈ visited -> c ∈ children v -> c ∈ visited \/ c ∈ queue)
  /\ captures visited captured.

(** Following the spec's words: the locations, sorted by position, are
    coalesced into ranges; a location that starts at or before the end of
    the range built so far extends that range, another one starts the next
    range. *)
Fixpoint coalesce (current : SourceLocation) (rest : list SourceLocation)
  : list SourceLocation :=
  match rest with
  | [] => [current]
  | next :: rest' =>
      if start next <=? end_ current
      then coalesce (mkLoc (start current) (Z.max (end_ current) (end_ next))
                       (sourceName current)) rest'
      else current :: coalesce next rest'
  end.

Definition mergedRanges (sorted : list SourceLocation) : list SourceLocation :=
  match sorted with
  | [] => []
  | first :: rest => coalesce first rest
  end.

(** The range [r] covers the location [l]. *)
Definition covers (r l : SourceLocation) : Prop :=
  start r <= start l /\ end_ l <= end_ r.

Definition unreachableWarning (r : SourceLocation) : Diagnostic :=
  mkDiagnostic Warning 5740 r [] "Unreachable code.".

(** The nodes the backward search from the exit, revert and
    transaction-return nodes finds unreachable: met along predecessor edges,
    not reachable from the entry, with a valid location. *)
Definition foundUnreachable (isValid : SourceLocation -> bool)
    (cfg : gmap nat CFG.CFGNode)
    (_entry _exit _revert _transactionReturn n : nat) : Prop :=
  (reachesBackward cfg _exit n \/ reachesBackward cfg _revert n
   \/ reachesBackward cfg _transactionReturn n)
  /\ ~ reaches cfg _entry n
  /\ isValid (CFG.nodeLocation (nodeAt cfg n)) = true.

(** A location is taken as valid in the examples unless it is the default
    one. *)
Definition notDefault (l : SourceLocation) : bool :=
  negb (bool_decide (l = noLocation)).

(** [if (c) { revert(); } else { revert(); } x = 1; y = 2;]: both branches 1
    and 2 lead to the revert node 5; the labels 6 and 7 behind the two
    reverts, which nothing enters, lead to the statements 3 and 8 and these
    to the exit 4.  The transaction-return node is 9. *)
Definition revertInBothBranches : gmap nat CFG.CFGNode :=
  <[0%nat := CFG.mkCFGNode [] [1%nat; 2%nat] [] (inSource 0 10)]>
  (<[1%nat := CFG.mkCFGNode [0%nat] [5%nat] [] (inSource 20 30)]>
  (<[2%nat := CFG.mkCFGNode [0%nat] [5%nat] [] (inSource 40 50)]>
  (<[6%nat := CFG.mkCFGNode [] [3%nat] [] noLocation]>
  (<[7%nat := CFG.mkCFGNode [] [3%nat] [] noLocation]>
  (<[3%nat := CFG.mkCFGNode [6%nat; 7%nat] [8%nat] [] (inSource 60 70)]>
  (<[8%nat := CFG.mkCFGNode [3%nat] [4%nat] [] (inSource 70 90)]>
  (<[4%nat := CFG.mkCFGNode [8%nat] [] [] noLocation]>
  (<[5%nat := CFG.mkCFGNode [1%nat; 2%nat] [] [] noLocation]>
  (<[9%nat := CFG.mkCFGNode [] [] [] noLocation]> ∅))))))))).

(** The same function with one more node, 10, that only leads to itself:
    it cannot be reached from the entry, and none of the exit, revert and
    transaction-return nodes can be reached from it. *)
Definition withDeadEnd : gmap nat CFG.CFGNode :=
  <[10%nat := CFG.mkCFGNode [10%nat] [10%nat] [] (inSource 100 110)]>
    revertInBothBranches.

(** A function whose body runs through the code of a modifier that is
    defined in another source: the entry 0 leads to the exit 1; the nodes 2,
    in [a.sol], and 3, in [b.sol], lead to the exit too, and nothing enters
    them.  The revert and transaction-return nodes are 4 and 5. *)
Definition twoSources : gmap nat CFG.CFGNode :=
  <[0%nat := CFG.mkCFGNode [] [1%nat] [] (inSource 0 10)]>
  (<[1%nat := CFG.mkCFGNode [0%nat; 2%nat; 3%nat] [] [] noLocation]>
  (<[2%nat := CFG.mkCFGNode [] [1%nat] [] (inSource 95 99)]>
  (<[3%nat := CFG.mkCFGNode [] [1%nat] [] (mkLoc 10 20 (Some "b.sol"))]>
  (<[4%nat := CFG.mkCFGNode [] [] [] noLocation]>
  (<[5%nat := CFG.mkCFGNode [] [] [] noLocation]> ∅))))).

(** *** Vocabulary of the further properties *)

(** The integer part of a rational, rounded towards zero (the C++ division
    of its numerator by its denominator). *)
Definition truncate (q : rational) : Z := Z.quot (numerator q) (denominator q).

(** The error codes the evaluator reports. *)
Definition evaluatorErrorIds : list Z := [5210; 3667; 2643; 6020].

(** What an evaluation started with the reports [reported] may have done to
    the reporter: nothing, unless it was abandoned with a fatal type error,
    and then it has added that one error. *)
Definition reportsOnlyWhenFatal {A : Type} (reported : list Diagnostic)
    (o : Outcome A) : Prop :=
  match o with
  | Returns _ s' | AssertionFailed s' => m_errorReporter s' = reported
  | Fatal s' =>
      exists id l msg,
        m_errorReporter s'
        = reported ++ [mkDiagnostic FatalTypeError id l [] msg]
        /\ id ∈ evaluatorErrorIds
  | OutOfFuel => True
  end.

(** The state after [uint256 constant c = 7;] (the declaration at the
    address 1, the literal at 1001) has been evaluated by a new evaluator. *)
Definition sevenAsUint256 : TypedRational :=
  mkTypedRational uint256 (rational_of_bigint 7).

Definition sevenEvaluated : ConstantEvaluator :=
  mkEvaluator [] 0
    (<[1%nat := Some sevenAsUint256]>
       (<[1001%nat :=
            Some (mkTypedRational (RationalNumberType (rational_of_bigint 7))
                    (rational_of_bigint 7))]> ∅)).

(** *** Paths through the control-flow graph *)

(** The unassigned set behind the occurrences of a node entered with [U]. *)
Definition afterNode (cfg : gmap nat CFG.CFGNode) (n : nat) (U : gset nat)
  : gset nat :=
  let occurrences := CFG.variableOccurrences (nodeAt cfg n) in
  unassignedBefore occurrences U (length occurrences).

(** The variables left unassigned by walking through the nodes of [path]
    in turn, starting with none. *)
Definition unassignedAfterPath (cfg : gmap nat CFG.CFGNode) (path : list nat)
  : gset nat :=
  foldl (fun U n => afterNode cfg n U) ∅ path.

(** [arrivesAt cfg _entry path n]: starting at the entry and following
    successor edges, the nodes of [path] are walked through in turn and then
    [n] is entered. *)
Inductive arrivesAt (cfg : gmap nat CFG.CFGNode) (_entry : nat)
  : list nat -> nat -> Prop :=
| arrives_entry : arrivesAt cfg _entry [] _entry
| arrives_step path b c :
    arrivesAt cfg _entry path b -> successor cfg b c ->
    arrivesAt cfg _entry (path ++ [b]) c.

(** The occurrences met by walking through the nodes of [path] in turn, in
    the order they are met. *)
Definition occurrencesAlong (cfg : gmap nat CFG.CFGNode) (path : list nat)
  : list CFG.VariableOccurrence :=
  path ≫= (fun n => CFG.variableOccurrences (nodeAt cfg n)).

(** Among the occurrences [met], in the order they were met, the variable
    [v] has been declared and not assigned since: one of them, [d], declares
    [v], and none of those met after [d] assigns [v]. *)
Definition declaredUnassigned (met : list CFG.VariableOccurrence) (v : nat)
  : Prop :=
  exists before d after,
    met = before ++ d :: after
    /\ CFG.kind d = VariableOccurrence.Declaration
    /\ CFG.id (CFG.declaration d) = v
    /\ forall a, a ∈ after -> CFG.kind a = VariableOccurrence.Assignment ->
                 CFG.id (CFG.declaration a) <> v.

(** The occurrence at the address [p] reads its variable; on some path from
    the entry to the node of the occurrence the variable has been declared
    and not assigned since, among the occurrences of the nodes walked
    through and those in front of [p] in its own node; and [_exit] can be
    reached from the node of the occurrence. *)
Definition readsUnassignedOnPath (cfg : gmap nat CFG.CFGNode)
    (_entry _exit : nat) (p : nat * nat) : Prop :=
  exists path o,
    arrivesAt cfg _entry path (fst p)
    /\ occurrenceAt cfg p = Some o
    /\ readsVariable (CFG.kind o)
    /\ declaredUnassigned
         (occurrencesAlong cfg path
          ++ take (snd p) (CFG.variableOccurrences (nodeAt cfg (fst p))))
         (CFG.id (CFG.declaration o))
    /\ reaches cfg (fst p) _exit.

(** The same read in terms of the sets that the loop over the occurrences
    keeps, for the invariants of the traversal: the variable is in the
    unassigned set that the replay of the path leaves in front of [p]. *)
Definition replaysUnassignedOnPath (cfg : gmap nat CFG.CFGNode)
    (_entry _exit : nat) (p : nat * nat) : Prop :=
  exists path o,
    arrivesAt cfg _entry path (fst p)
    /\ occurrenceAt cfg p = Some o
    /\ readsVariable (CFG.kind o)
    /\ CFG.id (CFG.declaration o)
       ∈ unassignedBefore (CFG.variableOccurrences (nodeAt cfg (fst p)))
           (unassignedAfterPath cfg path) (snd p)
    /\ reaches cfg (fst p) _exit.

(** What the traversal has recorded is witnessed by paths: every node met
    is on a path from the entry, every variable in an entry or exit state
    is unassigned there on some path, and every flagged access reads an
    unassigned variable on some path. *)
Definition onPaths (cfg : gmap nat CFG.CFGNode) (_entry : nat)
    (st : gmap nat NodeInfo * gset nat) : Prop :=
  (forall m info, fst st !! m = Some info ->
     (exists path, arrivesAt cfg _entry path m)
     /\ (forall v, v ∈ unassignedVariablesAtEntry info ->
           exists path, arrivesAt cfg _entry path m
                        /\ v ∈ unassignedAfterPath cfg path)
     /\ (forall v, v ∈ unassignedVariablesAtExit info ->
           exists path, arrivesAt cfg _entry path m
                        /\ v ∈ afterNode cfg m (unassignedAfterPath cfg path))
     /\ (forall p, p ∈ uninitializedVariableAccesses info ->
           replaysUnassignedOnPath cfg _entry m p))
  /\ (forall m, m ∈ snd st -> exists path, arrivesAt cfg _entry path m).

(** The state of a node agrees with its own occurrences: the exit state is
    the replay of the entry state, and the reads that the entry state makes
    unassigned are flagged. *)
Definition replayed (cfg : gmap nat CFG.CFGNode) (m : nat) (info : NodeInfo)
  : Prop :=
  unassignedVariablesAtExit info
  = afterNode cfg m (unassignedVariablesAtEntry info)
  /\ forall i o,
       CFG.variableOccurrences (nodeAt cfg m) !! i = Some o ->
       readsVariable (CFG.kind o) ->
       CFG.id (CFG.declaration o)
       ∈ unassignedBefore (CFG.variableOccurrences (nodeAt cfg m))
           (unassignedVariablesAtEntry info) i ->
       (m, i) ∈ uninitializedVariableAccesses info.

(** The successor [e] has received what [info] holds. *)
Definition propagatedTo (nodeInfos : gmap nat NodeInfo) (info : NodeInfo)
    (e : nat) : Prop :=
  exists info', nodeInfos !! e = Some info'
                /\ unassignedVariablesAtExit info
                   ⊆ unassignedVariablesAtEntry info'
                /\ uninitializedVariableAccesses info
                   ⊆ uninitializedVariableAccesses info'.

(** Every node that has a state and does not wait to be traversed has been
    replayed and propagated to its successors. *)
Definition settled (cfg : gmap nat CFG.CFGNode)
    (st : gmap nat NodeInfo * gset nat) : Prop :=
  forall m info, fst st !! m = Some info -> m ∉ snd st ->
    replayed cfg m info
    /\ forall e, e ∈ CFG.exits (nodeAt cfg m) -> propagatedTo (fst st) info e.

(** The same in the middle of a round: the current node has been replayed,
    and propagated to the successors in [done]. *)
Definition settledButFor (cfg : gmap nat CFG.CFGNode) (currentNode : nat)
    (done : list nat) (st : gmap nat NodeInfo * gset nat) : Prop :=
  (forall m info, fst st !! m = Some info -> m ∉ snd st -> m <> currentNode ->
     replayed cfg m info
     /\ forall e, e ∈ CFG.exits (nodeAt cfg m) -> propagatedTo (fst st) info e)
  /\ exists info, fst st !! currentNode = Some info
                  /\ (currentNode ∉ snd st ->
                      replayed cfg currentNode info
                      /\ forall e, e ∈ done -> propagatedTo (fst st) info e).

(** The entry node has a state or waits to be traversed. *)
Definition entryKnown (_entry : nat) (st : gmap nat NodeInfo * gset nat)
  : Prop :=
  is_Some (fst st !! _entry) \/ _entry ∈ snd st.

(** *** Vocabulary of the driver *)

(** The three diagnostics of the analyser. *)
Definition analyzerDiagnostic (d : Diagnostic) : Prop :=
  (severity d = TypeError /\ errorId d = 3464)
  \/ (exists l name,
        d = mkDiagnostic Warning 6321 l [] (unassignedReturnMessage name))
  \/ (exists r, d = unreachableWarning r).

(** The ranges of the unreachable-code warnings among some diagnostics. *)
Definition unreachableRanges (diagnostics : list Diagnostic)
  : list SourceLocation :=
  location <$> filter (fun d => errorId d = 5740) diagnostics.

(** What a sequence of actions does to an analyser [a], ending in [a']: the
    reports of [a] are kept and only diagnostics of the analyser added; no
    range is warned about twice, nor one that [a] had warned about; the two
    sets only grow. *)
Definition reportsOnce (a a' : ControlFlowAnalyzer.t) : Prop :=
  exists added,
    ControlFlowAnalyzer.m_errorReporter a'
    = ControlFlowAnalyzer.m_errorReporter a ++ added
    /\ Forall analyzerDiagnostic added
    /\ NoDup (unreachableRanges added)
    /\ (forall r, r ∈ unreachableRanges added ->
          (r ∉ ControlFlowAnalyzer.m_unreachableLocationsAlreadyWarnedFor a)
          /\ r ∈ ControlFlowAnalyzer.m_unreachableLocationsAlreadyWarnedFor a')
    /\ ControlFlowAnalyzer.m_unassignedReturnVarsAlreadyWarnedFor a
       ⊆ ControlFlowAnalyzer.m_unassignedReturnVarsAlreadyWarnedFor a'
    /\ ControlFlowAnalyzer.m_unreachableLocationsAlreadyWarnedFor a
       ⊆ ControlFlowAnalyzer.m_unreachableLocationsAlreadyWarnedFor a'.



(** The variable of the occurrence is a storage or calldata pointer. *)
Definition pointerTyped (o : CFG.VariableOccurrence) : bool :=
  CFG.dataStoredIn (CFG.declaration o) Storage
  || CFG.dataStoredIn (CFG.declaration o) CallData.

(** The type error reported for a flagged occurrence of such a variable. *)
Definition uninitializedAccessError (o : CFG.VariableOccurrence) : Diagnostic :=
  let varDecl := CFG.declaration o in
  mkDiagnostic TypeError 3464
    (default (CFG.location varDecl) (CFG.occurrence o))
    (match CFG.occurrence o with
     | Some _ => [("The variable was declared here."%string,
                   CFG.location varDecl)]
     | None => []
     end)
    (uninitializedAccessMessage (CFG.dataStoredIn varDecl Storage)
       (CFG.kind o)).

(** *** Vocabulary of the further properties of the evaluator *)

(** The evaluation did not fail an assertion. *)
Definition neverAsserts {A : Type} (o : Outcome A) : Prop :=
  match o with
  | AssertionFailed _ => False
  | _ => True
  end.

(** The nodes [evaluate] is meant for: an expression, or the declaration of
    a constant. *)
Definition evaluable (declarations : gmap nat VariableDeclaration)
    (node : ASTNode) : Prop :=
  match node with
  | ExpressionNode _ => True
  | VariableDeclarationNode d =>
      exists varDecl, declarations !! d = Some varDecl
                      /\ isConstant varDecl = true
  end.

(** *** Cyclic definitions *)

(** [blocked declarations B e]: the expression [e] is one of the nodes [B],
    and its handler asks for the value of another node of [B] (an operand,
    the component of a parenthesised expression, or the constant an
    identifier refers to) before it can store a value. *)
Fixpoint blocked (declarations : gmap nat VariableDeclaration) (B : gset nat)
    (e : Expression) : bool :=
  bool_decide (expressionId e ∈ B)
  && match e with
     | BinaryOperation _ _ _ l r =>
         blocked declarations B l || blocked declarations B r
     | UnaryOperation _ _ _ sub => blocked declarations B sub
     | TupleExpression _ [inner] => blocked declarations B inner
     | Identifier _ (Some d) =>
         bool_decide (d ∈ B)
         && match declarations !! d with
            | Some varDecl => isConstant varDecl
            | None => false
            end
     | _ => false
     end.

(** Within [e], every node whose address is in [B] is blocked (no other
    node shares an address with a node of [B]). *)
Fixpoint consistent (declarations : gmap nat VariableDeclaration)
    (B : gset nat) (e : Expression) : bool :=
  (if bool_decide (expressionId e ∈ B) then blocked declarations B e else true)
  && match e with
     | BinaryOperation _ _ _ l r =>
         consistent declarations B l && consistent declarations B r
     | UnaryOperation _ _ _ sub => consistent declarations B sub
     | TupleExpression _ [inner] => consistent declarations B inner
     | _ => true
     end.

(** [B] is a set of nodes that wait for each other: every constant of [B]
    has a type and an initialiser that is blocked, and the initialisers of
    the program are consistent.  The constants on a cycle of definitions,
    with the nodes between each of them and its reference to the next, form
    such a set. *)
Definition cyclicDefinitions (declarations : gmap nat VariableDeclaration)
    (B : gset nat) : bool :=
  forallb
    (fun entry =>
       let varDecl := snd entry in
       (if bool_decide (fst entry ∈ B)
        then negb (isConstant varDecl)
             || match declValue varDecl, declType varDecl with
                | Some initializer, Some _ => blocked declarations B initializer
                | _, _ => false
                end
        else true)
       && match declValue varDecl with
          | Some initializer => consistent declarations B initializer
          | None => true
          end)
    (map_to_list declarations).

(** No node of [B] has a memoised value. *)
Definition notMemoised (B : gset nat) (s : ConstantEvaluator) : Prop :=
  forall k, k ∈ B -> m_values s !! k = None.

(** The nodes the main lemma speaks of, and which of them are blocked. *)
Definition consistentNode (declarations : gmap nat VariableDeclaration)
    (B : gset nat) (node : ASTNode) : Prop :=
  match node with
  | VariableDeclarationNode _ => True
  | ExpressionNode e => consistent declarations B e = true
  end.

Definition blockedNode (declarations : gmap nat VariableDeclaration)
    (B : gset nat) (node : ASTNode) : Prop :=
  match node with
  | VariableDeclarationNode d => d ∈ B
  | ExpressionNode e => blocked declarations B e = true
  end.

(** An evaluation returns only for a node that is not blocked, and then no
    node of [B] has been memoised. *)
Definition returnsUnblocked {A : Type} (B : gset nat) (isBlocked : Prop)
    (o : Outcome A) : Prop :=
  match o with
  | Returns _ s' => ~ isBlocked /\ notMemoised B s'
  | _ => True
  end.

(** [uint256 constant a = b + 1; uint256 constant b = 2 * a;]: the
    declarations at the addresses 1 and 2, the two operations at 10 and 20,
    the identifiers at 11 and 21, the literals at 12 and 22. *)
Definition cyclicSums : gmap nat VariableDeclaration :=
  <[1%nat := mkVariableDeclaration (mkLoc 0 28 (Some "c.sol")) true
               (Some (BinaryOperation 10 (mkLoc 21 26 (Some "c.sol")) Token.Add
                        (Identifier 11 (Some 2%nat))
                        (Literal 12
                           (Some (RationalNumberType (rational_of_bigint 1))))))
               (Some uint256)]>
  (<[2%nat := mkVariableDeclaration (mkLoc 30 58 (Some "c.sol")) true
                (Some (BinaryOperation 20 (mkLoc 51 56 (Some "c.sol")) Token.Mul
                         (Literal 22
                            (Some (RationalNumberType (rational_of_bigint 2))))
                         (Identifier 21 (Some 1%nat))))
                (Some uint256)]> ∅).

Definition cyclicSumsNodes : gset nat :=
  {[1%nat; 2%nat; 10%nat; 11%nat; 20%nat; 21%nat]}.

(** *** Typed values *)

(** The type and the value of a typed rational agree: a value of an integer
    type is an integer within the bounds of the type, and a value of a
    rational-number type is the constant of that type. *)
Definition wellTyped (v : TypedRational) : Prop :=
  match type v with
  | IntegerType minValue maxValue =>
      denominator (value v) = 1 /\ minValue <= numerator (value v) <= maxValue
  | RationalNumberType constant => value v = constant
  | OtherType _ => False
  end.

Definition wellTypedResult (v : option TypedRational) : Prop :=
  forall typed, v = Some typed -> wellTyped typed.

Definition wellTypedValues (s : ConstantEvaluator) : Prop :=
  forall k v, m_values s !! k = Some v -> wellTypedResult v.

(** What is returned and what is memoised stays well typed. *)
Definition keepsWellTyped {A : Type} (P : A -> Prop) (o : Outcome A) : Prop :=
  match o with
  | Returns a s' => P a /\ wellTypedValues s'
  | Fatal s' | AssertionFailed s' => wellTypedValues s'
  | OutOfFuel => True
  end.
(** ** Part II: properties *)

Lemma fitsPrecisionExp_abs (z e : Z) :
  fitsPrecisionExp (Z.abs z) e <> None.
Proof.
  unfold fitsPrecisionExp.
  destruct (Z.eqb_spec (Z.abs z) 0); [discriminate|].
  destruct (Z.ltb_spec 0 (Z.abs z)); simpl; [|lia].
  repeat match goal with |- context [if ?c then _ else _] => destruct c end;
    discriminate.
Qed.

(** *** Rationals in lowest terms *)

Lemma denominator_pos (r : rational) : 0 < denominator r.
Proof. unfold denominator. lia. Qed.

Lemma Qred_inject_Z (z : Z) : Qred (inject_Z z) = inject_Z z.
Proof. apply Qred_identity. simpl. apply Z.gcd_1_r. Qed.

Lemma rational_of_bigint_this (z : Z) : this (rational_of_bigint z) = inject_Z z.
Proof. apply Qred_inject_Z. Qed.

Lemma numerator_of_bigint (z : Z) : numerator (rational_of_bigint z) = z.
Proof. unfold numerator. now rewrite rational_of_bigint_this. Qed.

Lemma denominator_of_bigint (z : Z) : denominator (rational_of_bigint z) = 1.
Proof. unfold denominator. now rewrite rational_of_bigint_this. Qed.

(** A rational with denominator one is the image of its numerator. *)
Lemma integral_rational (r : rational) :
  denominator r = 1 -> r = rational_of_bigint (numerator r).
Proof.
  intros H. apply Qc_decomp. rewrite rational_of_bigint_this.
  destruct r as [[n d] Hc]; unfold denominator, numerator in *; simpl in *.
  unfold inject_Z. f_equal. lia.
Qed.

(** In lowest terms a zero numerator forces the denominator one. *)
Lemma numerator_zero (r : rational) : numerator r = 0 -> denominator r = 1.
Proof.
  destruct r as [[n d] Hc]; unfold denominator, numerator; simpl; intros ->.
  apply Qred_iff in Hc. simpl in Hc. rewrite Z.gcd_0_l in Hc. lia.
Qed.

Lemma rat_eq_int_true (r : rational) (i : Z) :
  rat_eq_int r i = true <-> r = rational_of_bigint i.
Proof.
  unfold rat_eq_int. rewrite andb_true_iff, !Z.eqb_eq. split.
  - intros [Hn Hd]. rewrite (integral_rational r Hd). now rewrite Hn.
  - intros ->. now rewrite numerator_of_bigint, denominator_of_bigint.
Qed.

Lemma rat_eq_int_false (r : rational) (i : Z) :
  rat_eq_int r i = false <-> r <> rational_of_bigint i.
Proof.
  rewrite <- rat_eq_int_true. destruct (rat_eq_int r i); split; congruence.
Qed.

Lemma rat_eqb_true (a b : rational) : rat_eqb a b = true <-> a = b.
Proof.
  unfold rat_eqb. rewrite andb_true_iff, !Z.eqb_eq. split.
  - intros [Hn Hd]. apply Qc_decomp.
    destruct a as [[na da] Ha], b as [[nb db] Hb].
    unfold numerator, denominator in *; simpl in *. f_equal; lia.
  - now intros ->.
Qed.

(** *** Division and modulo by zero *)

Lemma evaluateBinaryOperator_div_none fits (x y : rational) :
  evaluateBinaryOperator fits Token.Div x y = None <-> y = rational_of_bigint 0.
Proof.
  unfold evaluateBinaryOperator. rewrite <- rat_eqb_true.
  destruct (rat_eqb y (rational_of_bigint 0)); split; congruence.
Qed.

Lemma evaluateBinaryOperator_mod_none fits (x y : rational) :
  evaluateBinaryOperator fits Token.Mod x y = None <-> y = rational_of_bigint 0.
Proof.
  unfold evaluateBinaryOperator. rewrite <- rat_eqb_true.
  destruct (rat_eqb y (rational_of_bigint 0)); [split; congruence|].
  destruct (_ || _); split; congruence.
Qed.

(** C9. For every rational [x], dividing [x] by zero and taking [x] modulo
    zero both yield no value. *)
Theorem evaluateBinaryOperator_by_zero fits (x : rational) :
  evaluateBinaryOperator fits Token.Div x (rational_of_bigint 0) = None
  /\ evaluateBinaryOperator fits Token.Mod x (rational_of_bigint 0) = None.
Proof.
  split.
  - now apply evaluateBinaryOperator_div_none.
  - now apply evaluateBinaryOperator_mod_none.
Qed.

(** *** The precision guard of exponentiation *)

Lemma bitLength_pow_le (base exp : Z) :
  1 < base -> 0 <= exp ->
  bitLength (base ^ exp) <= Z.max 1 (exp * (Z.log2 base + 1)).
Proof.
  intros Hb He. unfold bitLength.
  destruct (Z.eq_dec exp 0) as [->|Hne].
  - rewrite Z.pow_0_r. simpl. lia.
  - assert (Hlt : base ^ exp < 2 ^ (exp * (Z.log2 base + 1))).
    { rewrite (Z.mul_comm exp), Z.pow_mul_r by (pose proof (Z.log2_nonneg base); lia).
      apply Z.pow_lt_mono_l; [lia|]. split; [lia|].
      destruct (Z.log2_spec base) as [_ H]; [lia|].
      now rewrite <- Z.add_1_r in H. }
    assert (0 < base ^ exp) by (apply Z.pow_pos_nonneg; lia).
    apply Z.log2_lt_pow2 in Hlt; lia.
Qed.

Lemma fitsPrecisionExp_eq (base exp : Z) :
  0 < base ->
  fitsPrecisionExp base exp
  = Some (if Z.log2 base =? 0 then true
          else if 4096 <? Z.log2 base then false
          else exp * (Z.log2 base + 1) <=? 4096).
Proof.
  intros Hb. unfold fitsPrecisionExp.
  destruct (Z.eqb_spec base 0); [lia|].
  destruct (Z.ltb_spec 0 base); [simpl|lia].
  now repeat match goal with |- context [if ?c then _ else _] => destruct c end.
Qed.

Lemma log2_zero_iff_one (base : Z) : 0 < base -> (Z.log2 base = 0 <-> base = 1).
Proof.
  intros Hb. split; [|now intros ->].
  intros H. destruct (Z.log2_spec base Hb) as [_ Hu]. rewrite H in Hu.
  simpl in Hu. lia.
Qed.

(** The estimate is conservative: [4 ** 1400 = 2 ** 2800] has 2801 bits and
    fits, yet the guard rejects it because [1400 * (2 + 1) > 4096].  So the
    guard does not accept every power that fits into 4096 bits. *)
Lemma fitsPrecisionExp_rejects_fitting_power :
  0 < 4 /\ 0 <= 1400
  /\ bitLength (4 ^ 1400) <= 4096
  /\ fitsPrecisionExp 4 1400 = Some false.
Proof. repeat split; try lia; vm_compute; congruence. Qed.

(** C4 (amended). For every base > 0 and exponent >= 0 the guard never
    answers true when [base ** exponent] needs more than 4096 bits (it may
    answer false although the power fits); with [msb] the index of the most
    significant set bit of the base it answers true for the bases 0 and 1,
    false when [msb > 4096], and otherwise true iff
    [exponent * (msb + 1) <= 4096]. *)
Theorem fitsPrecisionExp_sound (base exp : Z) :
  0 < base -> 0 <= exp ->
  (fitsPrecisionExp base exp = Some true -> bitLength (base ^ exp) <= 4096)
  /\ fitsPrecisionExp 0 exp = Some true
  /\ fitsPrecisionExp 1 exp = Some true
  /\ (4096 < Z.log2 base -> fitsPrecisionExp base exp = Some false)
  /\ (1 < base -> Z.log2 base <= 4096 ->
      fitsPrecisionExp base exp = Some (exp * (Z.log2 base + 1) <=? 4096)).
Proof.
  intros Hb He. pose proof (log2_zero_iff_one base Hb) as H1.
  rewrite (fitsPrecisionExp_eq base exp Hb).
  repeat split.
  - destruct (Z.eqb_spec (Z.log2 base) 0) as [H0|H0].
    + intros _. apply H1 in H0. subst base. rewrite Z.pow_1_l by lia.
      unfold bitLength. simpl. lia.
    + destruct (Z.ltb_spec 4096 (Z.log2 base)); [discriminate|].
      intros [= Hle]. apply Z.leb_le in Hle.
      assert (1 < base) by lia.
      pose proof (bitLength_pow_le base exp). lia.
  - intros Hm. destruct (Z.eqb_spec (Z.log2 base) 0); [lia|].
    destruct (Z.ltb_spec 4096 (Z.log2 base)); [reflexivity|lia].
  - intros Hgt Hm. destruct (Z.eqb_spec (Z.log2 base) 0); [lia|].
    destruct (Z.ltb_spec 4096 (Z.log2 base)); [lia|reflexivity].
Qed.

Lemma fitsPrecisionExp_sound_witness :
  (fitsPrecisionExp 3 5 = Some true -> bitLength (3 ^ 5) <= 4096)
  /\ fitsPrecisionExp 3 5 = Some true.
Proof.
  destruct (fitsPrecisionExp_sound 3 5) as (H & _ & _ & _ & Heq); [lia|lia|].
  split; [exact H|]. rewrite Heq; [reflexivity|lia|].
  change (Z.log2 3) with 1. lia.
Defined.

(** *** Exponentiation *)

Lemma land_1_parity (e : Z) : Z.land e 1 = if Z.even e then 0 else 1.
Proof.
  change 1 with (Z.ones 1) at 1. rewrite Z.land_ones by lia.
  change (2 ^ 1) with 2. rewrite Zmod_even. now destruct (Z.even e).
Qed.

Lemma optimizedPow_pow (b e : Z) : 0 <= e -> optimizedPow b e = b ^ e.
Proof.
  intros He. unfold optimizedPow.
  destruct (Z.eqb_spec b 1) as [->|_]; [now rewrite Z.pow_1_l|].
  destruct (Z.eqb_spec b (-1)) as [->|_]; [|reflexivity].
  rewrite land_1_parity. destruct (Z.even e) eqn:Hev.
  - apply Z.even_spec in Hev. destruct Hev as [k ->].
    rewrite Z.pow_mul_r by lia. change ((-1) ^ 2) with 1.
    now rewrite Z.pow_1_l by lia.
  - assert (Hodd : Z.odd e = true) by (rewrite <- Z.negb_even, Hev; reflexivity).
    apply Z.odd_spec in Hodd. destruct Hodd as [k ->].
    rewrite Z.pow_add_r, Z.pow_mul_r by lia. change ((-1) ^ 2) with 1.
    rewrite Z.pow_1_l by lia. reflexivity.
Qed.

Lemma makeRational_pos (n d : Z) :
  0 < d -> makeRational n d = Some (Q2Qc (inject_Z n / inject_Z d)).
Proof.
  intros Hd. destruct d as [|p|p]; try lia. simpl. f_equal.
  apply Q2Qc_eq_iff. unfold Qeq, Qdiv, Qmult, Qinv, inject_Z; simpl. lia.
Qed.

Lemma makeRational_nonzero (n d : Z) :
  d <> 0 -> makeRational n d = Some (Q2Qc (inject_Z n / inject_Z d)).
Proof.
  intros Hd. destruct d as [|p|p]; try lia.
  - apply makeRational_pos; lia.
  - simpl. f_equal. apply Q2Qc_eq_iff.
    unfold Qeq, Qdiv, Qmult, Qinv, inject_Z; simpl. lia.
Qed.

Lemma even_abs (e : Z) : Z.even (Z.abs e) = Z.even e.
Proof. destruct e; simpl; reflexivity. Qed.

Lemma guard_true (o : option bool) : guard o = true <-> o = Some true.
Proof. destruct o as [[]|]; simpl; split; congruence. Qed.

(** C5. Exponentiation [base ** exponent]: no value for a fractional
    exponent; 1 for the exponent 0; then the base itself for the bases 0 and
    1; then 1 or -1 by the parity of the exponent for the base -1, whatever
    the size of the exponent; otherwise no value when |exponent| exceeds
    [uint32::max] or the precision guard rejects the numerator or the
    denominator of the base, and else the fraction of the numerator and the
    denominator each raised to |exponent|, inverted for a negative
    exponent. *)
Theorem evaluateBinaryOperator_exp fits (base exponent : rational) :
  let result := evaluateBinaryOperator fits Token.Exp base exponent in
  let e := numerator exponent in
  let fitsBoth :=
    fitsPrecisionExp (Z.abs (numerator base)) (Z.abs e) = Some true
    /\ fitsPrecisionExp (Z.abs (denominator base)) (Z.abs e) = Some true in
  (denominator exponent <> 1 -> result = None)
  /\ (exponent = rational_of_bigint 0 -> result = Some (rational_of_bigint 1))
  /\ (denominator exponent = 1 -> e <> 0 ->
      (base = rational_of_bigint 0 \/ base = rational_of_bigint 1 ->
       result = Some base)
      /\ (base = rational_of_bigint (-1) ->
          result = Some (rational_of_bigint (if Z.even e then 1 else -1)))
      /\ (base <> rational_of_bigint 0 -> base <> rational_of_bigint 1 ->
          base <> rational_of_bigint (-1) ->
          (uint32_max < Z.abs e \/ ~ fitsBoth -> result = None)
          /\ (Z.abs e <= uint32_max -> fitsBoth ->
              result =
              Some (if 0 <=? e
                    then Q2Qc (inject_Z (numerator base ^ Z.abs e)
                               / inject_Z (denominator base ^ Z.abs e))
                    else Q2Qc (inject_Z (denominator base ^ Z.abs e)
                               / inject_Z (numerator base ^ Z.abs e)))))).
Proof.
  cbv zeta. unfold evaluateBinaryOperator.
  split; [|split].
  - intros Hd. now destruct (Z.eqb_spec (denominator exponent) 1).
  - intros ->. now rewrite denominator_of_bigint, numerator_of_bigint.
  - intros Hd He.
    destruct (Z.eqb_spec (denominator exponent) 1); [simpl|contradiction].
    destruct (Z.eqb_spec (numerator exponent) 0); [contradiction|].
    split; [|split].
    + intros [-> | ->]; [reflexivity|].
      replace (rat_eq_int (rational_of_bigint 1) 1) with true
        by (symmetry; now apply rat_eq_int_true).
      now rewrite orb_true_r.
    + intros ->.
      replace (rat_eq_int (rational_of_bigint (-1)) (-1)) with true
        by (symmetry; now apply rat_eq_int_true).
      simpl. rewrite land_1_parity, even_abs.
      now destruct (Z.even (numerator exponent)).
    + intros H0 H1 Hm1.
      apply rat_eq_int_false in H0, H1, Hm1. rewrite H0, H1, Hm1. simpl.
      split.
      * intros [Hbig | Hnf].
        { destruct (Z.ltb_spec uint32_max (Z.abs (numerator exponent)));
            [reflexivity|lia]. }
        destruct (_ <? _); [reflexivity|].
        destruct (guard (fitsPrecisionExp (Z.abs (numerator base)) _)) eqn:G1;
          [|reflexivity].
        destruct (guard (fitsPrecisionExp (Z.abs (denominator base)) _)) eqn:G2;
          [|reflexivity].
        exfalso. apply Hnf. now rewrite <- !guard_true.
      * intros Hsmall [F1 F2].
        destruct (Z.ltb_spec uint32_max (Z.abs (numerator exponent))); [lia|].
        apply guard_true in F1, F2. rewrite F1, F2. simpl.
        rewrite !optimizedPow_pow by lia.
        assert (Hn : numerator base <> 0).
        { intros Hz. apply rat_eq_int_false in H0. apply H0.
          apply rat_eq_int_true. unfold rat_eq_int.
          rewrite (numerator_zero base Hz), Hz. reflexivity. }
        pose proof (denominator_pos base).
        destruct (0 <=? numerator exponent).
        -- apply makeRational_pos. apply Z.pow_pos_nonneg; lia.
        -- apply makeRational_nonzero. apply Z.pow_nonzero; lia.
Qed.

Lemma evaluateBinaryOperator_exp_witness :
  evaluateBinaryOperator fitsPrecisionBaseX_spec Token.Exp
    (Q2Qc (2 # 3)) (rational_of_bigint (-3))
  = Some (Q2Qc (27 # 8)).
Proof.
  destruct (evaluateBinaryOperator_exp fitsPrecisionBaseX_spec
              (Q2Qc (2 # 3)) (rational_of_bigint (-3)))
    as (_ & _ & H).
  destruct H as (_ & _ & H); [reflexivity | vm_compute; congruence |].
  destruct H as (_ & H);
    [intros E; apply (f_equal this) in E; vm_compute in E; congruence ..|].
  rewrite H; [reflexivity | vm_compute; congruence | split; reflexivity].
Defined.

(** *** Shifts *)

Lemma shift_amount_valid (s : rational) :
  denominator s = 1 -> 0 <= numerator s <= uint32_max ->
  rat_lt_int s 0 = false /\ rat_gt_int s uint32_max = false.
Proof.
  intros Hd Hs. unfold rat_lt_int, rat_gt_int. rewrite Hd. split.
  - apply Z.ltb_ge. lia.
  - apply Z.ltb_ge. lia.
Qed.

(** C8. For an integral [x >= 0] and an integral shift amount [s] in
    [0, uint32::max]: when shifting [x] left by [s] yields a value, shifting
    that value right by [s] yields [x] again. *)
Theorem evaluateBinaryOperator_shl_sar fits (x s shifted : rational) :
  denominator x = 1 -> 0 <= numerator x ->
  denominator s = 1 -> 0 <= numerator s <= uint32_max ->
  evaluateBinaryOperator fits Token.SHL x s = Some shifted ->
  evaluateBinaryOperator fits Token.SAR shifted s = Some x.
Proof.
  intros Hdx Hx Hds Hs.
  destruct (shift_amount_valid s Hds Hs) as [Hlt Hgt].
  unfold evaluateBinaryOperator. rewrite Hlt, Hgt, Hdx, Hds.
  change (negb (1 =? 1) || negb (1 =? 1)) with false. cbv iota.
  destruct (Z.eqb_spec (numerator x) 0) as [Hz|Hnz].
  - intros E. injection E as E. subst shifted.
    rewrite denominator_of_bigint, numerator_of_bigint.
    change (negb (1 =? 1) || negb (1 =? 1)) with false.
    change (0 =? 0) with true. cbv iota.
    f_equal. rewrite (integral_rational x Hdx), Hz. reflexivity.
  - destruct (negb _); [discriminate|]. intros E. injection E as E.
    subst shifted. rewrite denominator_of_bigint, numerator_of_bigint.
    change (negb (1 =? 1) || negb (1 =? 1)) with false. cbv iota.
    assert (Hp : 0 < 2 ^ numerator s) by (apply Z.pow_pos_nonneg; lia).
    destruct (Z.eqb_spec (numerator x * 2 ^ numerator s) 0); [nia|].
    rewrite Z.abs_eq by nia.
    rewrite Z.log2_mul_pow2 by lia.
    pose proof (Z.log2_nonneg (numerator x)).
    destruct (Z.ltb_spec (numerator s + Z.log2 (numerator x)) (numerator s));
      [lia|].
    destruct (Z.ltb_spec (numerator x * 2 ^ numerator s) 0); [nia|].
    rewrite Z.quot_mul by lia. f_equal. symmetry. now apply integral_rational.
Qed.

Lemma evaluateBinaryOperator_shl_sar_witness :
  evaluateBinaryOperator fitsPrecisionBaseX_spec Token.SAR
    (rational_of_bigint 40) (rational_of_bigint 3)
  = Some (rational_of_bigint 5).
Proof.
  apply (evaluateBinaryOperator_shl_sar fitsPrecisionBaseX_spec
           (rational_of_bigint 5) (rational_of_bigint 3) (rational_of_bigint 40));
    [reflexivity | vm_compute; congruence | reflexivity
    | split; vm_compute; congruence | reflexivity].
Defined.

(** *** Conversion to a target type *)

Lemma rat_gt_int_spec (r : rational) (i : Z) :
  rat_gt_int r i = true <-> (inject_Z i < this r)%Q.
Proof.
  unfold rat_gt_int, Qlt, numerator, denominator. simpl.
  rewrite Z.ltb_lt. lia.
Qed.

Lemma rat_lt_int_spec (r : rational) (i : Z) :
  rat_lt_int r i = true <-> (this r < inject_Z i)%Q.
Proof.
  unfold rat_lt_int, Qlt, numerator, denominator. simpl.
  rewrite Z.ltb_lt. lia.
Qed.

Lemma convertType_integer (v : rational) (minValue maxValue : Z) :
  (withinBounds v minValue maxValue ->
   convertType v (IntegerType minValue maxValue)
   = Some (mkTypedRational (IntegerType minValue maxValue)
             (rational_of_bigint (Z.quot (numerator v) (denominator v)))))
  /\ (~ withinBounds v minValue maxValue ->
      convertType v (IntegerType minValue maxValue) = None).
Proof.
  unfold convertType, withinBounds.
  pose proof (rat_gt_int_spec v maxValue) as Hgt.
  pose proof (rat_lt_int_spec v minValue) as Hlt.
  destruct (rat_gt_int v maxValue), (rat_lt_int v minValue); simpl; split;
    try reflexivity; intros H.
  all: try (exfalso; destruct H as [H1 H2];
            first [ apply (Qlt_not_le _ _ (proj1 Hgt eq_refl) H2)
                  | apply (Qlt_not_le _ _ (proj1 Hlt eq_refl) H1) ]).
  exfalso. apply H. split; apply Qnot_lt_le; intros Hc.
  - apply Hlt in Hc. discriminate.
  - apply Hgt in Hc. discriminate.
Qed.

(** C7. [convertType] keeps the value for a rational-number target; for a
    bounded integer target it yields the truncated integer quotient exactly
    when the value lies within [[minValue, maxValue]] and nothing otherwise,
    so that an integer [n] converts to itself when it is within the bounds
    and to nothing when it is not; any other target yields nothing. *)
Theorem convertType_spec (v : rational) :
  (forall c, convertType v (RationalNumberType c)
             = Some (mkTypedRational (RationalNumberType v) v))
  /\ (forall minValue maxValue,
        (withinBounds v minValue maxValue ->
         convertType v (IntegerType minValue maxValue)
         = Some (mkTypedRational (IntegerType minValue maxValue)
                   (rational_of_bigint (Z.quot (numerator v) (denominator v)))))
        /\ (~ withinBounds v minValue maxValue ->
            convertType v (IntegerType minValue maxValue) = None))
  /\ (forall n minValue maxValue,
        (minValue <= n <= maxValue ->
         convertType (rational_of_bigint n) (IntegerType minValue maxValue)
         = Some (mkTypedRational (IntegerType minValue maxValue)
                   (rational_of_bigint n)))
        /\ (~ minValue <= n <= maxValue ->
            convertType (rational_of_bigint n) (IntegerType minValue maxValue)
            = None))
  /\ (forall tag, convertType v (OtherType tag) = None).
Proof.
  split; [reflexivity|]. split; [apply convertType_integer|].
  split; [|reflexivity].
  intros n minValue maxValue.
  destruct (convertType_integer (rational_of_bigint n) minValue maxValue)
    as [Hin Hout].
  assert (Hw : withinBounds (rational_of_bigint n) minValue maxValue
               <-> minValue <= n <= maxValue).
  { unfold withinBounds. rewrite rational_of_bigint_this, <- !Zle_Qle. tauto. }
  split.
  - intros Hn. rewrite Hin by now apply Hw.
    rewrite numerator_of_bigint, denominator_of_bigint, Z.quot_1_r. reflexivity.
  - intros Hn. apply Hout. now rewrite Hw.
Qed.

Lemma convertType_spec_witness :
  convertType (rational_of_bigint 200) (IntegerType 0 255)
  = Some (mkTypedRational (IntegerType 0 255) (rational_of_bigint 200))
  /\ convertType (rational_of_bigint 256) (IntegerType 0 255) = None.
Proof.
  destruct (convertType_spec (rational_of_bigint 0)) as (_ & _ & H & _).
  split.
  - apply (proj1 (H 200 0 255)). lia.
  - apply (proj2 (H 256 0 255)). lia.
Defined.

(** *** Depth-bounded evaluation of constant declarations *)

Lemma depthBounded_bind {A B : Type} (depth : nat) (m : Outcome A)
    (k : A -> ConstantEvaluator -> Outcome B) :
  depthBounded depth m ->
  (forall a s', m_depth s' = depth -> depthBounded depth (k a s')) ->
  depthBounded depth (bind m k).
Proof. destruct m; simpl; auto. Qed.

Lemma depthBounded_fatalTypeError {A : Type} id l msg (s : ConstantEvaluator) :
  depthBounded (A := A) (m_depth s) (fatalTypeError id l msg s).
Proof. simpl. lia. Qed.

Lemma declarationFuel_step (H depth : nat) :
  (depth < 32)%nat ->
  declarationFuel H depth = (S H + declarationFuel H (S depth))%nat.
Proof.
  intros Hd. unfold declarationFuel.
  replace (32 - depth)%nat with (S (32 - S depth)) by lia. lia.
Qed.

Lemma initialiserHeight_bound (declarations : gmap nat VariableDeclaration)
    d varDecl e :
  declarations !! d = Some varDecl -> declValue varDecl = Some e ->
  (height e <= initialiserHeight declarations)%nat.
Proof.
  intros Hd He. unfold initialiserHeight. apply max_list_elem_of_le.
  apply list_elem_of_fmap. exists (d, varDecl). simpl. rewrite He.
  split; [reflexivity|]. now apply elem_of_map_to_list.
Qed.

Lemma height_tuple_singleton id inner :
  height (TupleExpression id [inner]) = S (height inner).
Proof. simpl. now rewrite Nat.max_0_r. Qed.

(** What an evaluation does to the error reporter. *)
Lemma reportsOnlyWhenFatal_bind {A B : Type} (reported : list Diagnostic)
    (m : Outcome A) (k : A -> ConstantEvaluator -> Outcome B) :
  reportsOnlyWhenFatal reported m ->
  (forall a s', m_errorReporter s' = reported ->
                reportsOnlyWhenFatal reported (k a s')) ->
  reportsOnlyWhenFatal reported (bind m k).
Proof. destruct m; simpl; auto. Qed.

Lemma reportsOnlyWhenFatal_fatalTypeError {A : Type} id l msg
    (s : ConstantEvaluator) :
  id ∈ evaluatorErrorIds ->
  reportsOnlyWhenFatal (A := A) (m_errorReporter s) (fatalTypeError id l msg s).
Proof. intros Hid. simpl. now exists id, l, msg. Qed.

Lemma returnCached_reports id (s : ConstantEvaluator) :
  reportsOnlyWhenFatal (m_errorReporter s) (returnCached id s).
Proof. unfold returnCached. now destruct (m_values s !! id). Qed.

Section EvaluateProperties.

Variable fitsPrecisionBaseX : Z -> Q -> Z -> bool.
Variable unaryOperatorResult : SolType -> Token.t -> option SolType.
Variable binaryOperatorResult : SolType -> Token.t -> SolType -> option SolType.
Variable tokenToString : Token.t -> string.
Variable typeToString : SolType -> string.
Variable declarations : gmap nat VariableDeclaration.

Local Abbreviation eval :=
  (evaluate fitsPrecisionBaseX unaryOperatorResult binaryOperatorResult
     tokenToString typeToString declarations).
Local Abbreviation acceptWith :=
  (accept fitsPrecisionBaseX unaryOperatorResult binaryOperatorResult
     tokenToString typeToString declarations).
Local Abbreviation H := (initialiserHeight declarations).

Lemma returnCached_bounded id (s : ConstantEvaluator) :
  depthBounded (m_depth s) (returnCached id s).
Proof. unfold returnCached. now destruct (m_values s !! id). Qed.

(** The handlers keep the counter, provided the recursive calls they make
    (on nodes that need strictly less fuel) do. *)
Lemma accept_bounded rec (e : Expression) (s : ConstantEvaluator) :
  (forall n s', m_depth s' = m_depth s ->
      (nodeFuel H n (m_depth s) < nodeFuel H (ExpressionNode e) (m_depth s))%nat ->
      depthBounded (m_depth s) (rec n s')) ->
  depthBounded (m_depth s) (acceptWith rec e s).
Proof.
  intros Hrec. destruct e as [id l op a b|id l op sub|id t|id d|id cs|id];
    simpl in *.
  - unfold endVisit_BinaryOperation.
    apply depthBounded_bind; [apply Hrec; [reflexivity|simpl; lia]|].
    intros left s1 H1.
    apply depthBounded_bind; [apply Hrec; [assumption|simpl; lia]|].
    intros right s2 H2.
    destruct left as [lv|], right as [rv|]; simpl; try assumption.
    destruct (isCompareOp op); [assumption|].
    destruct (binaryOperatorResult _ _ _) as [resultType|];
      [|rewrite <- H2; apply depthBounded_fatalTypeError].
    destruct (convertType (value lv) resultType); [|assumption].
    destruct (convertType (value rv) resultType); [|assumption].
    destruct (evaluateBinaryOperator _ _ _ _); [|assumption].
    destruct (convertType _ _);
      [assumption|rewrite <- H2; apply depthBounded_fatalTypeError].
  - unfold endVisit_UnaryOperation.
    apply depthBounded_bind; [apply Hrec; [reflexivity|simpl; lia]|].
    intros v s1 H1. destruct v as [v|]; simpl; [|assumption].
    destruct (unaryOperatorResult _ _) as [resultType|]; [|assumption].
    destruct (convertType (value v) resultType); [|assumption].
    destruct (evaluateUnaryOperator _ _); [|assumption].
    destruct (convertType _ _);
      [assumption|rewrite <- H1; apply depthBounded_fatalTypeError].
  - unfold endVisit_Literal. now destruct t.
  - unfold endVisit_Identifier. destruct d as [d|]; simpl; [|reflexivity].
    destruct (declarations !! d) as [vd|]; simpl; [|reflexivity].
    destruct (isConstant vd); simpl; [|reflexivity].
    apply depthBounded_bind; [apply Hrec; [reflexivity|simpl; lia]|].
    intros v s1 H1. assumption.
  - unfold endVisit_TupleExpression.
    destruct cs as [|inner [|? ?]]; simpl; try reflexivity.
    apply depthBounded_bind.
    + apply Hrec; [reflexivity|].
      change (nodeFuel H (ExpressionNode inner) (m_depth s)
              < height (TupleExpression id [inner])
                + declarationFuel H (m_depth s))%nat.
      rewrite height_tuple_singleton. simpl. lia.
    + intros v s1 H1. assumption.
  - reflexivity.
Qed.

(** With the fuel of [nodeFuel] the evaluation of a node ends. *)
Lemma evaluate_bounded (fuel : nat) :
  forall (node : ASTNode) (s : ConstantEvaluator),
    (nodeFuel H node (m_depth s) <= fuel)%nat ->
    depthBounded (m_depth s) (eval fuel node s).
Proof.
  induction fuel as [|fuel IH]; intros node s Hfuel.
  - exfalso. destruct node; unfold nodeFuel, declarationFuel in Hfuel; nia.
  - simpl. unfold evaluate_body.
    destruct (m_values s !! nodeId node) as [cached|]; [reflexivity|].
    destruct node as [d|e].
    + destruct (declarations !! d) as [varDecl|] eqn:Hd;
        [|apply returnCached_bounded].
      destruct (isConstant varDecl); simpl; [|exact I].
      destruct (declValue varDecl) as [initializer|] eqn:Hv;
        [|apply (returnCached_bounded d (setValue d None s))].
      destruct (declType varDecl) as [t|];
        [|apply (returnCached_bounded d (setValue d None s))].
      destruct (Nat.ltb_spec 32 (S (m_depth s))) as [Hdeep|Hshallow].
      * simpl. lia.
      * pose proof (initialiserHeight_bound _ _ _ _ Hd Hv) as Hh.
        simpl in Hfuel. rewrite declarationFuel_step in Hfuel by lia.
        specialize (IH (ExpressionNode initializer) (setDepth (S (m_depth s)) s)).
        simpl in IH. specialize (IH ltac:(lia)).
        destruct (eval fuel (ExpressionNode initializer) _) as [v s'|s'|s'|];
          simpl in *; try assumption; try lia.
        unfold returnCached; simpl. rewrite lookup_insert_eq. simpl.
        rewrite IH. reflexivity.
    + apply depthBounded_bind.
      * apply accept_bounded. intros n s' Hs' Hlt.
        rewrite <- Hs'. apply IH. rewrite Hs'. lia.
      * intros [] s' Hs'.
        rewrite <- Hs'. destruct (m_values s' !! expressionId e).
        -- apply returnCached_bounded.
        -- apply (returnCached_bounded _ (setValue (expressionId e) None s')).
Qed.

Lemma accept_reports rec (e : Expression) (s : ConstantEvaluator) :
  (forall n s', m_errorReporter s' = m_errorReporter s ->
      reportsOnlyWhenFatal (m_errorReporter s) (rec n s')) ->
  reportsOnlyWhenFatal (m_errorReporter s) (acceptWith rec e s).
Proof.
  intros Hrec.
  assert (H3667 : 3667 ∈ evaluatorErrorIds) by (vm_compute; set_solver).
  assert (H2643 : 2643 ∈ evaluatorErrorIds) by (vm_compute; set_solver).
  assert (H6020 : 6020 ∈ evaluatorErrorIds) by (vm_compute; set_solver).
  destruct e as [id l op a b|id l op sub|id t|id d|id cs|id]; simpl in *.
  - unfold endVisit_BinaryOperation.
    apply reportsOnlyWhenFatal_bind; [now apply Hrec|].
    intros left s1 H1.
    apply reportsOnlyWhenFatal_bind; [now apply Hrec|].
    intros right s2 H2.
    destruct left as [lv|], right as [rv|]; simpl; try assumption.
    destruct (isCompareOp op); [assumption|].
    destruct (binaryOperatorResult _ _ _) as [resultType|];
      [|rewrite <- H2; now apply reportsOnlyWhenFatal_fatalTypeError].
    destruct (convertType (value lv) resultType); [|assumption].
    destruct (convertType (value rv) resultType); [|assumption].
    destruct (evaluateBinaryOperator _ _ _ _); [|assumption].
    destruct (convertType _ _);
      [assumption
      |rewrite <- H2; now apply reportsOnlyWhenFatal_fatalTypeError].
  - unfold endVisit_UnaryOperation.
    apply reportsOnlyWhenFatal_bind; [now apply Hrec|].
    intros v s1 H1. destruct v as [v|]; simpl; [|assumption].
    destruct (unaryOperatorResult _ _) as [resultType|]; [|assumption].
    destruct (convertType (value v) resultType); [|assumption].
    destruct (evaluateUnaryOperator _ _); [|assumption].
    destruct (convertType _ _);
      [assumption
      |rewrite <- H1; now apply reportsOnlyWhenFatal_fatalTypeError].
  - unfold endVisit_Literal. now destruct t.
  - unfold endVisit_Identifier. destruct d as [d|]; simpl; [|reflexivity].
    destruct (declarations !! d) as [vd|]; simpl; [|reflexivity].
    destruct (isConstant vd); simpl; [|reflexivity].
    apply reportsOnlyWhenFatal_bind; [now apply Hrec|].
    intros v s1 H1. assumption.
  - unfold endVisit_TupleExpression.
    destruct cs as [|inner [|? ?]]; simpl; try reflexivity.
    apply reportsOnlyWhenFatal_bind; [now apply Hrec|].
    intros v s1 H1. assumption.
  - reflexivity.
Qed.

Lemma evaluate_reports (fuel : nat) :
  forall (node : ASTNode) (s : ConstantEvaluator),
    reportsOnlyWhenFatal (m_errorReporter s) (eval fuel node s).
Proof.
  induction fuel as [|fuel IH]; intros node s; [exact I|].
  simpl. unfold evaluate_body.
  destruct (m_values s !! nodeId node) as [cached|]; [reflexivity|].
  destruct node as [d|e].
  - destruct (declarations !! d) as [varDecl|] eqn:Hd;
      [|apply returnCached_reports].
    destruct (isConstant varDecl); simpl; [|reflexivity].
    destruct (declValue varDecl) as [initializer|] eqn:Hv;
      [|apply (returnCached_reports d (setValue d None s))].
    destruct (declType varDecl) as [t|];
      [|apply (returnCached_reports d (setValue d None s))].
    destruct (Nat.ltb_spec 32 (S (m_depth s))) as [Hdeep|Hshallow].
    + apply (reportsOnlyWhenFatal_fatalTypeError 5210 _ _
               (setDepth (S (m_depth s)) s)).
      vm_compute; set_solver.
    + apply reportsOnlyWhenFatal_bind.
      * apply (IH _ (setDepth (S (m_depth s)) s)).
      * intros v s' Hs'. rewrite <- Hs'.
        apply (returnCached_reports d
                 (setDepth _ (setValue d (convertType_opt v t) s'))).
  - apply reportsOnlyWhenFatal_bind.
    + apply accept_reports. intros n s' Hs'. rewrite <- Hs'. apply IH.
    + intros [] s' Hs'. rewrite <- Hs'.
      destruct (m_values s' !! expressionId e).
      * apply returnCached_reports.
      * apply (returnCached_reports _ (setValue (expressionId e) None s')).
Qed.

(** The evaluation fails where the chain of calls drives the counter past
    32: the cyclic-definition error is reported for the constant at the end
    of the chain, and every call on the chain is abandoned with it. *)
Lemma evaluate_drivesCounterPast32 (fuel : nat) (node : ASTNode)
    (s : ConstantEvaluator) (last : VariableDeclaration)
    (s32 : ConstantEvaluator) :
  drivesCounterPast32 eval declarations fuel node s last s32 ->
  eval fuel node s
  = Fatal (mkEvaluator
             (m_errorReporter s32 ++ [cyclicDefinitionError (declLocation last)])
             (S (m_depth s32)) (m_values s32))
  /\ m_errorReporter s32 = m_errorReporter s
  /\ (32 <= m_depth s32)%nat.
Proof.
  induction 1 as [fuel d varDecl initializer s (Hd & Hc & Hv & [t Ht] & Hn) Hdeep
                 |fuel d varDecl initializer s last s32
                    (Hd & Hc & Hv & [t Ht] & Hn) Hshallow _ (IH & Hr & H32)
                 |fuel id d varDecl s last s32 Hn Hd Hc _ (IH & Hr & H32)
                 |fuel id loc op l r s last s32 Hn _ (IH & Hr & H32)
                 |fuel id loc op l r s v s1 last s32 Hn Hl _ (IH & Hr & H32)
                 |fuel id loc op sub s last s32 Hn _ (IH & Hr & H32)
                 |fuel id inner s last s32 Hn _ (IH & Hr & H32)].
  - split; [|split; [reflexivity|exact Hdeep]].
    cbn [evaluate]. unfold evaluate_body. cbn [nodeId].
    rewrite Hn, Hd, Hc. cbn [negb]. rewrite Hv, Ht. cbn [setDepth m_depth].
    destruct (Nat.ltb_spec 32 (S (m_depth s))); [reflexivity|lia].
  - split; [|split; [exact Hr|exact H32]].
    cbn [evaluate]. unfold evaluate_body. cbn [nodeId].
    rewrite Hn, Hd, Hc. cbn [negb]. rewrite Hv, Ht. cbn [setDepth m_depth].
    destruct (Nat.ltb_spec 32 (S (m_depth s))); [lia|].
    now rewrite IH.
  - split; [|split; [exact Hr|exact H32]].
    cbn [evaluate]. unfold evaluate_body. cbn [nodeId expressionId].
    rewrite Hn. cbn [accept]. unfold endVisit_Identifier.
    rewrite Hd, Hc, IH. reflexivity.
  - split; [|split; [exact Hr|exact H32]].
    cbn [evaluate]. unfold evaluate_body. cbn [nodeId expressionId].
    rewrite Hn. cbn [accept]. unfold endVisit_BinaryOperation.
    rewrite IH. reflexivity.
  - split; [|split; [|exact H32]].
    + cbn [evaluate]. unfold evaluate_body. cbn [nodeId expressionId].
      rewrite Hn. cbn [accept]. unfold endVisit_BinaryOperation.
      rewrite Hl. cbn [bind]. rewrite IH. reflexivity.
    + rewrite Hr. pose proof (evaluate_reports fuel (ExpressionNode l) s) as H0.
      rewrite Hl in H0. exact H0.
  - split; [|split; [exact Hr|exact H32]].
    cbn [evaluate]. unfold evaluate_body. cbn [nodeId expressionId].
    rewrite Hn. cbn [accept]. unfold endVisit_UnaryOperation.
    rewrite IH. reflexivity.
  - split; [|split; [exact Hr|exact H32]].
    cbn [evaluate]. unfold evaluate_body. cbn [nodeId expressionId].
    rewrite Hn. cbn [accept]. unfold endVisit_TupleExpression.
    rewrite IH. reflexivity.
Qed.

Lemma evaluate_declaration_step (fuel d : nat) varDecl initializer t
    (s : ConstantEvaluator) :
  declarations !! d = Some varDecl -> isConstant varDecl = true ->
  declValue varDecl = Some initializer -> declType varDecl = Some t ->
  m_values s !! d = None ->
  eval (S fuel) (VariableDeclarationNode d) s
  = if (32 <=? m_depth s)%nat then
      Fatal (mkEvaluator
               (m_errorReporter s
                ++ [cyclicDefinitionError (declLocation varDecl)])
               (S (m_depth s)) (m_values s))
    else
      bind (eval fuel (ExpressionNode initializer) (setDepth (S (m_depth s)) s))
        (fun v s' =>
           returnCached d
             (setDepth (pred (m_depth s')) (setValue d (convertType_opt v t) s'))).
Proof.
  intros Hd Hc Hv Ht Hn. cbn [evaluate]. unfold evaluate_body.
  cbn [nodeId]. rewrite Hn, Hd, Hc. cbn [negb]. rewrite Hv, Ht.
  cbn [setDepth m_depth].
  destruct (Nat.ltb_spec 32 (S (m_depth s))), (Nat.leb_spec 32 (m_depth s));
    try lia; reflexivity.
Qed.

(** A chain of not yet evaluated constants that is long enough to take the
    counter to 33 ends in the fatal error, reported at the declaration where
    the counter passes 32, with nothing memoised on the way. *)
Lemma evaluate_aliasChain (rest : list nat) :
  forall (d : nat) (s : ConstantEvaluator) (fuel : nat),
    aliasChain declarations (m_values s) (d :: rest) ->
    (m_depth s + length (d :: rest) = 33)%nat ->
    (2 * length (d :: rest) <= fuel)%nat ->
    eval fuel (VariableDeclarationNode d) s
    = Fatal (mkEvaluator
               (m_errorReporter s
                ++ [cyclicDefinitionError (chainEnd declarations (d :: rest))])
               33 (m_values s)).
Proof.
  induction rest as [|d' rest IH]; intros d s fuel Hchain Hdepth Hfuel.
  - destruct Hchain as (varDecl & initializer & t & Hd & Hc & Hv & Ht & Hn & _).
    simpl in Hdepth, Hfuel. destruct fuel as [|fuel]; [lia|].
    rewrite (evaluate_declaration_step _ _ _ _ _ _ Hd Hc Hv Ht Hn).
    replace (m_depth s) with 32%nat by lia.
    unfold chainEnd. simpl. now rewrite Hd.
  - destruct Hchain as (varDecl & initializer & t & Hd & Hc & Hv & Ht & Hn
                        & i & -> & Hi & Hrest).
    assert (Hlen : (m_depth s + length (d' :: rest) = 32)%nat)
      by (simpl in *; lia).
    destruct fuel as [|[|fuel]]; [simpl in Hfuel; lia ..|].
    rewrite (evaluate_declaration_step _ _ _ _ _ _ Hd Hc Hv Ht Hn).
    destruct (Nat.leb_spec 32 (m_depth s)); [simpl in Hlen; lia|].
    pose proof Hrest as (varDecl' & ? & ? & Hd' & Hc' & _).
    change (eval (S fuel) (ExpressionNode (Identifier i (Some d'))) ?s1)
      with (evaluate_body fitsPrecisionBaseX unaryOperatorResult
              binaryOperatorResult tokenToString typeToString declarations
              (eval fuel) (ExpressionNode (Identifier i (Some d'))) s1).
    unfold evaluate_body. simpl. rewrite Hi. unfold endVisit_Identifier.
    rewrite Hd', Hc'.
    rewrite (IH d' (setDepth (S (m_depth s)) s) fuel);
      [reflexivity | exact Hrest | simpl in *; lia | simpl in *; lia].
Qed.

End EvaluateProperties.

(** C6. Evaluating a constant declaration raises the depth counter before it
    descends into the initialiser and lowers it again when that returns; once
    the counter would pass 32 the fatal cyclic-definition error is reported
    and the evaluation abandoned.  So a chain of constants that reaches that
    depth, cyclic or only long, ends in that error: a chain of aliases, and
    as well any chain of calls that leads from the node evaluated, through
    initialisers, operands, parenthesised components and identifiers, to a
    constant entered with the counter at 32; every call on the chain is
    abandoned, and that one error is added to the reports.  And every
    evaluation ends: with the counter restored when it returns and never
    past 33 when it is abandoned. *)
Theorem evaluate_depth_bounded fitsPrecisionBaseX unaryOperatorResult
    binaryOperatorResult tokenToString typeToString
    (declarations : gmap nat VariableDeclaration) :
  let eval :=
    evaluate fitsPrecisionBaseX unaryOperatorResult binaryOperatorResult
      tokenToString typeToString declarations in
  (forall fuel d varDecl initializer t s,
      declarations !! d = Some varDecl -> isConstant varDecl = true ->
      declValue varDecl = Some initializer -> declType varDecl = Some t ->
      m_values s !! d = None ->
      eval (S fuel) (VariableDeclarationNode d) s
      = if (32 <=? m_depth s)%nat then
          Fatal (mkEvaluator
                   (m_errorReporter s
                    ++ [cyclicDefinitionError (declLocation varDecl)])
                   (S (m_depth s)) (m_values s))
        else
          bind (eval fuel (ExpressionNode initializer)
                  (setDepth (S (m_depth s)) s))
            (fun v s' =>
               returnCached d
                 (setDepth (pred (m_depth s'))
                    (setValue d (convertType_opt v t) s'))))
  /\ (forall d rest s fuel,
        aliasChain declarations (m_values s) (d :: rest) ->
        (m_depth s + length (d :: rest) = 33)%nat ->
        (2 * length (d :: rest) <= fuel)%nat ->
        eval fuel (VariableDeclarationNode d) s
        = Fatal (mkEvaluator
                   (m_errorReporter s
                    ++ [cyclicDefinitionError
                          (chainEnd declarations (d :: rest))])
                   33 (m_values s)))
  /\ (forall node s fuel,
        (m_depth s <= 32)%nat ->
        (nodeFuel (initialiserHeight declarations) node (m_depth s) <= fuel)%nat ->
        match eval fuel node s with
        | Returns _ s' => m_depth s' = m_depth s
        | Fatal s' => (m_depth s' <= 33)%nat
        | AssertionFailed _ => True
        | OutOfFuel => False
        end)
  /\ (forall fuel node s last s32,
        drivesCounterPast32 eval declarations fuel node s last s32 ->
        eval fuel node s
        = Fatal (mkEvaluator
                   (m_errorReporter s
                    ++ [cyclicDefinitionError (declLocation last)])
                   (S (m_depth s32)) (m_values s32))).
Proof.
  cbv zeta. split; [|split; [|split]].
  - intros. now apply evaluate_declaration_step.
  - intros. now apply evaluate_aliasChain.
  - intros node s fuel Hdepth Hfuel.
    pose proof (evaluate_bounded fitsPrecisionBaseX unaryOperatorResult
                  binaryOperatorResult tokenToString typeToString declarations
                  fuel node s Hfuel) as Hb.
    destruct (evaluate _ _ _ _ _ _ _ _ _); simpl in Hb; try assumption. lia.
  - intros fuel node s last s32 Hchain.
    destruct (evaluate_drivesCounterPast32 fitsPrecisionBaseX
                unaryOperatorResult binaryOperatorResult tokenToString
                typeToString declarations fuel node s last s32 Hchain)
      as (Hfatal & Hreports & _).
    now rewrite <- Hreports.
Qed.

(** Follows the chain of calls of an evaluation in a given state. *)
Ltac followChain :=
  first
    [ eapply past32_declaration;
      [repeat split; try reflexivity; eexists; reflexivity|simpl; lia]
    | eapply past32_initializer;
      [repeat split; try reflexivity; eexists; reflexivity|simpl; lia
      |followChain]
    | eapply past32_identifier;
      [reflexivity|reflexivity|reflexivity|followChain]
    | eapply past32_leftOperand; [reflexivity|followChain]
    | eapply past32_rightOperand;
      [reflexivity|vm_compute; reflexivity|followChain]
    | eapply past32_operand; [reflexivity|followChain]
    | eapply past32_component; [reflexivity|followChain] ].

Lemma evaluate_depth_bounded_witness :
  evaluate fitsPrecisionBaseX_spec sameTypeUnary sameTypeBinary printToken
    printType cyclicConstants 66 (VariableDeclarationNode 1) freshEvaluator
  = Fatal (mkEvaluator
             [cyclicDefinitionError (mkLoc 0 24 (Some "c.sol"))] 33 ∅)
  /\ evaluate fitsPrecisionBaseX_spec sameTypeUnary sameTypeBinary printToken
       printType cyclicSums 100 (VariableDeclarationNode 1) freshEvaluator
     = Fatal (mkEvaluator
                [cyclicDefinitionError (mkLoc 0 28 (Some "c.sol"))] 33
                (<[22%nat := constantToTypedValue
                               (RationalNumberType (rational_of_bigint 2))]> ∅)).
Proof.
  split.
  - destruct (evaluate_depth_bounded fitsPrecisionBaseX_spec sameTypeUnary
                sameTypeBinary printToken printType cyclicConstants)
      as (_ & Hchain & _).
    apply (Hchain 1%nat (unrollCycle 32 2 1) freshEvaluator 66%nat).
    + simpl.
      repeat (eexists _, _, _; repeat split; try reflexivity;
              try (eexists; repeat split; try reflexivity)).
    + reflexivity.
    + simpl. lia.
  - destruct (evaluate_depth_bounded fitsPrecisionBaseX_spec sameTypeUnary
                sameTypeBinary printToken printType cyclicSums)
      as (_ & _ & _ & Hcalls).
    eapply eq_trans; [eapply Hcalls; followChain|].
    vm_compute. reflexivity.
Defined.

(** A chain of 33 constants, without any cycle, is rejected in the same way,
    while a chain of 32 constants is evaluated, with the counter back at 0. *)
Example chain_of_33_is_rejected :
  evaluate fitsPrecisionBaseX_spec sameTypeUnary sameTypeBinary printToken
    printType (constantChain 32 1) 200 (VariableDeclarationNode 1)
    freshEvaluator
  = Fatal (mkEvaluator
             [cyclicDefinitionError (mkLoc 0 1 (Some "c.sol"))] 33 ∅).
Proof. vm_compute. reflexivity. Qed.

Example chain_of_32_is_evaluated :
  match evaluate fitsPrecisionBaseX_spec sameTypeUnary sameTypeBinary
          printToken printType (constantChain 31 1) 200
          (VariableDeclarationNode 1) freshEvaluator with
  | Returns (Some v) s =>
      type v = uint256 /\ this (value v) = inject_Z 7 /\ m_depth s = 0%nat
  | _ => False
  end.
Proof. vm_compute. repeat split. Qed.

(** *** Replay of the occurrences of a node *)

Lemma replay_app currentNode index l1 l2 st :
  replay currentNode index (l1 ++ l2) st
  = replay currentNode (index + length l1) l2 (replay currentNode index l1 st).
Proof.
  revert index st. induction l1 as [|o l1 IH]; intros index st; simpl.
  - now rewrite Nat.add_0_r.
  - rewrite IH. f_equal. lia.
Qed.

(** The unassigned set does not depend on the addresses nor on the accesses
    flagged so far. *)
Lemma replayOccurrence_fst p p' o U A A' :
  fst (replayOccurrence p o (U, A)) = fst (replayOccurrence p' o (U, A')).
Proof.
  unfold replayOccurrence; simpl.
  destruct (CFG.kind o); simpl; try reflexivity; now destruct (decide _).
Qed.

Lemma replay_fst n i n' i' l U A A' :
  fst (replay n i l (U, A)) = fst (replay n' i' l (U, A')).
Proof.
  revert i i' U A A'. induction l as [|o l IH]; intros i i' U A A'; simpl;
    [reflexivity|].
  pose proof (replayOccurrence_fst (n, i) (n', i') o U A A') as H.
  destruct (replayOccurrence (n, i) o (U, A)) as [U1 A1].
  destruct (replayOccurrence (n', i') o (U, A')) as [U2 A2].
  simpl in H. subst U2. apply IH.
Qed.

Lemma unassignedBefore_replay n index l U A :
  fst (replay n index l (U, A)) = unassignedBefore l U (length l).
Proof. unfold unassignedBefore. rewrite firstn_all. apply replay_fst. Qed.


(** Which addresses the replay of a node flags. *)
Lemma replay_flags n l :
  forall k U A p,
    p ∈ snd (replay n k l (U, A))
    <-> p ∈ A
        \/ exists i o, p = (n, (k + i)%nat) /\ l !! i = Some o
                       /\ readsVariable (CFG.kind o)
                       /\ CFG.id (CFG.declaration o) ∈ unassignedBefore l U i.
Proof.
  induction l as [|o l IH]; intros k U A p; simpl.
  - split; [auto|]. intros [H|(i & o & _ & H & _)]; [assumption|].
    now rewrite lookup_nil in H.
  - destruct (replayOccurrence (n, k) o (U, A)) as [U1 A1] eqn:E.
    rewrite IH. clear IH.
    assert (HA1 : p ∈ A1 <->
                  p ∈ A \/ (p = (n, k) /\ readsVariable (CFG.kind o)
                            /\ CFG.id (CFG.declaration o) ∈ U)).
    { unfold replayOccurrence, readsVariable in *. simpl in E.
      destruct (CFG.kind o); try destruct (decide _);
        injection E; intros <- <-;
        rewrite ?elem_of_union, ?elem_of_singleton; naive_solver. }
    assert (HU1 : forall i, unassignedBefore (o :: l) U (S i)
                            = unassignedBefore l U1 i).
    { intros i. unfold unassignedBefore. simpl.
      pose proof (replayOccurrence_fst (0%nat, 0%nat) (n, k) o U ∅ A) as H.
      rewrite E in H. simpl in H.
      destruct (replayOccurrence (0%nat, 0%nat) o (U, ∅)) as [U2 A2].
      simpl in H. subst U2. apply replay_fst. }
    split.
    + intros [HpA|(i & o' & -> & Hi & Hk & Hin)].
      * apply HA1 in HpA as [HpA|(-> & Hk & Hin)]; [now left|].
        right. exists 0%nat, o. rewrite Nat.add_0_r. repeat split; auto.
      * right. exists (S i), o'. rewrite HU1.
        repeat split; auto; f_equal; lia.
    + intros [HpA|(i & o' & -> & Hi & Hk & Hin)].
      * left. apply HA1. now left.
      * destruct i as [|i].
        -- simpl in Hi. injection Hi as <-. left. apply HA1. right.
           rewrite Nat.add_0_r. repeat split; auto.
        -- right. exists i, o'. rewrite <- HU1.
           repeat split; auto; f_equal; lia.
Qed.





(** *** Reporting the flagged accesses *)

Lemma emitted_app (a : ControlFlowAnalyzer.t) l w u :
  emitted a (ControlFlowAnalyzer.mk (ControlFlowAnalyzer.m_errorReporter a ++ l) w u)
  = l.
Proof. unfold emitted. simpl. now rewrite drop_app_length. Qed.

Lemma emitted_same (a : ControlFlowAnalyzer.t) : emitted a a = [].
Proof. unfold emitted. now rewrite drop_all. Qed.

(** The three cases of the loop body. *)
Lemma reportUninitializedAccess_cases _emptyBody _contractName o a :
  let varDecl := CFG.declaration o in
  let a' := reportUninitializedAccess _emptyBody _contractName o a in
  ((CFG.dataStoredIn varDecl Storage || CFG.dataStoredIn varDecl CallData) = true
   /\ a' = ControlFlowAnalyzer.mk
             (ControlFlowAnalyzer.m_errorReporter a
              ++ [mkDiagnostic TypeError 3464
                    (default (CFG.location varDecl) (CFG.occurrence o))
                    (match CFG.occurrence o with
                     | Some _ => [("The variable was declared here."%string,
                                   CFG.location varDecl)]
                     | None => []
                     end)
                    (uninitializedAccessMessage
                       (CFG.dataStoredIn varDecl Storage) (CFG.kind o))])
             (ControlFlowAnalyzer.m_unassignedReturnVarsAlreadyWarnedFor a)
             (ControlFlowAnalyzer.m_unreachableLocationsAlreadyWarnedFor a))
  \/ ((CFG.dataStoredIn varDecl Storage || CFG.dataStoredIn varDecl CallData) = false
      /\ _emptyBody = false /\ CFG.name varDecl = EmptyString
      /\ (CFG.id varDecl
           ∉ ControlFlowAnalyzer.m_unassignedReturnVarsAlreadyWarnedFor a)
      /\ a' = ControlFlowAnalyzer.mk
                (ControlFlowAnalyzer.m_errorReporter a
                 ++ [mkDiagnostic Warning 6321 (CFG.location varDecl) []
                       (unassignedReturnMessage _contractName)])
                ({[CFG.id varDecl]}
                 ∪ ControlFlowAnalyzer.m_unassignedReturnVarsAlreadyWarnedFor a)
                (ControlFlowAnalyzer.m_unreachableLocationsAlreadyWarnedFor a))
  \/ ((CFG.dataStoredIn varDecl Storage || CFG.dataStoredIn varDecl CallData) = false
      /\ (_emptyBody = true \/ CFG.name varDecl <> EmptyString
          \/ CFG.id varDecl
               ∈ ControlFlowAnalyzer.m_unassignedReturnVarsAlreadyWarnedFor a)
      /\ a' = a).
Proof.
  cbv zeta. unfold reportUninitializedAccess.
  destruct (_ || _) eqn:Hloc; [left; split; reflexivity|].
  right. destruct _emptyBody; simpl; [right; auto|].
  destruct (bool_decide_reflect (CFG.name (CFG.declaration o) = EmptyString))
    as [Hname|Hname]; simpl; [|right; auto].
  destruct (decide _) as [Hin|Hnin]; [right; auto|].
  left. repeat split; auto.
Qed.

(** The two sets of an analyser only grow. *)
Lemma perform_grows x a :
  ControlFlowAnalyzer.m_unassignedReturnVarsAlreadyWarnedFor a
    ⊆ ControlFlowAnalyzer.m_unassignedReturnVarsAlreadyWarnedFor (perform x a)
  /\ ControlFlowAnalyzer.m_unreachableLocationsAlreadyWarnedFor a
       ⊆ ControlFlowAnalyzer.m_unreachableLocationsAlreadyWarnedFor (perform x a).
Proof.
  destruct x as [e c o|l]; simpl.
  - destruct (reportUninitializedAccess_cases e c o a)
      as [(_ & ->)|[(_ & _ & _ & _ & ->)|(_ & _ & ->)]]; simpl;
      split; set_solver.
  - unfold reportUnreachable. destruct (decide _); simpl; split; set_solver.
Qed.

Lemma emitsId_report_access e c o a :
  emitsId 6321 a (reportUninitializedAccess e c o a) = true ->
  (CFG.id (CFG.declaration o)
     ∉ ControlFlowAnalyzer.m_unassignedReturnVarsAlreadyWarnedFor a)
  /\ (CFG.id (CFG.declaration o)
        ∈ ControlFlowAnalyzer.m_unassignedReturnVarsAlreadyWarnedFor
            (reportUninitializedAccess e c o a)).
Proof.
  unfold emitsId.
  destruct (reportUninitializedAccess_cases e c o a)
    as [(_ & ->)|[(_ & _ & _ & Hnin & ->)|(_ & _ & ->)]].
  - rewrite emitted_app. intros H. apply bool_decide_eq_true in H.
    simpl in H. set_solver.
  - intros _. split; [assumption|]. simpl. set_solver.
  - rewrite emitted_same. intros H. apply bool_decide_eq_true in H.
    simpl in H. set_solver.
Qed.

Lemma emitsId_report_unreachable l a :
  emitsId 5740 a (reportUnreachable l a) = true ->
  (l ∉ ControlFlowAnalyzer.m_unreachableLocationsAlreadyWarnedFor a)
  /\ (l ∈ ControlFlowAnalyzer.m_unreachableLocationsAlreadyWarnedFor
            (reportUnreachable l a)).
Proof.
  unfold emitsId, reportUnreachable. destruct (decide _) as [Hin|Hnin].
  - rewrite emitted_same. intros H. apply bool_decide_eq_true in H.
    simpl in H. set_solver.
  - intros _. split; [assumption|]. simpl. set_solver.
Qed.

(** Over any lifetime, the unassigned-return warning is emitted at most once
    for a declaration, and never for one already in the set. *)
Lemma warnedDeclarations_once (actions : list Action) :
  forall a,
    NoDup (warnedDeclarations actions a)
    /\ forall d,
         d ∈ ControlFlowAnalyzer.m_unassignedReturnVarsAlreadyWarnedFor a ->
         d ∉ warnedDeclarations actions a.
Proof.
  induction actions as [|x actions IH]; intros a; simpl.
  - split; [constructor|set_solver].
  - destruct (IH (perform x a)) as [Hnd Hfresh].
    destruct (perform_grows x a) as [Hgrow _].
    destruct x as [e c o|l]; simpl in *.
    + destruct (emitsId 6321 a (reportUninitializedAccess e c o a)) eqn:Hemit.
      * apply emitsId_report_access in Hemit as [Hnin Hin]. simpl. split.
        -- constructor; [now apply Hfresh|assumption].
        -- intros d Hd. rewrite elem_of_cons. intros [->|Hrest];
             [contradiction|]. apply (Hfresh d); [set_solver|assumption].
      * simpl. split; [assumption|]. intros d Hd. apply Hfresh. set_solver.
    + split; [assumption|]. intros d Hd. apply Hfresh. set_solver.
Qed.

(** Likewise a range is warned about as unreachable at most once, and never
    when it is in the set already. *)
Lemma warnedRanges_once (actions : list Action) :
  forall a,
    NoDup (warnedRanges actions a)
    /\ forall l,
         l ∈ ControlFlowAnalyzer.m_unreachableLocationsAlreadyWarnedFor a ->
         l ∉ warnedRanges actions a.
Proof.
  induction actions as [|x actions IH]; intros a; simpl.
  - split; [constructor|set_solver].
  - destruct (IH (perform x a)) as [Hnd Hfresh].
    destruct (perform_grows x a) as [_ Hgrow].
    destruct x as [e c o|l]; simpl in *.
    + split; [assumption|]. intros d Hd. apply Hfresh. set_solver.
    + destruct (emitsId 5740 a (reportUnreachable l a)) eqn:Hemit.
      * apply emitsId_report_unreachable in Hemit as [Hnin Hin]. simpl. split.
        -- constructor; [now apply Hfresh|assumption].
        -- intros d Hd. rewrite elem_of_cons. intros [->|Hrest];
             [contradiction|]. apply (Hfresh d); [set_solver|assumption].
      * simpl. split; [assumption|]. intros d Hd. apply Hfresh. set_solver.
Qed.

(** The flagged accesses of the exit node are reported in the order of the
    comparison: the vector is sorted and holds exactly the flagged
    occurrences. *)
Lemma uninitializedAccessesOrdered_sorted occurrenceBefore cfg exitInfo :
  (forall x y, occurrenceBefore x y = true -> occurrenceBefore y x = false) ->
  Sorted (inReportOrder occurrenceBefore)
    (uninitializedAccessesOrdered occurrenceBefore cfg exitInfo)
  /\ uninitializedAccessesOrdered occurrenceBefore cfg exitInfo
     ≡ₚ omap (occurrenceAt cfg)
          (elements (uninitializedVariableAccesses exitInfo)).
Proof.
  intros Hasym. unfold uninitializedAccessesOrdered. split.
  - assert (Total (inReportOrder occurrenceBefore)).
    { intros x y. unfold inReportOrder.
      destruct (occurrenceBefore y x) eqn:E; [right; now apply Hasym|now left]. }
    apply (Sorted_merge_sort (inReportOrder occurrenceBefore)).
  - apply merge_sort_Permutation.
Qed.

Lemma reportUninitializedAccesses_actions occurrenceBefore cfg _exit e c
    nodeInfos a :
  reportUninitializedAccesses occurrenceBefore cfg _exit e c nodeInfos a
  = foldl (fun a x => perform x a) a
      (ReportAccess e c
         <$> uninitializedAccessesOrdered occurrenceBefore cfg
               (default newNodeInfo (nodeInfos !! _exit))).
Proof.
  unfold reportUninitializedAccesses.
  generalize (uninitializedAccessesOrdered occurrenceBefore cfg
                (default newNodeInfo (nodeInfos !! _exit))).
  intros l. revert a. induction l as [|o l IH]; intros a; simpl; auto.
Qed.

(** A storage pointer returned without assignment, for an occurrence that
    has no location of its own (the implicit return at the end of the
    function): the error is reported at the declaration and carries no
    secondary note. *)
Lemma storage_error_without_note :
  CFG.dataStoredIn storagePointer Storage = true
  /\ ControlFlowAnalyzer.m_errorReporter
       (reportUninitializedAccess false None
          (CFG.mkVariableOccurrence VariableOccurrence.Return storagePointer None)
          freshAnalyzer)
     = [mkDiagnostic TypeError 3464 (inSource 10 20) []
          (uninitializedAccessMessage true VariableOccurrence.Return)].
Proof. split; reflexivity. Qed.

(** C1 (amended). The flagged accesses of the exit node are handled in the
    order of the comparison of occurrences.  For a variable of storage or
    calldata pointer type a type error is reported whose message says
    "returned" for a return and "accessed" otherwise; it is reported at the
    occurrence with a secondary note at the declaration when the occurrence
    has a location of its own, and at the declaration without a note when it
    has none.  Otherwise, in a non-empty body and for an unnamed variable, a
    warning is reported at the declaration, at most once per declaration
    over the lifetime of the analyser.  In all other cases nothing is
    reported. *)
Theorem reportUninitializedAccess_spec
    (occurrenceBefore : CFG.VariableOccurrence -> CFG.VariableOccurrence -> bool)
    (cfg : gmap nat CFG.CFGNode) :
  (forall _exit _emptyBody _contractName nodeInfos a,
      (forall x y, occurrenceBefore x y = true -> occurrenceBefore y x = false) ->
      let ordered :=
        uninitializedAccessesOrdered occurrenceBefore cfg
          (default newNodeInfo (nodeInfos !! _exit)) in
      Sorted (inReportOrder occurrenceBefore) ordered
      /\ ordered ≡ₚ omap (occurrenceAt cfg)
                      (elements (uninitializedVariableAccesses
                                   (default newNodeInfo (nodeInfos !! _exit))))
      /\ reportUninitializedAccesses occurrenceBefore cfg _exit _emptyBody
           _contractName nodeInfos a
         = foldl (fun a o =>
                    reportUninitializedAccess _emptyBody _contractName o a)
             a ordered)
  /\ (forall _emptyBody _contractName o a,
        let varDecl := CFG.declaration o in
        let isStorage := CFG.dataStoredIn varDecl Storage in
        let isCalldata := CFG.dataStoredIn varDecl CallData in
        let a' := reportUninitializedAccess _emptyBody _contractName o a in
        ((isStorage || isCalldata) = true ->
         emitted a a'
         = [mkDiagnostic TypeError 3464
              (default (CFG.location varDecl) (CFG.occurrence o))
              (match CFG.occurrence o with
               | Some _ => [("The variable was declared here."%string,
                             CFG.location varDecl)]
               | None => []
               end)
              ("This variable is of "
               ++ (if isStorage then "storage" else "calldata")
               ++ " pointer type and can be "
               ++ (if decide (CFG.kind o = VariableOccurrence.Return)
                   then "returned" else "accessed")
               ++ " without prior assignment, which would lead to undefined behaviour.")])
        /\ ((isStorage || isCalldata) = false ->
            _emptyBody = false -> CFG.name varDecl = EmptyString ->
            (CFG.id varDecl
               ∉ ControlFlowAnalyzer.m_unassignedReturnVarsAlreadyWarnedFor a) ->
            emitted a a'
            = [mkDiagnostic Warning 6321 (CFG.location varDecl) []
                 (unassignedReturnMessage _contractName)])
        /\ ((isStorage || isCalldata) = false ->
            _emptyBody = true \/ CFG.name varDecl <> EmptyString
            \/ (CFG.id varDecl
                  ∈ ControlFlowAnalyzer.m_unassignedReturnVarsAlreadyWarnedFor a) ->
            a' = a))
  /\ (forall actions a,
        NoDup (warnedDeclarations actions a)
        /\ forall d,
             d ∈ ControlFlowAnalyzer.m_unassignedReturnVarsAlreadyWarnedFor a ->
             d ∉ warnedDeclarations actions a).
Proof.
  split; [|split].
  - intros _exit e c nodeInfos a Hasym ordered.
    destruct (uninitializedAccessesOrdered_sorted occurrenceBefore cfg
                (default newNodeInfo (nodeInfos !! _exit)) Hasym) as [Hs Hp].
    repeat split; assumption || reflexivity.
  - intros e c o a varDecl isStorage isCalldata a'.
    destruct (reportUninitializedAccess_cases e c o a)
      as [(Hloc & Ha)|[(Hloc & He & Hn & Hnin & Ha)|(Hloc & Hor & Ha)]];
      fold varDecl isStorage isCalldata a' in Hloc, Ha.
    + split; [|split; intros; congruence].
      intros _. rewrite Ha, emitted_app. do 3 f_equal.
      unfold uninitializedAccessMessage. fold varDecl isStorage.
      now destruct (CFG.kind o).
    + split; [intros; congruence|]. split.
      * intros _ _ _ _. now rewrite Ha, emitted_app.
      * intros _ [?|[?|?]]; congruence || contradiction.
    + split; [intros; congruence|]. split.
      * intros _ ? ? ?. destruct Hor as [?|[?|?]]; congruence || contradiction.
      * intros _ _. exact Ha.
  - apply warnedDeclarations_once.
Qed.

Lemma byOccurrenceStart_asym x y :
  byOccurrenceStart x y = true -> byOccurrenceStart y x = false.
Proof.
  unfold byOccurrenceStart.
  destruct (CFG.occurrence x), (CFG.occurrence y); try congruence.
  rewrite Z.ltb_lt, Z.ltb_ge. lia.
Qed.

Lemma reportUninitializedAccess_spec_witness :
  Sorted (inReportOrder byOccurrenceStart)
    (uninitializedAccessesOrdered byOccurrenceStart storagePointerExample
       (mkNodeInfo ∅ ∅ {[(2%nat, 0%nat); (3%nat, 0%nat)]}))
  /\ emitted freshAnalyzer
       (reportUninitializedAccess false None
          (CFG.mkVariableOccurrence VariableOccurrence.Access storagePointer
             (Some (inSource 50 55)))
          freshAnalyzer)
     = [mkDiagnostic TypeError 3464 (inSource 50 55)
          [("The variable was declared here."%string, inSource 10 20)]
          "This variable is of storage pointer type and can be accessed without prior assignment, which would lead to undefined behaviour."].
Proof.
  destruct (reportUninitializedAccess_spec byOccurrenceStart
              storagePointerExample) as (Horder & Hcases & _).
  split.
  - destruct (Horder 3%nat false None
                (<[3%nat := mkNodeInfo ∅ ∅ {[(2%nat, 0%nat); (3%nat, 0%nat)]}]> ∅)
                freshAnalyzer byOccurrenceStart_asym) as (Hsorted & _).
    exact Hsorted.
  - apply (proj1 (Hcases false None
                    (CFG.mkVariableOccurrence VariableOccurrence.Access
                       storagePointer (Some (inSource 50 55)))
                    freshAnalyzer)).
    reflexivity.
Defined.

(** *** The flagged accesses that arrive at the exit node *)

Lemma foldr_min_elem (x : nat) (l : list nat) : foldr Nat.min x l ∈ x :: l.
Proof.
  induction l as [|y l IH]; simpl; [set_solver|].
  destruct (Nat.min_spec y (foldr Nat.min x l)) as [[_ ->]|[_ ->]];
    set_solver.
Qed.

Lemma firstAddress_elem (s : gset nat) (c : nat) :
  firstAddress s = Some c -> c ∈ s.
Proof.
  unfold firstAddress. destruct (elements s) as [|x l] eqn:E; [discriminate|].
  intros [= <-]. apply elem_of_elements. rewrite E. apply foldr_min_elem.
Qed.

Lemma firstAddress_none (s : gset nat) : firstAddress s = None -> s = ∅.
Proof.
  unfold firstAddress. destruct (elements s) as [|x l] eqn:E; [|discriminate].
  intros _. now apply elements_empty_inv in E; apply leibniz_equiv.
Qed.

Section Justified.

Variable cfg : gmap nat CFG.CFGNode.
Variable _entry : nat.

Lemma propagateTo_justified currentNode exit st :
  flagsJustified cfg _entry st ->
  reaches cfg _entry currentNode -> successor cfg currentNode exit ->
  flagsJustified cfg _entry (propagateTo currentNode exit st).
Proof.
  destruct st as [nodeInfos nodesToTraverse].
  intros [Hinfos Hwl] Hc He. simpl in *.
  assert (Hexit : reaches cfg _entry exit) by (eapply rtc_r; eassumption).
  assert (Hnew : forall info, <[exit := fst (propagateFrom
                    (default newNodeInfo (nodeInfos !! exit))
                    (default newNodeInfo (nodeInfos !! currentNode)))]>
                    nodeInfos !! exit = Some info ->
             forall p, p ∈ uninitializedVariableAccesses info ->
               reaches cfg _entry (fst p) /\ reaches cfg (fst p) exit
               /\ exists o, occurrenceAt cfg p = Some o
                            /\ readsVariable (CFG.kind o)).
  { intros info. rewrite lookup_insert_eq. intros [= <-] p.
    unfold propagateFrom. simpl. intros Hp.
    apply elem_of_union in Hp as [Hp|Hp].
    - destruct (nodeInfos !! exit) as [i|] eqn:Hi; simpl in Hp; [|set_solver].
      now apply (Hinfos exit i Hi).
    - destruct (nodeInfos !! currentNode) as [i|] eqn:Hi; simpl in Hp;
        [|set_solver].
      destruct (Hinfos currentNode i Hi) as [_ H]. destruct (H p Hp) as (?&?&?).
      repeat split; auto. eapply rtc_r; eassumption. }
  unfold propagateTo. cbn [fst snd].
  set (r := propagateFrom _ _) in *.
  assert (Hmap : forall m info, <[exit := fst r]> nodeInfos !! m = Some info ->
            reaches cfg _entry m
            /\ forall p, p ∈ uninitializedVariableAccesses info ->
                 reaches cfg _entry (fst p) /\ reaches cfg (fst p) m
                 /\ exists o, occurrenceAt cfg p = Some o
                              /\ readsVariable (CFG.kind o)).
  { intros m info Hm. destruct (decide (exit = m)) as [<-|Hne].
    - split; [assumption|]. now apply Hnew.
    - rewrite lookup_insert_ne in Hm by assumption. now apply Hinfos. }
  destruct (snd r || negb (bool_decide (is_Some (nodeInfos !! exit))));
    (split; cbn [fst snd]; [exact Hmap|]); [|exact Hwl].
  intros m Hm. apply elem_of_union in Hm as [Hm|Hm]; [|now apply Hwl].
  apply elem_of_singleton in Hm as ->. assumption.
Qed.

Lemma propagateTo_fold_justified currentNode exits st :
  flagsJustified cfg _entry st ->
  reaches cfg _entry currentNode ->
  (forall e, e ∈ exits -> successor cfg currentNode e) ->
  flagsJustified cfg _entry
    (foldl (fun st exit => propagateTo currentNode exit st) st exits).
Proof.
  revert st. induction exits as [|e exits IH]; intros st Hst Hc He; simpl;
    [assumption|].
  apply IH; [|assumption|intros e' He'; apply He; set_solver].
  apply propagateTo_justified; [assumption..|apply He; set_solver].
Qed.

Lemma traverseStep_justified st st' :
  flagsJustified cfg _entry st -> traverseStep cfg st = Some st' ->
  flagsJustified cfg _entry st'.
Proof.
  destruct st as [nodeInfos nodesToTraverse]. intros [Hinfos Hwl].
  unfold traverseStep. simpl.
  destruct (firstAddress nodesToTraverse) as [c|] eqn:Hfirst; [|discriminate].
  intros [= <-]. apply firstAddress_elem in Hfirst.
  assert (Hc : reaches cfg _entry c) by now apply Hwl.
  apply propagateTo_fold_justified; [|assumption|intros e He; exact He].
  split; simpl.
  - intros m info Hm. destruct (decide (c = m)) as [<-|Hne].
    + rewrite lookup_insert_eq in Hm. injection Hm as <-. simpl.
      split; [assumption|]. intros p Hp. apply replay_flags in Hp.
      destruct Hp as [Hp|(i & o & -> & Hi & Hk & _)].
      * destruct (nodeInfos !! c) as [info|] eqn:Hinfo; simpl in Hp;
          [|set_solver].
        now apply (Hinfos c info Hinfo).
      * simpl. repeat split; [assumption|apply rtc_refl|].
        exists o. split; [exact Hi|exact Hk].
    + rewrite lookup_insert_ne in Hm by assumption. now apply Hinfos.
  - intros m Hm. apply Hwl. set_solver.
Qed.

Lemma traverse_justified fuel st nodeInfos :
  flagsJustified cfg _entry st -> traverse cfg fuel st = Some nodeInfos ->
  flagsJustified cfg _entry (nodeInfos, ∅).
Proof.
  revert st. induction fuel as [|fuel IH]; intros st Hst; simpl;
    [discriminate|].
  destruct (traverseStep cfg st) as [st'|] eqn:Hstep.
  - apply IH. eapply traverseStep_justified; eassumption.
  - intros [= <-]. destruct Hst as [Hinfos _]. split; [exact Hinfos|].
    simpl. set_solver.
Qed.

Lemma initial_justified : flagsJustified cfg _entry (∅, {[_entry]}).
Proof.
  split; simpl.
  - intros m info. now rewrite lookup_empty.
  - intros m Hm. apply elem_of_singleton in Hm as ->. apply rtc_refl.
Qed.

End Justified.

(** *** Termination of the traversal *)

Lemma sum_list_cons' (x : nat) (l : list nat) :
  sum_list (x :: l) = (x + sum_list l)%nat.
Proof. reflexivity. Qed.

Lemma sum_list_fmap_le (f g : nat -> nat) (l : list nat) :
  (forall m, m ∈ l -> (g m <= f m)%nat) ->
  (sum_list (g <$> l) <= sum_list (f <$> l))%nat.
Proof.
  induction l as [|x l IH]; intros H; [simpl; lia|].
  assert (g x <= f x)%nat by (apply H; set_solver).
  assert (sum_list (g <$> l) <= sum_list (f <$> l))%nat
    by (apply IH; intros; apply H; set_solver).
  rewrite !fmap_cons, !sum_list_cons'. lia.
Qed.

Lemma sum_list_fmap_lt (f g : nat -> nat) (l : list nat) (e d : nat) :
  e ∈ l -> (forall m, m ∈ l -> (g m <= f m)%nat) -> (g e + d <= f e)%nat ->
  (sum_list (g <$> l) + d <= sum_list (f <$> l))%nat.
Proof.
  induction l as [|x l IH]; intros He H Hd; [set_solver|].
  assert (Hl : (sum_list (g <$> l) <= sum_list (f <$> l))%nat)
    by (apply sum_list_fmap_le; intros; apply H; set_solver).
  rewrite !fmap_cons, !sum_list_cons'.
  apply elem_of_cons in He as [->|He].
  - lia.
  - assert (g x <= f x)%nat by (apply H; set_solver).
    assert (sum_list (g <$> l) + d <= sum_list (f <$> l))%nat
      by (apply IH; auto; intros; apply H; set_solver).
    lia.
Qed.

Lemma elem_of_concat {A : Type} (x : A) (ls : list (list A)) :
  x ∈ concat ls <-> exists l, x ∈ l /\ l ∈ ls.
Proof.
  rewrite list_elem_of_In, in_concat. split.
  - intros (l & Hl & Hx). exists l. now rewrite !list_elem_of_In.
  - intros (l & Hx & Hl). exists l. now rewrite <- !list_elem_of_In.
Qed.

Lemma replay_variables n k l U A v :
  v ∈ fst (replay n k l (U, A)) ->
  v ∈ U \/ exists o, o ∈ l /\ CFG.id (CFG.declaration o) = v.
Proof.
  revert k U A. induction l as [|o l IH]; intros k U A; simpl; [auto|].
  destruct (replayOccurrence (n, k) o (U, A)) as [U1 A1] eqn:E.
  intros Hv. apply IH in Hv as [Hv|(o' & Ho' & <-)].
  - unfold replayOccurrence in E. simpl in E.
    destruct (CFG.kind o); try destruct (decide _); injection E; intros <- <-;
      try (left; assumption); try (left; set_solver).
    apply elem_of_union in Hv as [Hv|Hv]; [|now left].
    apply elem_of_singleton in Hv. right. exists o. split; [set_solver|auto].
  - right. exists o'. split; [set_solver|reflexivity].
Qed.

Section Termination.

Variable cfg : gmap nat CFG.CFGNode.
Variable _entry : nat.

Lemma successor_allNodes c e : successor cfg c e -> e ∈ allNodes cfg _entry.
Proof.
  unfold successor, nodeAt, allNodes. intros He.
  destruct (cfg !! c) as [node|] eqn:Hc; simpl in He; [|set_solver].
  apply elem_of_union_r, elem_of_list_to_set, elem_of_concat.
  exists (CFG.exits node). split; [assumption|].
  apply list_elem_of_fmap. exists (c, node). split; [reflexivity|].
  now apply elem_of_map_to_list.
Qed.

Lemma occurrence_allVariables c o :
  o ∈ CFG.variableOccurrences (nodeAt cfg c) ->
  CFG.id (CFG.declaration o) ∈ allVariables cfg.
Proof.
  unfold nodeAt, allVariables. intros Ho.
  destruct (cfg !! c) as [node|] eqn:Hc; simpl in Ho; [|set_solver].
  apply elem_of_list_to_set, elem_of_concat.
  exists ((fun o => CFG.id (CFG.declaration o)) <$> CFG.variableOccurrences node).
  split.
  - apply list_elem_of_fmap. exists o. split; [reflexivity|assumption].
  - apply list_elem_of_fmap. exists (c, node). split; [reflexivity|].
    now apply elem_of_map_to_list.
Qed.

Lemma occurrence_allOccurrences c i o :
  CFG.variableOccurrences (nodeAt cfg c) !! i = Some o ->
  (c, i) ∈ allOccurrences cfg.
Proof.
  unfold nodeAt, allOccurrences. intros Ho.
  destruct (cfg !! c) as [node|] eqn:Hc; simpl in Ho;
    [|now rewrite lookup_nil in Ho].
  apply elem_of_list_to_set, elem_of_concat.
  exists ((fun i => (c, i)) <$> seq 0 (length (CFG.variableOccurrences node))).
  split.
  - apply list_elem_of_fmap. exists i. split; [reflexivity|].
    apply elem_of_seq. apply lookup_lt_Some in Ho. lia.
  - apply list_elem_of_fmap. exists (c, node). split; [reflexivity|].
    now apply elem_of_map_to_list.
Qed.

Lemma replay_withinGraph c U A :
  U ⊆ allVariables cfg -> A ⊆ allOccurrences cfg ->
  let r := replay c 0 (CFG.variableOccurrences (nodeAt cfg c)) (U, A) in
  fst r ⊆ allVariables cfg /\ snd r ⊆ allOccurrences cfg /\ A ⊆ snd r.
Proof.
  intros HU HA r. repeat split.
  - intros v Hv. apply replay_variables in Hv as [Hv|(o & Ho & <-)];
      [now apply HU|]. eapply occurrence_allVariables; eassumption.
  - intros p Hp. apply replay_flags in Hp as [Hp|(i & o & -> & Hi & _)];
      [now apply HA|]. eapply occurrence_allOccurrences; eassumption.
  - intros p Hp. apply replay_flags. now left.
Qed.

Lemma withinGraph_default st m :
  withinGraph cfg _entry st ->
  let info := default newNodeInfo (fst st !! m) in
  unassignedVariablesAtEntry info ⊆ allVariables cfg
  /\ unassignedVariablesAtExit info ⊆ allVariables cfg
  /\ uninitializedVariableAccesses info ⊆ allOccurrences cfg.
Proof.
  intros [_ H]. destruct (fst st !! m) as [info|] eqn:E; simpl.
  - now apply (H m).
  - repeat split; set_solver.
Qed.

Lemma nodePotential_insert_ne nodeInfos e info m :
  m <> e ->
  nodePotential cfg (<[e := info]> nodeInfos) m = nodePotential cfg nodeInfos m.
Proof. intros Hne. unfold nodePotential. now rewrite lookup_insert_ne. Qed.

Lemma size_insert_le (e : nat) (s : gset nat) :
  (size ({[e]} ∪ s) <= S (size s))%nat.
Proof.
  rewrite size_union_alt, size_singleton.
  assert (size (s ∖ {[e]}) <= size s)%nat by (apply subseteq_size; set_solver).
  lia.
Qed.

(** Propagation into a successor does not raise the measure: a node is only
    added to the set to traverse when it has gained something. *)
Lemma propagateTo_potential currentNode exit st :
  withinGraph cfg _entry st -> successor cfg currentNode exit ->
  withinGraph cfg _entry (propagateTo currentNode exit st)
  /\ (traversePotential cfg _entry (propagateTo currentNode exit st)
      <= traversePotential cfg _entry st)%nat.
Proof.
  intros Hst Hsucc.
  destruct (withinGraph_default st exit Hst) as (HEe & HEx & HEa).
  destruct (withinGraph_default st currentNode Hst) as (HCe & HCx & HCa).
  destruct st as [nodeInfos nodesToTraverse]. destruct Hst as [Hwl Hinfos].
  cbn [fst snd] in *.
  pose proof (successor_allNodes _ _ Hsucc) as HeN.
  unfold propagateTo. cbn [fst snd].
  set (E := default newNodeInfo (nodeInfos !! exit)) in *.
  set (C := default newNodeInfo (nodeInfos !! currentNode)) in *.
  unfold propagateFrom. cbn [fst snd].
  set (entry' := unassignedVariablesAtEntry E ∪ unassignedVariablesAtExit C).
  set (acc' := uninitializedVariableAccesses E ∪ uninitializedVariableAccesses C).
  set (info' := mkNodeInfo entry' (unassignedVariablesAtExit E) acc').
  assert (He' : entry' ⊆ allVariables cfg) by (unfold entry'; set_solver).
  assert (Ha' : acc' ⊆ allOccurrences cfg) by (unfold acc'; set_solver).
  assert (Hse : (size (unassignedVariablesAtEntry E) <= size entry')%nat)
    by (apply subseteq_size; unfold entry'; set_solver).
  assert (Hsa : (size (uninitializedVariableAccesses E) <= size acc')%nat)
    by (apply subseteq_size; unfold acc'; set_solver).
  pose proof (subseteq_size _ _ He') as HeV.
  pose proof (subseteq_size _ _ Ha') as HaO.
  assert (Hinfos' : forall m info, <[exit := info']> nodeInfos !! m = Some info ->
            unassignedVariablesAtEntry info ⊆ allVariables cfg
            /\ unassignedVariablesAtExit info ⊆ allVariables cfg
            /\ uninitializedVariableAccesses info ⊆ allOccurrences cfg).
  { intros m info. destruct (decide (exit = m)) as [<-|Hne].
    - rewrite lookup_insert_eq. intros [= <-]. simpl. auto.
    - rewrite lookup_insert_ne by assumption. apply Hinfos. }
  assert (Hle : forall m, (nodePotential cfg (<[exit := info']> nodeInfos) m
                           <= nodePotential cfg nodeInfos m)%nat).
  { intros m. destruct (decide (m = exit)) as [->|Hne];
      [|now rewrite nodePotential_insert_ne].
    unfold nodePotential. rewrite lookup_insert_eq. simpl. subst E.
    destruct (nodeInfos !! exit); simpl in *; lia. }
  set (pushed := _ || negb _).
  assert (Hpushed : pushed = true ->
            (nodePotential cfg (<[exit := info']> nodeInfos) exit + 1
             <= nodePotential cfg nodeInfos exit)%nat).
  { unfold pushed, nodePotential. rewrite lookup_insert_eq. simpl. subst E.
    destruct (nodeInfos !! exit); simpl in *.
    - rewrite orb_false_r, orb_true_iff, !Nat.ltb_lt. lia.
    - lia. }
  unfold traversePotential.
  destruct pushed; cbn [fst snd].
  - split; [split; [set_solver|exact Hinfos']|].
    pose proof (size_insert_le exit nodesToTraverse).
    assert ((sum_list (nodePotential cfg (<[exit := info']> nodeInfos)
                         <$> elements (allNodes cfg _entry)) + 1
             <= sum_list (nodePotential cfg nodeInfos
                            <$> elements (allNodes cfg _entry)))%nat).
    { apply (sum_list_fmap_lt _ _ _ exit);
        [now apply elem_of_elements|auto|auto]. }
    lia.
  - split; [split; [assumption|exact Hinfos']|].
    assert ((sum_list (nodePotential cfg (<[exit := info']> nodeInfos)
                         <$> elements (allNodes cfg _entry))
             <= sum_list (nodePotential cfg nodeInfos
                            <$> elements (allNodes cfg _entry)))%nat)
      by (apply sum_list_fmap_le; auto).
    lia.
Qed.

Lemma propagateTo_fold_potential currentNode exits st :
  withinGraph cfg _entry st ->
  (forall e, e ∈ exits -> successor cfg currentNode e) ->
  let st' := foldl (fun st exit => propagateTo currentNode exit st) st exits in
  withinGraph cfg _entry st'
  /\ (traversePotential cfg _entry st' <= traversePotential cfg _entry st)%nat.
Proof.
  revert st. induction exits as [|e exits IH]; intros st Hst He; simpl;
    [split; [assumption|lia]|].
  destruct (propagateTo_potential currentNode e st Hst) as [Hw Hp];
    [apply He; set_solver|].
  destruct (IH (propagateTo currentNode e st) Hw) as [Hw' Hp'];
    [intros e' He'; apply He; set_solver|].
  split; [exact Hw'|]. simpl in Hp'. lia.
Qed.

(** Every round of the loop lowers the measure. *)
Lemma traverseStep_potential st st' :
  withinGraph cfg _entry st -> traverseStep cfg st = Some st' ->
  withinGraph cfg _entry st'
  /\ (traversePotential cfg _entry st' < traversePotential cfg _entry st)%nat.
Proof.
  intros Hst.
  destruct st as [nodeInfos nodesToTraverse]. unfold traverseStep.
  cbn [fst snd].
  destruct (firstAddress nodesToTraverse) as [c|] eqn:Hfirst; [|discriminate].
  intros [= <-]. apply firstAddress_elem in Hfirst.
  destruct (withinGraph_default _ c Hst) as (HCe & HCx & HCa).
  destruct Hst as [Hwl Hinfos]. cbn [fst snd] in *.
  set (I := default newNodeInfo (nodeInfos !! c)) in *.
  destruct (replay_withinGraph c _ _ HCe HCa) as (Hr1 & Hr2 & Hr3).
  set (r := replay c 0 (CFG.variableOccurrences (nodeAt cfg c))
              (unassignedVariablesAtEntry I, uninitializedVariableAccesses I))
    in *.
  set (info1 := mkNodeInfo (unassignedVariablesAtEntry I) (fst r) (snd r)).
  set (st1 := (<[c := info1]> nodeInfos, nodesToTraverse ∖ {[c]})).
  assert (Hst1 : withinGraph cfg _entry st1).
  { unfold st1. split; cbn [fst snd]; [set_solver|].
    intros m info. destruct (decide (c = m)) as [<-|Hne].
    - rewrite lookup_insert_eq. intros [= <-]. simpl. auto.
    - rewrite lookup_insert_ne by assumption. apply Hinfos. }
  assert (Hp1 : (traversePotential cfg _entry st1 + 1
                 <= traversePotential cfg _entry (nodeInfos, nodesToTraverse))%nat).
  { unfold traversePotential, st1. cbn [fst snd].
    rewrite size_difference by set_solver. rewrite size_singleton.
    assert (0 < size nodesToTraverse)%nat.
    { destruct (size nodesToTraverse) eqn:Hsz; [|lia].
      apply size_empty_inv in Hsz. set_solver. }
    assert ((sum_list (nodePotential cfg (<[c := info1]> nodeInfos)
                         <$> elements (allNodes cfg _entry))
             <= sum_list (nodePotential cfg nodeInfos
                            <$> elements (allNodes cfg _entry)))%nat).
    { apply sum_list_fmap_le. intros m _.
      destruct (decide (m = c)) as [->|Hne];
        [|now rewrite nodePotential_insert_ne].
      unfold nodePotential. rewrite lookup_insert_eq. simpl.
      pose proof (subseteq_size _ _ Hr3). pose proof (subseteq_size _ _ Hr2).
      pose proof (subseteq_size _ _ HCe). subst I.
      destruct (nodeInfos !! c); simpl in *; lia. }
    lia. }
  destruct (propagateTo_fold_potential c (CFG.exits (nodeAt cfg c)) st1 Hst1)
    as [Hw Hp]; [intros e He; exact He|].
  split; [exact Hw|]. cbn zeta in Hp. lia.
Qed.

(** The loop ends: with fuel above the measure it returns the map. *)
Lemma traverse_terminates (fuel : nat) :
  forall st,
    withinGraph cfg _entry st ->
    (traversePotential cfg _entry st < fuel)%nat ->
    exists nodeInfos, traverse cfg fuel st = Some nodeInfos.
Proof.
  induction fuel as [|fuel IH]; intros st Hst Hfuel; [lia|]. simpl.
  destruct (traverseStep cfg st) as [st'|] eqn:Hstep; [|eauto].
  destruct (traverseStep_potential st st' Hst Hstep) as [Hw Hp].
  apply IH; [assumption|lia].
Qed.

Lemma initial_withinGraph : withinGraph cfg _entry (∅, {[_entry]}).
Proof.
  split; cbn [fst snd].
  - unfold allNodes. set_solver.
  - intros m info. now rewrite lookup_empty.
Qed.

Lemma initial_potential :
  (traversePotential cfg _entry (∅, {[_entry]}) < traverseFuel cfg _entry)%nat.
Proof.
  unfold traversePotential, traverseFuel. cbn [fst snd].
  rewrite size_singleton.
  assert (Hsum : forall l : list nat,
             sum_list (nodePotential cfg ∅ <$> l)
             = (length l * S (size (allVariables cfg)
                              + size (allOccurrences cfg)))%nat).
  { induction l as [|x l IHl]; [reflexivity|].
    rewrite fmap_cons, sum_list_cons', IHl. unfold nodePotential.
    rewrite lookup_empty. simpl. lia. }
  rewrite Hsum.
  change (size (allNodes cfg _entry))
    with (length (elements (allNodes cfg _entry))). lia.
Qed.

End Termination.

(** C10. A flagged access is reported only when it has arrived, along
    successor edges, in the [NodeInfo] of the exit node: the traversal ends,
    what is reported are exactly the flagged occurrences of the exit node,
    each of them a reading occurrence of a node on a path from the entry to
    the exit; so when no node with a reading occurrence lies on such a path
    (the reads are on paths into the revert or transaction-return node
    only) nothing is reported, neither error nor warning. *)
Theorem checkUninitializedAccess_only_exit
    (occurrenceBefore : CFG.VariableOccurrence -> CFG.VariableOccurrence -> bool)
    (cfg : gmap nat CFG.CFGNode) (fuel _entry _exit : nat)
    (_emptyBody : bool) (_contractName : option string)
    (a : ControlFlowAnalyzer.t) :
  (traverseFuel cfg _entry <= fuel)%nat ->
  exists nodeInfos,
    traverse cfg fuel (∅, {[_entry]}) = Some nodeInfos
    /\ let exitInfo := default newNodeInfo (nodeInfos !! _exit) in
       let flagged := uninitializedVariableAccesses exitInfo in
       let ordered := uninitializedAccessesOrdered occurrenceBefore cfg exitInfo in
       checkUninitializedAccess occurrenceBefore cfg fuel _entry _exit
         _emptyBody _contractName a
       = Some (foldl (fun a o =>
                        reportUninitializedAccess _emptyBody _contractName o a)
                 a ordered)
       /\ (forall o, o ∈ ordered ->
             exists p, p ∈ flagged /\ occurrenceAt cfg p = Some o)
       /\ (forall p, p ∈ flagged ->
             reaches cfg _entry (fst p) /\ reaches cfg (fst p) _exit
             /\ exists o, occurrenceAt cfg p = Some o
                          /\ readsVariable (CFG.kind o))
       /\ ((forall n i o,
               occurrenceAt cfg (n, i) = Some o -> readsVariable (CFG.kind o) ->
               reaches cfg _entry n -> ~ reaches cfg n _exit) ->
           checkUninitializedAccess occurrenceBefore cfg fuel _entry _exit
             _emptyBody _contractName a
           = Some a).
Proof.
  intros Hfuel.
  destruct (traverse_terminates cfg _entry fuel (∅, {[_entry]}))
    as [nodeInfos Htraverse];
    [apply initial_withinGraph|pose proof (initial_potential cfg _entry); lia|].
  exists nodeInfos. split; [assumption|]. cbv zeta.
  pose proof (traverse_justified cfg _entry fuel _ nodeInfos
                (initial_justified cfg _entry) Htraverse) as [Hinfos _].
  cbn [fst] in Hinfos.
  assert (Hflagged : forall p,
             p ∈ uninitializedVariableAccesses
                   (default newNodeInfo (nodeInfos !! _exit)) ->
             reaches cfg _entry (fst p) /\ reaches cfg (fst p) _exit
             /\ exists o, occurrenceAt cfg p = Some o
                          /\ readsVariable (CFG.kind o)).
  { intros p Hp. destruct (nodeInfos !! _exit) as [info|] eqn:Hinfo;
      simpl in Hp; [|set_solver].
    now apply (Hinfos _exit info Hinfo). }
  unfold checkUninitializedAccess. rewrite Htraverse.
  split; [reflexivity|]. split; [|split; [exact Hflagged|]].
  - intros o Ho. unfold uninitializedAccessesOrdered in Ho.
    rewrite merge_sort_Permutation in Ho.
    apply list_elem_of_omap in Ho as (p & Hp & Hpo).
    exists p. split; [now apply elem_of_elements in Hp|exact Hpo].
  - intros Hnone. f_equal. unfold reportUninitializedAccesses.
    assert (Hempty : uninitializedVariableAccesses
                       (default newNodeInfo (nodeInfos !! _exit)) = ∅).
    { apply set_eq. intros [n i]. split; [|set_solver]. intros Hp.
      destruct (Hflagged _ Hp) as (Hen & Hne & o & Ho & Hk). simpl in *.
      exfalso. exact (Hnone n i o Ho Hk Hen Hne). }
    unfold uninitializedAccessesOrdered. rewrite Hempty, elements_empty.
    reflexivity.
Qed.

Lemma checkUninitializedAccess_only_exit_witness :
  checkUninitializedAccess byOccurrenceStart readBeforeRevertExample 100
    0 3 false None freshAnalyzer
  = Some freshAnalyzer.
Proof.
  destruct (checkUninitializedAccess_only_exit byOccurrenceStart
              readBeforeRevertExample 100 0 3 false None freshAnalyzer)
    as (nodeInfos & Htraverse & Hresult & _ & Hflagged & _);
    [vm_compute; lia|].
  rewrite Hresult. clear Hresult Hflagged. revert Htraverse.
  vm_compute. intros [= <-]. reflexivity.
Defined.

(** *** Breadth-first search *)

Section BreadthFirstSearchProperties.

Context {A : Type}.
Variable forEachChild : nat -> A -> list nat * A.
Variable children : nat -> list nat.
Variable support : list nat.
Variable starts : list nat.
(** What the callback keeps true of the vertices visited and of what it
    captures. *)
Variable captures : gset nat -> A -> Prop.

Hypothesis forEachChild_children :
  forall v captured, fst (forEachChild v captured) = children v.
Hypothesis children_support : forall v, v ∉ support -> children v = [].
Hypothesis captures_step :
  forall visited captured v,
    captures visited captured -> v ∉ visited ->
    captures ({[v]} ∪ visited) (snd (forEachChild v captured)).

Local Abbreviation fromStarts := (reachedFrom children starts).
Local Abbreviation searchInvariant :=
  (searchProgress children starts captures).

Lemma searchInvariant_complete visited captured :
  searchInvariant [] visited captured ->
  forall v, v ∈ visited <-> fromStarts v.
Proof.
  intros (Hsound & Hstart & Hclosed & _) v. split; [auto|].
  intros (s & Hs & Hpath).
  assert (Hsv : s ∈ visited) by (destruct (Hstart s Hs); set_solver).
  clear Hs. induction Hpath as [|x y z Hxy _ IH]; [assumption|].
  apply IH. destruct (Hclosed x y Hsv Hxy); set_solver.
Qed.

Lemma searchPotential_visit v rest visited :
  v ∉ visited ->
  (searchPotential children support
     (rest ++ filter (fun c => c ∉ {[v]} ∪ visited) (children v))
     ({[v]} ∪ visited)
   < searchPotential children support (v :: rest) visited)%nat.
Proof.
  intros Hv. unfold searchPotential. rewrite length_app. simpl.
  pose proof (length_filter (fun c => c ∉ {[v]} ∪ visited) (children v)) as Hf.
  set (f := fun v0 => if decide (v0 ∈ visited) then O else length (children v0)).
  set (g := fun v0 => if decide (v0 ∈ {[v]} ∪ visited) then O
                      else length (children v0)).
  assert (Hle : forall m, (g m <= f m)%nat).
  { intros m. unfold f, g. repeat destruct (decide _); try lia. set_solver. }
  destruct (decide (v ∈ support)) as [Hin|Hout].
  - assert (sum_list (g <$> support) + length (children v)
            <= sum_list (f <$> support))%nat.
    { apply (sum_list_fmap_lt f g support v); auto.
      unfold f, g. repeat destruct (decide _); try lia; set_solver. }
    lia.
  - rewrite (children_support v Hout) in *. simpl in *.
    pose proof (sum_list_fmap_le f g support (fun m _ => Hle m)). lia.
Qed.

(** With fuel above the potential the search ends; the vertices visited are
    those that can be reached from the start vertices. *)
Lemma breadthFirstSearch_spec (fuel : nat) :
  forall queue visited captured,
    searchInvariant queue visited captured ->
    (searchPotential children support queue visited < fuel)%nat ->
    exists visited' captured',
      breadthFirstSearch forEachChild fuel queue visited captured
      = Some (visited', captured')
      /\ (forall v, v ∈ visited' <-> fromStarts v)
      /\ captures visited' captured'.
Proof.
  induction fuel as [|fuel IH]; intros queue visited captured Hinv Hfuel;
    [lia|]. simpl.
  destruct queue as [|v rest].
  - exists visited, captured. split; [reflexivity|]. split.
    + now apply (searchInvariant_complete visited captured).
    + now destruct Hinv as (_ & _ & _ & ?).
  - destruct Hinv as (Hsound & Hstart & Hclosed & Hcap).
    destruct (decide (v ∈ visited)) as [Hv|Hv].
    + apply IH.
      * repeat split; auto.
        -- intros w Hw. apply Hsound. set_solver.
        -- intros s Hs. destruct (Hstart s Hs) as [?|Hq]; [now left|].
           apply elem_of_cons in Hq as [->|?]; auto.
        -- intros w c Hw Hc. destruct (Hclosed w c Hw Hc) as [?|Hq];
             [now left|]. apply elem_of_cons in Hq as [->|?]; auto.
      * unfold searchPotential in *. simpl in Hfuel. lia.
    + rewrite forEachChild_children. apply IH.
      * repeat split.
        -- intros w [Hw|Hw].
           ++ apply Hsound. apply elem_of_union in Hw as [Hw|Hw];
                [apply elem_of_singleton in Hw as ->; right; set_solver
                |now left].
           ++ apply elem_of_app in Hw as [Hw|Hw];
                [apply Hsound; right; set_solver|].
              apply list_elem_of_filter in Hw as [_ Hw].
              destruct (Hsound v) as (s & Hs & Hpath); [right; set_solver|].
              exists s. split; [assumption|]. eapply rtc_r; eassumption.
        -- intros s Hs. destruct (Hstart s Hs) as [?|Hq]; [left; set_solver|].
           apply elem_of_cons in Hq as [->|?]; [left; set_solver|].
           right. set_solver.
        -- intros w c Hw Hc.
           destruct (decide (c ∈ {[v]} ∪ visited)) as [?|Hnew]; [now left|].
           right. apply elem_of_union in Hw as [Hw|Hw].
           ++ apply elem_of_singleton in Hw as ->. apply elem_of_app. right.
              now apply list_elem_of_filter.
           ++ destruct (Hclosed w c Hw Hc) as [?|Hq]; [set_solver|].
              apply elem_of_cons in Hq as [->|?]; [set_solver|].
              apply elem_of_app. now left.
        -- now apply captures_step.
      * pose proof (searchPotential_visit v rest visited Hv). lia.
Qed.

End BreadthFirstSearchProperties.

(** *** Merging and reporting the unreachable locations *)

Lemma string_compare_refl (x : string) : String.compare x x = Eq.
Proof.
  pose proof (String.compare_antisym x x) as H.
  destruct (String.compare x x); simpl in H; congruence.
Qed.

Lemma positionBefore_asym (a b : SourceLocation) :
  (start a <? start b) || ((start a =? start b) && (end_ a <? end_ b)) = true ->
  (start b <? start a) || ((start b =? start a) && (end_ b <? end_ a)) = false.
Proof.
  rewrite orb_true_iff, andb_true_iff, orb_false_iff, andb_false_iff.
  rewrite !Z.ltb_lt, !Z.ltb_ge, Z.eqb_eq, Z.eqb_neq. lia.
Qed.

Lemma locationBefore_asym (a b : SourceLocation) :
  locationBefore a b = true -> locationBefore b a = false.
Proof.
  unfold locationBefore.
  destruct (sourceName a) as [x|], (sourceName b) as [y|]; try congruence.
  - rewrite (String.compare_antisym y x).
    destruct (String.compare x y); simpl; try congruence.
    apply positionBefore_asym.
  - apply positionBefore_asym.
Qed.

(** The order is total on locations: two locations of which neither is
    before the other are the same location, so that the [std::set] holds a
    location once. *)
Lemma locationBefore_total (a b : SourceLocation) :
  locationBefore a b = false -> locationBefore b a = false -> a = b.
Proof.
  unfold locationBefore. destruct a as [sa ea na], b as [sb eb nb]. simpl.
  assert (Hpos : (sa <? sb) || ((sa =? sb) && (ea <? eb)) = false ->
                 (sb <? sa) || ((sb =? sa) && (eb <? ea)) = false ->
                 sa = sb /\ ea = eb).
  { rewrite !orb_false_iff, !andb_false_iff, !Z.ltb_ge, !Z.eqb_neq. lia. }
  destruct na as [x|], nb as [y|]; try congruence.
  - rewrite (String.compare_antisym y x).
    destruct (String.compare x y) eqn:E; simpl; try congruence.
    apply String.compare_eq_iff in E as ->. intros H1 H2.
    destruct (Hpos H1 H2) as [-> ->]. reflexivity.
  - intros H1 H2. destruct (Hpos H1 H2) as [-> ->]. reflexivity.
Qed.

#[local] Instance inLocationOrder_total : Total inLocationOrder.
Proof.
  intros a b. unfold inLocationOrder.
  destruct (locationBefore b a) eqn:E; [right|now left].
  now apply locationBefore_asym.
Qed.

Lemma inOrder_sorted (s : gset SourceLocation) :
  Sorted inLocationOrder (inOrder s) /\ inOrder s ≡ₚ elements s.
Proof.
  split; [apply Sorted_merge_sort; apply _|apply merge_sort_Permutation].
Qed.

Lemma inLocationOrder_start (a b : SourceLocation) :
  inLocationOrder a b -> sourceName a = sourceName b -> start a <= start b.
Proof.
  unfold inLocationOrder, locationBefore. intros H Hsrc. rewrite Hsrc in H.
  destruct (sourceName b) as [x|].
  - rewrite string_compare_refl in H.
    apply orb_false_iff in H as [H _]. now apply Z.ltb_ge in H.
  - apply orb_false_iff in H as [H _]. now apply Z.ltb_ge in H.
Qed.

Lemma sorted_by_start (l : list SourceLocation) (src : option string) :
  Sorted inLocationOrder l -> Forall (fun x => sourceName x = src) l ->
  StronglySorted (fun a b => start a <= start b) l.
Proof.
  induction l as [|a l IH]; intros Hs Hsrc; [constructor|].
  apply Sorted_inv in Hs as [Hs Hhd]. apply Forall_cons in Hsrc as [Ha Hl].
  specialize (IH Hs Hl). constructor; [assumption|].
  destruct l as [|b l]; [constructor|].
  apply HdRel_inv in Hhd. apply Forall_cons in Hl as [Hb Hl].
  assert (Hab : start a <= start b)
    by (apply inLocationOrder_start; [assumption|congruence]).
  constructor; [assumption|].
  apply StronglySorted_inv in IH as [_ Hall].
  eapply Forall_impl; [exact Hall|]. simpl. intros; lia.
Qed.

Lemma coalesce_head (rest : list SourceLocation) :
  forall current,
  exists r tail,
    coalesce current rest = r :: tail
    /\ start r = start current /\ sourceName r = sourceName current
    /\ end_ current <= end_ r.
Proof.
  induction rest as [|next rest IH]; intros current; simpl.
  - exists current, []. repeat split; lia.
  - destruct (start next <=? end_ current).
    + destruct (IH (mkLoc (start current) (Z.max (end_ current) (end_ next))
                      (sourceName current))) as (r & tail & -> & ? & ? & ?).
      exists r, tail. simpl in *. repeat split; auto; lia.
    + exists current, (coalesce next rest). repeat split; lia.
Qed.

(** Merged ranges are apart: the next one starts behind the end of the one
    before. *)
Lemma coalesce_separated (rest : list SourceLocation) :
  forall current,
    Sorted (fun r1 r2 => end_ r1 < start r2) (coalesce current rest).
Proof.
  induction rest as [|next rest IH]; intros current; simpl.
  - repeat constructor.
  - destruct (Z.leb_spec (start next) (end_ current)); [apply IH|].
    constructor; [apply IH|].
    destruct (coalesce_head rest next) as (r & tail & -> & Hr & _).
    constructor. lia.
Qed.

(** Every location lies within one of the merged ranges, when the locations
    are sorted by their start. *)
Lemma coalesce_covers (rest : list SourceLocation) :
  forall current,
    StronglySorted (fun a b => start a <= start b) (current :: rest) ->
    forall l, l ∈ current :: rest ->
              exists r, r ∈ coalesce current rest /\ covers r l
                        /\ (sourceName l = sourceName current ->
                            Forall (fun x => sourceName x = sourceName current)
                              rest ->
                            sourceName r = sourceName l).
Proof.
  induction rest as [|next rest IH]; intros current Hs l Hl.
  - apply list_elem_of_singleton in Hl as ->. exists current. simpl.
    unfold covers. repeat split; try lia; set_solver.
  - simpl. apply StronglySorted_inv in Hs as [Hs Hall].
    apply Forall_cons in Hall as [Hcn Hall].
    destruct (Z.leb_spec (start next) (end_ current)) as [Hmerge|Hapart].
    + set (current' := mkLoc (start current)
                         (Z.max (end_ current) (end_ next))
                         (sourceName current)).
      assert (Hs' : StronglySorted (fun a b => start a <= start b)
                      (current' :: rest)).
      { apply StronglySorted_inv in Hs as [Hs _].
        constructor; [assumption|exact Hall]. }
      destruct (IH current' Hs' current') as (r0 & Hr0 & [Hc1 Hc2] & Hsrc0);
        [set_solver|]. simpl in Hc1, Hc2.
      apply elem_of_cons in Hl as [->|Hl];
        [|apply elem_of_cons in Hl as [->|Hl]].
      * exists r0. split; [assumption|]. unfold covers. split; [lia|].
        intros _ Hf. apply Forall_cons in Hf as [_ Hf]. now apply Hsrc0.
      * exists r0. split; [assumption|]. unfold covers. split; [lia|].
        intros Hsn Hf. apply Forall_cons in Hf as [_ Hf].
        rewrite Hsn. now apply Hsrc0.
      * destruct (IH current' Hs' l) as (r & Hr & Hc & Hsrc); [set_solver|].
        exists r. split; [assumption|]. split; [assumption|].
        intros Hsn Hf. apply Forall_cons in Hf as [_ Hf]. now apply Hsrc.
    + apply elem_of_cons in Hl as [->|Hl].
      * exists current. unfold covers. repeat split; try lia; set_solver.
      * destruct (IH next Hs l Hl) as (r & Hr & Hc & Hsrc).
        exists r. split; [set_solver|]. split; [assumption|].
        intros Hsn Hf. apply Forall_cons in Hf as [Hn Hf].
        apply Hsrc; [congruence|].
        eapply Forall_impl; [exact Hf|]. simpl. congruence.
Qed.

(** The two loops report the merged ranges one after the other. *)
Lemma reportFrom_coalesce (rest : list SourceLocation) :
  forall current a,
    reportFrom current rest a
    = foldl (fun a r => reportUnreachable r a) a (coalesce current rest).
Proof.
  induction rest as [|next rest IH]; intros current a; simpl; [reflexivity|].
  destruct (start next <=? end_ current); [apply IH|]. simpl. apply IH.
Qed.

Lemma reportUnreachableRanges_merged (sorted : list SourceLocation) a :
  reportUnreachableRanges sorted a
  = foldl (fun a r => reportUnreachable r a) a (mergedRanges sorted).
Proof. destruct sorted; [reflexivity|apply reportFrom_coalesce]. Qed.

(** Reporting a list of ranges: a warning for each range that is new, once;
    the ranges join the set; the rest of the analyser stays as it is. *)
Lemma reportUnreachable_fold (ranges : list SourceLocation) :
  forall a,
    let a' := foldl (fun a r => reportUnreachable r a) a ranges in
    ControlFlowAnalyzer.m_unreachableLocationsAlreadyWarnedFor a'
    = ControlFlowAnalyzer.m_unreachableLocationsAlreadyWarnedFor a
      ∪ list_to_set ranges
    /\ ControlFlowAnalyzer.m_unassignedReturnVarsAlreadyWarnedFor a'
       = ControlFlowAnalyzer.m_unassignedReturnVarsAlreadyWarnedFor a
    /\ exists new,
         NoDup new
         /\ (forall r, r ∈ new <->
               r ∈ ranges
               /\ r ∉ ControlFlowAnalyzer.m_unreachableLocationsAlreadyWarnedFor a)
         /\ ControlFlowAnalyzer.m_errorReporter a'
            = ControlFlowAnalyzer.m_errorReporter a
              ++ (unreachableWarning <$> new).
Proof.
  induction ranges as [|r ranges IH]; intros a; simpl.
  - split; [set_solver|]. split; [reflexivity|]. exists [].
    split; [constructor|]. split; [set_solver|]. now rewrite app_nil_r.
  - destruct (IH (reportUnreachable r a)) as (Hw & Hu & new & Hnd & Hnew & He).
    unfold reportUnreachable in *.
    destruct (decide (r ∈ ControlFlowAnalyzer.m_unreachableLocationsAlreadyWarnedFor a))
      as [Hin|Hnin]; simpl in *.
    + split; [rewrite Hw; set_solver|]. split; [assumption|].
      exists new. split; [assumption|]. split; [|assumption].
      intros x. rewrite Hnew. set_solver.
    + split; [rewrite Hw; set_solver|]. split; [assumption|].
      exists (r :: new). split; [|split].
      * constructor; [|assumption]. rewrite Hnew. set_solver.
      * intros x. rewrite elem_of_cons, Hnew.
        destruct (decide (x = r)) as [->|Hne]; set_solver.
      * rewrite He, <- app_assoc. reflexivity.
Qed.

(** Ranges that are all in the set already leave the analyser as it is. *)
Lemma reportUnreachable_again (ranges : list SourceLocation) a :
  (forall r, r ∈ ranges ->
     r ∈ ControlFlowAnalyzer.m_unreachableLocationsAlreadyWarnedFor a) ->
  foldl (fun a r => reportUnreachable r a) a ranges = a.
Proof.
  induction ranges as [|r ranges IH]; intros H; simpl; [reflexivity|].
  unfold reportUnreachable at 2.
  destruct (decide _) as [_|Hnin]; [|exfalso; apply Hnin, H; set_solver].
  apply IH. intros x Hx. apply H. set_solver.
Qed.

(** *** The two searches of [checkUnreachable] *)

Section Searches.

Variable isValid : SourceLocation -> bool.
Variable cfg : gmap nat CFG.CFGNode.

Lemma edges_support (edges : CFG.CFGNode -> list nat) (v : nat) :
  edges emptyNode = [] ->
  v ∉ (fst <$> map_to_list cfg) -> edges (nodeAt cfg v) = [].
Proof.
  intros Hempty Hv. unfold nodeAt.
  destruct (cfg !! v) as [node|] eqn:E; [|exact Hempty].
  exfalso. apply Hv. apply list_elem_of_fmap. exists (v, node).
  split; [reflexivity|]. now apply elem_of_map_to_list.
Qed.

Lemma initial_searchPotential (edges : CFG.CFGNode -> list nat)
    (starts : list nat) :
  (forall node, length (edges node)
                <= length (CFG.exits node) + length (CFG.entries node))%nat ->
  (length starts <= 3)%nat ->
  (searchPotential (fun v => edges (nodeAt cfg v)) (fst <$> map_to_list cfg)
     starts ∅
   < searchFuel cfg)%nat.
Proof.
  intros Hedges Hstarts. unfold searchPotential, searchFuel.
  match goal with
  | |- context [sum_list (?f <$> (fst <$> map_to_list cfg))] => set (F := f)
  end.
  assert (Hsum : forall l : list (nat * CFG.CFGNode),
             (forall kv, kv ∈ l -> cfg !! fst kv = Some (snd kv)) ->
             (sum_list (F <$> (fst <$> l))
              <= sum_list ((fun kv => length (CFG.exits (snd kv))
                                      + length (CFG.entries (snd kv)))%nat
                             <$> l))%nat).
  { induction l as [|[k node] l IHl]; intros Hl; [simpl; lia|].
    rewrite !fmap_cons, !sum_list_cons'. cbn [fst snd].
    assert (Hk : nodeAt cfg k = node).
    { unfold nodeAt. assert (Hkn : cfg !! k = Some node)
        by (apply (Hl (k, node)); set_solver).
      now rewrite Hkn. }
    assert (F k <= length (CFG.exits node) + length (CFG.entries node))%nat.
    { unfold F. destruct (decide _); [lia|]. rewrite Hk. apply Hedges. }
    assert (sum_list (F <$> (fst <$> l))
            <= sum_list ((fun kv => length (CFG.exits (snd kv))
                                    + length (CFG.entries (snd kv)))%nat
                           <$> l))%nat
      by (apply IHl; intros; apply Hl; set_solver).
    lia. }
  specialize (Hsum (map_to_list cfg)
                (fun kv H => proj1 (elem_of_map_to_list' cfg kv) H)).
  lia.
Qed.

(** The forward search computes the nodes that can be reached from the
    entry. *)
Lemma forward_search (fuel _entry : nat) :
  (searchFuel cfg <= fuel)%nat ->
  exists reachable,
    breadthFirstSearch
      (fun _node (_ : unit) => (CFG.exits (nodeAt cfg _node), tt))
      fuel [_entry] ∅ tt
    = Some (reachable, tt)
    /\ forall v, v ∈ reachable <-> reaches cfg _entry v.
Proof.
  intros Hfuel.
  destruct (breadthFirstSearch_spec
              (fun _node (_ : unit) => (CFG.exits (nodeAt cfg _node), tt))
              (fun v => CFG.exits (nodeAt cfg v))
              (fst <$> map_to_list cfg) [_entry] (fun _ _ => True)
              (fun _ _ => eq_refl)
              (fun v => edges_support CFG.exits v eq_refl)
              (fun _ _ _ _ _ => I) fuel [_entry] ∅ tt)
    as (reachable & [] & Hrun & Hreach & _).
  - split; [|split; [|split; [|exact I]]].
    + intros v [Hv|Hv]; [set_solver|]. apply list_elem_of_singleton in Hv as ->.
      exists _entry. split; [set_solver|apply rtc_refl].
    + intros s Hs. now right.
    + intros v c Hv. set_solver.
  - pose proof (initial_searchPotential CFG.exits [_entry]
                  ltac:(intros; lia) ltac:(simpl; lia)). lia.
  - exists reachable. split; [exact Hrun|]. intros v. rewrite Hreach.
    unfold reachedFrom, reaches, successor. split.
    + intros (s & Hs & Hpath). apply list_elem_of_singleton in Hs as ->.
      exact Hpath.
    + intros Hpath. exists _entry. split; [set_solver|exact Hpath].
Qed.

(** The backward search records the locations of the nodes it meets that are
    not reachable and have a valid location. *)
Lemma backward_search (fuel : nat) (reachable : gset nat)
    (_exit _revert _transactionReturn : nat) :
  (searchFuel cfg <= fuel)%nat ->
  exists visited unreachable,
    breadthFirstSearch (recordUnreachable isValid cfg reachable)
      fuel [_exit; _revert; _transactionReturn] ∅ ∅
    = Some (visited, unreachable)
    /\ forall l,
         l ∈ unreachable
         <-> exists n,
               (reachesBackward cfg _exit n \/ reachesBackward cfg _revert n
                \/ reachesBackward cfg _transactionReturn n)
               /\ (n ∉ reachable)
               /\ isValid (CFG.nodeLocation (nodeAt cfg n)) = true
               /\ l = CFG.nodeLocation (nodeAt cfg n).
Proof.
  intros Hfuel.
  set (captures := fun (visited : gset nat) (U : gset SourceLocation) =>
         forall l, l ∈ U <->
                   exists n, n ∈ visited /\ (n ∉ reachable)
                             /\ isValid (CFG.nodeLocation (nodeAt cfg n)) = true
                             /\ l = CFG.nodeLocation (nodeAt cfg n)).
  assert (Hstep : forall visited captured v,
             captures visited captured -> v ∉ visited ->
             captures ({[v]} ∪ visited)
               (snd (recordUnreachable isValid cfg reachable v captured))).
  { unfold captures. intros visited U v HU Hv l. specialize (HU l).
    unfold recordUnreachable. cbn [snd].
    destruct (bool_decide_reflect (v ∈ reachable)) as [Hr|Hr]; simpl.
    - rewrite HU. split; intros (n & Hn & Hnr & ?).
      + exists n. split; [set_solver|auto].
      + exists n. split; [|auto].
        apply elem_of_union in Hn as [Hn|Hn]; [|assumption].
        apply elem_of_singleton in Hn as ->. contradiction.
    - destruct (isValid (CFG.nodeLocation (nodeAt cfg v))) eqn:Hvalid.
      + rewrite elem_of_union, elem_of_singleton, HU. split.
        * intros [->|(n & Hn & ?)]; [exists v|exists n];
            (split; [set_solver|auto]).
        * intros (n & Hn & Hnr & Hval & ->).
          apply elem_of_union in Hn as [Hn|Hn];
            [apply elem_of_singleton in Hn as ->; now left|].
          right. exists n. auto.
      + rewrite HU. split; intros (n & Hn & Hnr & Hval & Hl).
        * exists n. split; [set_solver|auto].
        * exists n. split; [|auto].
          apply elem_of_union in Hn as [Hn|Hn]; [|assumption].
          apply elem_of_singleton in Hn as ->. congruence. }
  destruct (breadthFirstSearch_spec
              (recordUnreachable isValid cfg reachable)
              (fun v => CFG.entries (nodeAt cfg v))
              (fst <$> map_to_list cfg) [_exit; _revert; _transactionReturn]
              captures (fun _ _ => eq_refl)
              (fun v => edges_support CFG.entries v eq_refl)
              Hstep fuel [_exit; _revert; _transactionReturn] ∅ ∅)
    as (visited & unreachable & Hrun & Hreach & Hcap).
  - split; [|split; [|split]].
    + intros v [Hv|Hv]; [set_solver|]. exists v. split; [assumption|].
      apply rtc_refl.
    + intros s Hs. now right.
    + intros v c Hv. set_solver.
    + intros l. split; [set_solver|]. intros (n & Hn & _). set_solver.
  - pose proof (initial_searchPotential CFG.entries
                  [_exit; _revert; _transactionReturn]
                  ltac:(intros; lia) ltac:(simpl; lia)). lia.
  - exists visited, unreachable. split; [exact Hrun|].
    intros l. rewrite (Hcap l). split; intros (n & Hn & Hrest); exists n;
      (split; [|exact Hrest]).
    + apply Hreach in Hn as (s & Hs & Hpath).
      unfold reachesBackward, predecessor.
      repeat (apply elem_of_cons in Hs as [->|Hs]; [tauto|]). set_solver.
    + apply Hreach. unfold reachedFrom.
      destruct Hn as [Hn|[Hn|Hn]];
        [exists _exit|exists _revert|exists _transactionReturn];
        (split; [set_solver|exact Hn]).
Qed.

End Searches.

(** Two nodes that cannot be reached from the entry, have a valid location
    and are not reported.  From the first no path leads to the exit, revert
    or transaction-return node: the backward search does not meet it.  The
    second is met by the backward search and its location recorded, but the
    location lies in another source than the one recorded before it: the
    merge compares positions only, the location [b.sol[10,20]] starts before
    the end of [a.sol[95,99]] and is swallowed by that range, which neither
    covers it nor lies in its source. *)
Lemma unreachable_nodes_not_reported :
  (notDefault (CFG.nodeLocation (nodeAt withDeadEnd 10)) = true
   /\ ~ reaches withDeadEnd 0 10
   /\ checkUnreachable notDefault withDeadEnd 100 0 4 5 9 freshAnalyzer
      = Some (ControlFlowAnalyzer.mk [unreachableWarning (inSource 60 90)]
                ∅ {[inSource 60 90]}))
  /\ (foundUnreachable notDefault twoSources 0 1 4 5 3
      /\ CFG.nodeLocation (nodeAt twoSources 3) = mkLoc 10 20 (Some "b.sol")
      /\ checkUnreachable notDefault twoSources 100 0 1 4 5 freshAnalyzer
         = Some (ControlFlowAnalyzer.mk [unreachableWarning (inSource 95 99)]
                   ∅ {[inSource 95 99]})).
Proof.
  split; [split; [reflexivity|split]|split; [split; [|split]|split]].
  - destruct (forward_search withDeadEnd 100 0) as (reachable & Hrun & Hreach);
      [vm_compute; lia|].
    rewrite <- Hreach. vm_compute in Hrun. injection Hrun as <-.
    vm_compute. discriminate.
  - vm_compute. reflexivity.
  - left. apply rtc_once. unfold predecessor. vm_compute. set_solver.
  - destruct (forward_search twoSources 100 0) as (reachable & Hrun & Hreach);
      [vm_compute; lia|].
    rewrite <- Hreach. vm_compute in Hrun. injection Hrun as <-.
    vm_compute. discriminate.
  - reflexivity.
  - reflexivity.
  - vm_compute. reflexivity.
Qed.

(** C3 (amended). [checkUnreachable] ends, and it records the location of
    every node with a valid location that the backward search from the
    exit, revert and transaction-return nodes meets and that cannot be
    reached from the entry.  The recorded locations are walked in the order
    of their position; a location that starts at or before the end of the
    range built so far is merged into it, so that the merged ranges lie
    apart and, when the recorded locations all lie in one source, every
    recorded location lies within a merged range of that source, warned
    about now or before.  One "Unreachable code." warning is emitted per
    merged range that is not yet in the set of ranges warned about, which
    the merged ranges then join; run again, on the same or on a later state
    of the analyser, the check reports nothing. *)
Theorem checkUnreachable_spec (isValid : SourceLocation -> bool)
    (cfg : gmap nat CFG.CFGNode)
    (fuel _entry _exit _revert _transactionReturn : nat)
    (a : ControlFlowAnalyzer.t) :
  (searchFuel cfg <= fuel)%nat ->
  exists (unreachable : gset SourceLocation) (a' : ControlFlowAnalyzer.t),
    checkUnreachable isValid cfg fuel _entry _exit _revert _transactionReturn a
    = Some a'
    /\ (forall l,
          l ∈ unreachable
          <-> exists n,
                foundUnreachable isValid cfg _entry _exit _revert
                  _transactionReturn n
                /\ l = CFG.nodeLocation (nodeAt cfg n))
    /\ Sorted inLocationOrder (inOrder unreachable)
    /\ inOrder unreachable ≡ₚ elements unreachable
    /\ let merged := mergedRanges (inOrder unreachable) in
       let warned := ControlFlowAnalyzer.m_unreachableLocationsAlreadyWarnedFor in
       Sorted (fun r1 r2 => end_ r1 < start r2) merged
       /\ (forall src,
             (forall l, l ∈ unreachable -> sourceName l = src) ->
             forall l, l ∈ unreachable ->
               exists r, r ∈ merged /\ covers r l /\ sourceName r = src
                         /\ r ∈ warned a')
       /\ warned a' = warned a ∪ list_to_set merged
       /\ (exists new,
             NoDup new
             /\ (forall r, r ∈ new <-> r ∈ merged /\ r ∉ warned a)
             /\ ControlFlowAnalyzer.m_errorReporter a'
                = ControlFlowAnalyzer.m_errorReporter a
                  ++ (unreachableWarning <$> new))
       /\ (forall fuel2 a2,
             (searchFuel cfg <= fuel2)%nat -> warned a' ⊆ warned a2 ->
             checkUnreachable isValid cfg fuel2 _entry _exit _revert
               _transactionReturn a2
             = Some a2).
Proof.
  intros Hfuel.
  assert (Hrun : forall fuel', (searchFuel cfg <= fuel')%nat ->
            exists unreachable,
              (forall a0,
                  checkUnreachable isValid cfg fuel' _entry _exit _revert
                    _transactionReturn a0
                  = Some (reportUnreachableRanges (inOrder unreachable) a0))
              /\ forall l,
                   l ∈ unreachable
                   <-> exists n,
                         foundUnreachable isValid cfg _entry _exit _revert
                           _transactionReturn n
                         /\ l = CFG.nodeLocation (nodeAt cfg n)).
  { intros fuel' Hfuel'.
    destruct (forward_search cfg fuel' _entry Hfuel')
      as (reachable & Hforward & Hreach).
    destruct (backward_search isValid cfg fuel' reachable _exit _revert
                _transactionReturn Hfuel')
      as (visited & unreachable & Hbackward & Hrec).
    exists unreachable. split.
    - intros a0. unfold checkUnreachable. now rewrite Hforward, Hbackward.
    - intros l. rewrite Hrec. unfold foundUnreachable.
      split; intros (n & H); exists n; rewrite Hreach in *; tauto. }
  destruct (Hrun fuel Hfuel) as (unreachable & Hcheck & Hrec).
  exists unreachable, (reportUnreachableRanges (inOrder unreachable) a).
  split; [apply Hcheck|]. split; [exact Hrec|].
  destruct (inOrder_sorted unreachable) as [Hsorted Hperm].
  split; [exact Hsorted|]. split; [exact Hperm|]. cbv zeta.
  rewrite reportUnreachableRanges_merged.
  destruct (reportUnreachable_fold (mergedRanges (inOrder unreachable)) a)
    as (Hwarned & _ & Hnew). cbv zeta in Hwarned, Hnew.
  split; [|split; [|split; [exact Hwarned|split; [exact Hnew|]]]].
  - unfold mergedRanges. destruct (inOrder unreachable);
      [constructor|apply coalesce_separated].
  - intros src Hsrc l Hl.
    assert (Hall : Forall (fun x => sourceName x = src) (inOrder unreachable)).
    { apply Forall_forall. intros x Hx. apply Hsrc.
      rewrite Hperm in Hx. now apply elem_of_elements in Hx. }
    assert (Hin : l ∈ inOrder unreachable)
      by (rewrite Hperm; now apply elem_of_elements).
    pose proof (sorted_by_start _ src Hsorted Hall) as Hstart.
    unfold mergedRanges in *.
    destruct (inOrder unreachable) as [|first rest]; [set_solver|].
    apply Forall_cons in Hall as [Hfirst Hrest].
    destruct (coalesce_covers rest first Hstart l Hin) as (r & Hr & Hc & Hs).
    exists r. split; [exact Hr|]. split; [exact Hc|]. split.
    + rewrite Hs; [apply Hsrc; rewrite Hperm in Hin;
                   now apply elem_of_elements in Hin| |].
      * rewrite Hfirst. apply Hsrc. rewrite Hperm in Hin.
        now apply elem_of_elements in Hin.
      * eapply Forall_impl; [exact Hrest|]. simpl. congruence.
    + rewrite Hwarned. set_solver.
  - intros fuel2 a2 Hfuel2 Hsub.
    destruct (Hrun fuel2 Hfuel2) as (unreachable2 & Hcheck2 & Hrec2).
    assert (unreachable2 = unreachable) as ->.
    { apply set_eq. intros l. now rewrite Hrec, Hrec2. }
    rewrite Hcheck2, reportUnreachableRanges_merged. f_equal.
    apply reportUnreachable_again. intros r Hr. apply Hsub.
    rewrite Hwarned. set_solver.
Qed.

Lemma checkUnreachable_spec_witness :
  checkUnreachable notDefault revertInBothBranches 100 0 4 5 9 freshAnalyzer
  = Some (ControlFlowAnalyzer.mk [unreachableWarning (inSource 60 90)]
            ∅ {[inSource 60 90]})
  /\ checkUnreachable notDefault revertInBothBranches 100 0 4 5 9
       (ControlFlowAnalyzer.mk [unreachableWarning (inSource 60 90)]
          ∅ {[inSource 60 90]})
     = Some (ControlFlowAnalyzer.mk [unreachableWarning (inSource 60 90)]
               ∅ {[inSource 60 90]}).
Proof.
  destruct (checkUnreachable_spec notDefault revertInBothBranches 100 0 4 5 9
              freshAnalyzer)
    as (unreachable & a' & Hcheck & _ & _ & _ & _ & _ & _ & _ & Hagain);
    [vm_compute; lia|].
  assert (Ha' : a' = ControlFlowAnalyzer.mk [unreachableWarning (inSource 60 90)]
                       ∅ {[inSource 60 90]}).
  { revert Hcheck. vm_compute. congruence. }
  subst a'. split; [exact Hcheck|].
  apply Hagain; [vm_compute; lia|set_solver].
Defined.

(** ** Part III: further properties of the arithmetic *)

(** *** The right shift is floor division *)

Lemma sar_cases_floor (n e : Z) :
  0 <= e -> n <> 0 ->
  (if Z.log2 (Z.abs n) <? e then (if n <? 0 then -1 else 0)
   else if n <? 0 then Z.quot (n + 1) (2 ^ e) - 1
   else Z.quot n (2 ^ e))
  = n / 2 ^ e.
Proof.
  intros He Hn.
  assert (Hp : 0 < 2 ^ e) by (apply Z.pow_pos_nonneg; lia).
  destruct (Z.ltb_spec (Z.log2 (Z.abs n)) e) as [Hlog|Hlog].
  - assert (Hsmall : Z.abs n < 2 ^ e) by (apply Z.log2_lt_pow2; lia).
    destruct (Z.ltb_spec n 0) as [Hneg|Hpos].
    + apply Z.div_unique with (r := n + 2 ^ e); lia.
    + symmetry. apply Z.div_small. lia.
  - destruct (Z.ltb_spec n 0) as [Hneg|Hpos].
    + replace (n + 1) with (- (- (n + 1))) by lia.
      rewrite Z.quot_opp_l by lia. rewrite Z.quot_div_nonneg by lia.
      pose proof (Z.div_mod (- (n + 1)) (2 ^ e) ltac:(lia)) as Hdm.
      pose proof (Z.mod_pos_bound (- (n + 1)) (2 ^ e) Hp) as Hr.
      apply Z.div_unique with (r := 2 ^ e - (- (n + 1)) mod 2 ^ e - 1); [lia|].
      nia.
    + apply Z.quot_div_nonneg; lia.
Qed.

Lemma evaluateBinaryOperator_sar_value fits (x s : rational) :
  denominator x = 1 -> denominator s = 1 -> 0 <= numerator s <= uint32_max ->
  evaluateBinaryOperator fits Token.SAR x s
  = Some (rational_of_bigint (numerator x / 2 ^ numerator s)).
Proof.
  intros Hdx Hds Hs.
  destruct (shift_amount_valid s Hds Hs) as [Hlt Hgt].
  unfold evaluateBinaryOperator. rewrite Hlt, Hgt, Hdx, Hds.
  change (negb (1 =? 1) || negb (1 =? 1)) with false. cbv iota.
  destruct (Z.eqb_spec (numerator x) 0) as [Hz|Hnz].
  - rewrite Hz, Z.div_0_l; [reflexivity|].
    apply Z.pow_nonzero; lia.
  - rewrite <- (sar_cases_floor (numerator x) (numerator s)) by lia.
    destruct (_ <? numerator s); destruct (numerator x <? 0); reflexivity.
Qed.

(** X1. The arithmetic right shift [x >> s] is defined exactly for an
    integral [x] and an integral [s] in [0, uint32::max], and its value is
    then the floor of [x / 2^s]: it rounds towards minus infinity, also for
    negative [x] and when every bit is shifted out. *)
Theorem evaluateBinaryOperator_sar_floor fits (x s : rational) :
  (denominator x = 1 -> denominator s = 1 -> 0 <= numerator s <= uint32_max ->
   evaluateBinaryOperator fits Token.SAR x s
   = Some (rational_of_bigint (numerator x / 2 ^ numerator s)))
  /\ (denominator x <> 1 \/ denominator s <> 1
      \/ numerator s < 0 \/ uint32_max < numerator s ->
      evaluateBinaryOperator fits Token.SAR x s = None).
Proof.
  split; [apply evaluateBinaryOperator_sar_value|].
  intros H. unfold evaluateBinaryOperator.
  destruct (Z.eqb_spec (denominator x) 1) as [Hdx|Hdx]; [|reflexivity].
  destruct (Z.eqb_spec (denominator s) 1) as [Hds|Hds]; [|reflexivity].
  cbn [negb orb]. unfold rat_lt_int, rat_gt_int. rewrite Hds.
  destruct (Z.ltb_spec (numerator s) (0 * 1)); [reflexivity|].
  destruct (Z.ltb_spec (uint32_max * 1) (numerator s)); [reflexivity|].
  lia.
Qed.

Lemma evaluateBinaryOperator_sar_floor_witness :
  evaluateBinaryOperator fitsPrecisionBaseX_spec Token.SAR
    (rational_of_bigint (-7)) (rational_of_bigint 1)
  = Some (rational_of_bigint (-4))
  /\ evaluateBinaryOperator fitsPrecisionBaseX_spec Token.SAR
       (Q2Qc (1 # 2)) (rational_of_bigint 1) = None.
Proof.
  split.
  - apply (proj1 (evaluateBinaryOperator_sar_floor fitsPrecisionBaseX_spec
                    (rational_of_bigint (-7)) (rational_of_bigint 1)));
      [reflexivity | reflexivity | split; vm_compute; congruence].
  - apply (proj2 (evaluateBinaryOperator_sar_floor fitsPrecisionBaseX_spec
                    (Q2Qc (1 # 2)) (rational_of_bigint 1))).
    left. vm_compute. congruence.
Defined.

(** X2. Shifting left and then right by the same amount gives the operand
    back for every integral operand, negative ones included: whenever
    [x << s] has a value, [(x << s) >> s] is [x]. *)
Theorem evaluateBinaryOperator_shl_sar_signed fits (x s shifted : rational) :
  denominator x = 1 ->
  denominator s = 1 -> 0 <= numerator s <= uint32_max ->
  evaluateBinaryOperator fits Token.SHL x s = Some shifted ->
  evaluateBinaryOperator fits Token.SAR shifted s = Some x.
Proof.
  intros Hdx Hds Hs Hshl.
  assert (Hp : 2 ^ numerator s <> 0) by (apply Z.pow_nonzero; lia).
  assert (Hv : shifted = rational_of_bigint (numerator x * 2 ^ numerator s)).
  { revert Hshl. destruct (shift_amount_valid s Hds Hs) as [Hlt Hgt].
    unfold evaluateBinaryOperator. rewrite Hlt, Hgt, Hdx, Hds.
    change (negb (1 =? 1) || negb (1 =? 1)) with false. cbv iota.
    destruct (Z.eqb_spec (numerator x) 0) as [Hz|Hnz].
    - rewrite Hz. intros E; injection E as E; subst shifted. reflexivity.
    - destruct (negb _); [discriminate|].
      intros E; injection E as E; subst shifted. reflexivity. }
  subst shifted. rewrite evaluateBinaryOperator_sar_value.
  - rewrite numerator_of_bigint, Z.div_mul by exact Hp.
    f_equal. symmetry. now apply integral_rational.
  - apply denominator_of_bigint.
  - exact Hds.
  - exact Hs.
Qed.

Lemma evaluateBinaryOperator_shl_sar_signed_witness :
  evaluateBinaryOperator fitsPrecisionBaseX_spec Token.SAR
    (rational_of_bigint (-40)) (rational_of_bigint 3)
  = Some (rational_of_bigint (-5)).
Proof.
  apply (evaluateBinaryOperator_shl_sar_signed fitsPrecisionBaseX_spec
           (rational_of_bigint (-5)) (rational_of_bigint 3)
           (rational_of_bigint (-40)));
    [reflexivity | reflexivity | split; vm_compute; congruence | reflexivity].
Defined.

(** *** Exponentiation computes the power, within 4096 bits *)

Lemma evaluateBinaryOperator_exp_inv fits (x y r : rational) :
  evaluateBinaryOperator fits Token.Exp x y = Some r ->
  let e := numerator y in
  denominator y = 1
  /\ ((e = 0 /\ r = rational_of_bigint 1)
      \/ (e <> 0 /\ (x = rational_of_bigint 0 \/ x = rational_of_bigint 1)
          /\ r = x)
      \/ (e <> 0 /\ x = rational_of_bigint (-1)
          /\ r = rational_of_bigint (if Z.even e then 1 else -1))
      \/ (e <> 0 /\ numerator x <> 0
          /\ fitsPrecisionExp (Z.abs (numerator x)) (Z.abs e) = Some true
          /\ fitsPrecisionExp (Z.abs (denominator x)) (Z.abs e) = Some true
          /\ r = if 0 <=? e
                 then Q2Qc (inject_Z (numerator x ^ Z.abs e)
                            / inject_Z (denominator x ^ Z.abs e))
                 else Q2Qc (inject_Z (denominator x ^ Z.abs e)
                            / inject_Z (numerator x ^ Z.abs e)))).
Proof.
  cbv zeta. unfold evaluateBinaryOperator.
  destruct (Z.eqb_spec (denominator y) 1) as [Hd|Hd]; [|discriminate].
  cbn [negb]. cbv iota. intros H. split; [exact Hd|]. revert H.
  destruct (Z.eqb_spec (numerator y) 0) as [He|He].
  { intros E; injection E as E. left. now split. }
  destruct (rat_eq_int x 0) eqn:H0.
  { intros E; injection E as E. right; left. apply rat_eq_int_true in H0.
    rewrite <- E. now auto. }
  destruct (rat_eq_int x 1) eqn:H1.
  { intros E; injection E as E. right; left. apply rat_eq_int_true in H1.
    rewrite <- E. now auto. }
  cbn [orb]. cbv iota.
  destruct (rat_eq_int x (-1)) eqn:Hm1.
  { intros E; injection E as E. right; right; left.
    apply rat_eq_int_true in Hm1. split; [exact He|]. split; [exact Hm1|].
    rewrite <- E, land_1_parity, even_abs.
    now destruct (Z.even (numerator y)). }
  destruct (Z.ltb_spec uint32_max (Z.abs (numerator y))); [discriminate|].
  destruct (guard (fitsPrecisionExp (Z.abs (numerator x)) _)) eqn:G1;
    [|discriminate].
  destruct (guard (fitsPrecisionExp (Z.abs (denominator x)) _)) eqn:G2;
    [|discriminate].
  cbn [negb orb]. cbv iota. apply guard_true in G1, G2.
  rewrite !optimizedPow_pow by lia.
  assert (Hn : numerator x <> 0).
  { intros Hz. apply rat_eq_int_false in H0. apply H0.
    apply rat_eq_int_true. unfold rat_eq_int.
    rewrite (numerator_zero x Hz), Hz. reflexivity. }
  pose proof (denominator_pos x).
  intros E. right; right; right.
  split; [exact He|]. split; [exact Hn|]. split; [exact G1|].
  split; [exact G2|].
  destruct (0 <=? numerator y).
  - rewrite makeRational_pos in E by (apply Z.pow_pos_nonneg; lia).
    now injection E as <-.
  - rewrite makeRational_nonzero in E by (apply Z.pow_nonzero; lia).
    now injection E as <-.
Qed.

Lemma rational_as_quotient (x : rational) :
  (this x == inject_Z (numerator x) / inject_Z (denominator x))%Q.
Proof.
  unfold numerator, denominator. destruct (this x) as [n d]. simpl.
  apply Qmake_Qdiv.
Qed.

Lemma pow_minus_one (e : Z) :
  0 <= e -> (-1) ^ e = if Z.even e then 1 else -1.
Proof.
  intros He. rewrite <- (optimizedPow_pow (-1) e He).
  unfold optimizedPow. simpl. rewrite land_1_parity.
  now destruct (Z.even e).
Qed.

Lemma Qpower_minus_one (e : Z) :
  (inject_Z (-1) ^ e == inject_Z (if Z.even e then 1 else -1))%Q.
Proof.
  destruct (Z.le_gt_cases 0 e) as [He|He].
  - rewrite <- Zpower_Qpower by exact He. now rewrite pow_minus_one.
  - replace e with (- (- e)) at 1 by lia.
    rewrite Qpower_opp, <- Zpower_Qpower by lia.
    rewrite pow_minus_one by lia. rewrite Z.even_opp.
    now destruct (Z.even e).
Qed.

(** X3. Whenever [x ** y] has a value, that value is the mathematical power
    of [x] by the integer [y] (with the convention that 0 to a negative
    power is 0), whichever of the special cases or the general case of the
    code produced it. *)
Theorem evaluateBinaryOperator_exp_power fits (x y r : rational) :
  evaluateBinaryOperator fits Token.Exp x y = Some r ->
  denominator y = 1 /\ (this r == this x ^ numerator y)%Q.
Proof.
  intros H. apply evaluateBinaryOperator_exp_inv in H. cbv zeta in H.
  destruct H as [Hd H]. split; [exact Hd|].
  destruct H as [[He ->]|[(He & Hx & ->)|[(He & -> & ->)|H]]].
  - rewrite He. reflexivity.
  - destruct Hx as [-> | ->]; rewrite rational_of_bigint_this.
    + now rewrite Qpower_0.
    + now rewrite Qpower_1.
  - rewrite !rational_of_bigint_this. now rewrite Qpower_minus_one.
  - destruct H as (He & Hn & _ & _ & ->).
    pose proof (denominator_pos x) as Hdp.
    rewrite (Qpower_comp _ _ (rational_as_quotient x) _ _ eq_refl).
    destruct (Z.leb_spec 0 (numerator y)) as [Hpos|Hneg];
      cbn [this Q2Qc]; rewrite Qred_correct.
    + rewrite Z.abs_eq by lia.
      now rewrite Qdiv_power, !Zpower_Qpower by lia.
    + replace (numerator y) with (- Z.abs (numerator y)) at 3 by lia.
      rewrite Qpower_opp, Qdiv_power, !Zpower_Qpower by lia.
      unfold Qdiv. rewrite Qinv_mult_distr, Qinv_involutive.
      apply Qmult_comm.
Qed.

Lemma evaluateBinaryOperator_exp_power_witness :
  (this (Q2Qc (27 # 8)) == this (Q2Qc (2 # 3)) ^ (-3))%Q.
Proof.
  apply (evaluateBinaryOperator_exp_power fitsPrecisionBaseX_spec
           (Q2Qc (2 # 3)) (rational_of_bigint (-3)) (Q2Qc (27 # 8))).
  reflexivity.
Defined.

Lemma fitsPrecisionExp_bits (base exp : Z) :
  0 < base -> 0 <= exp ->
  fitsPrecisionExp base exp = Some true -> bitLength (base ^ exp) <= 4096.
Proof.
  intros Hb He. rewrite fitsPrecisionExp_eq by exact Hb.
  destruct (Z.eqb_spec (Z.log2 base) 0) as [Hl|Hl].
  - intros _. apply log2_zero_iff_one in Hl; [|exact Hb]. subst base.
    rewrite Z.pow_1_l by exact He. unfold bitLength. simpl. lia.
  - destruct (Z.ltb_spec 4096 (Z.log2 base)); [discriminate|].
    intros E. injection E as E. apply Z.leb_le in E.
    assert (1 < base).
    { assert (base <> 1) by (intros ->; now apply Hl). lia. }
    pose proof (bitLength_pow_le base exp ltac:(lia) He). lia.
Qed.

Lemma Qred_shrinks (q : Q) :
  Z.abs (Qnum (Qred q)) <= Z.abs (Qnum q)
  /\ Zpos (Qden (Qred q)) <= Zpos (Qden q).
Proof.
  destruct q as [a b]. unfold Qred.
  pose proof (Z.ggcd_correct_divisors a (Zpos b)) as Hdiv.
  pose proof (Z.ggcd_gcd a (Zpos b)) as Hg.
  pose proof (Z.gcd_nonneg a (Zpos b)) as Hge.
  destruct (Z.ggcd a (Zpos b)) as [g [aa bb]]. cbn [fst] in Hg.
  rewrite <- Hg in Hge. clear Hg. destruct Hdiv as [Ha Hb].
  cbn [snd Qnum Qden].
  assert (Hgp : 0 < g).
  { destruct (Z.eq_dec g 0) as [->|]; [rewrite Z.mul_0_l in Hb|]; lia. }
  assert (Hbp : 0 < bb) by nia.
  rewrite Z2Pos.id by lia. split; [|nia].
  rewrite Ha, Z.abs_mul. pose proof (Z.abs_nonneg aa). nia.
Qed.

Lemma quotient_of_integers (u v : Z) :
  v <> 0 ->
  Z.abs (Qnum (inject_Z u / inject_Z v)) = Z.abs u
  /\ Zpos (Qden (inject_Z u / inject_Z v)) = Z.abs v.
Proof.
  intros Hv. destruct v as [|p|p]; [lia| |];
    unfold Qdiv, Qmult, Qinv, inject_Z; simpl; split; lia.
Qed.

(** X4. Every value produced by [**] has a numerator and a denominator of at
    most 4096 bits. *)
Theorem evaluateBinaryOperator_exp_bounded fits (x y r : rational) :
  evaluateBinaryOperator fits Token.Exp x y = Some r ->
  bitLength (Z.abs (numerator r)) <= 4096 /\ bitLength (denominator r) <= 4096.
Proof.
  intros H. apply evaluateBinaryOperator_exp_inv in H. cbv zeta in H.
  destruct H as [Hd H].
  destruct H as [[He ->]|[(He & Hx & ->)|[(He & -> & ->)|H]]].
  - rewrite numerator_of_bigint, denominator_of_bigint. now vm_compute.
  - destruct Hx as [-> | ->];
      rewrite numerator_of_bigint, denominator_of_bigint; now vm_compute.
  - rewrite numerator_of_bigint, denominator_of_bigint.
    destruct (Z.even (numerator y)); now vm_compute.
  - destruct H as (He & Hn & F1 & F2 & ->).
    pose proof (denominator_pos x) as Hdp.
    apply fitsPrecisionExp_bits in F1, F2; try lia.
    rewrite <- Z.abs_pow in F1, F2.
    assert (Hnp : numerator x ^ Z.abs (numerator y) <> 0)
      by (apply Z.pow_nonzero; lia).
    assert (Hdq : denominator x ^ Z.abs (numerator y) <> 0)
      by (apply Z.pow_nonzero; lia).
    unfold bitLength in *.
    destruct (0 <=? numerator y); unfold numerator, denominator in *;
      cbn [this Q2Qc];
      match goal with
      | |- context [Qred ?q] =>
          destruct (Qred_shrinks q) as [Hs1 Hs2]
      end;
      match type of Hs1 with
      | context [(inject_Z ?u / inject_Z ?v)%Q] =>
          destruct (quotient_of_integers u v ltac:(assumption)) as [Hq1 Hq2]
      end;
      rewrite Hq1 in Hs1; rewrite Hq2 in Hs2;
      apply Z.log2_le_mono in Hs1, Hs2; lia.
Qed.

Lemma evaluateBinaryOperator_exp_bounded_witness :
  bitLength (Z.abs (numerator (Q2Qc (27 # 8)))) <= 4096
  /\ bitLength (denominator (Q2Qc (27 # 8))) <= 4096.
Proof.
  apply (evaluateBinaryOperator_exp_bounded fitsPrecisionBaseX_spec
           (Q2Qc (2 # 3)) (rational_of_bigint (-3)) (Q2Qc (27 # 8))).
  reflexivity.
Defined.
(** *** The remainder *)

Lemma rational_of_bigint_sub (a b : Z) :
  rational_of_bigint (a - b) = (rational_of_bigint a - rational_of_bigint b)%Qc.
Proof.
  apply Qc_is_canon. unfold Qcminus, Qcplus, Qcopp, rational_of_bigint.
  cbn [this Q2Qc]. rewrite !Qred_correct.
  unfold Qeq, Qplus, Qopp, inject_Z; simpl. lia.
Qed.

Lemma rational_of_bigint_mul (a b : Z) :
  rational_of_bigint (a * b) = (rational_of_bigint a * rational_of_bigint b)%Qc.
Proof.
  apply Qc_is_canon. unfold Qcmult, rational_of_bigint.
  cbn [this Q2Qc]. rewrite !Qred_correct.
  unfold Qeq, Qmult, inject_Z; simpl. lia.
Qed.

Lemma truncate_Qeq (p q : Q) :
  (p == q)%Q -> Z.quot (Qnum p) (Zpos (Qden p)) = Z.quot (Qnum q) (Zpos (Qden q)).
Proof.
  destruct p as [a b], q as [c d]. unfold Qeq. simpl. intros H.
  rewrite <- (Z.quot_mul_cancel_r a (Zpos b) (Zpos d)) by lia.
  rewrite H, (Z.mul_comm (Zpos b)).
  now rewrite Z.quot_mul_cancel_r by lia.
Qed.

Lemma truncate_quotient (n m : Z) :
  m <> 0 ->
  truncate (rational_of_bigint n / rational_of_bigint m)%Qc = Z.quot n m.
Proof.
  intros Hm. unfold truncate, numerator, denominator, Qcdiv, Qcmult, Qcinv.
  cbn [this Q2Qc rational_of_bigint].
  rewrite (truncate_Qeq _ (inject_Z n / inject_Z m)).
  - destruct m as [|p|p]; [lia| |];
      unfold Qdiv, Qmult, Qinv, inject_Z; simpl.
    + now rewrite Z.mul_1_r.
    + change (Z.neg p) with (- Z.pos p).
      rewrite Z.quot_opp_r, <- Z.quot_opp_l by lia. f_equal. lia.
  - rewrite !Qred_correct. reflexivity.
Qed.

Lemma evaluateBinaryOperator_mod_value fits (x y : rational) :
  y <> rational_of_bigint 0 ->
  evaluateBinaryOperator fits Token.Mod x y
  = Some (x - rational_of_bigint (truncate (x / y)) * y)%Qc.
Proof.
  intros Hy. unfold evaluateBinaryOperator.
  destruct (rat_eqb y (rational_of_bigint 0)) eqn:E.
  { apply rat_eqb_true in E. contradiction. }
  destruct (Z.eqb_spec (denominator x) 1) as [Hdx|Hdx]; [|reflexivity].
  destruct (Z.eqb_spec (denominator y) 1) as [Hdy|Hdy]; [|reflexivity].
  cbn [negb orb]. cbv iota. f_equal.
  assert (Hm : numerator y <> 0).
  { intros Hz. apply Hy. rewrite (integral_rational y Hdy), Hz. reflexivity. }
  pose proof (integral_rational x Hdx) as Hx.
  pose proof (integral_rational y Hdy) as Hy'.
  set (n := numerator x) in *. set (m := numerator y) in *.
  rewrite Hx, Hy', truncate_quotient by exact Hm.
  rewrite <- rational_of_bigint_mul, <- rational_of_bigint_sub.
  f_equal. pose proof (Z.quot_rem' n m). lia.
Qed.

Lemma fractional_part (q : rational) :
  let f := this (q - rational_of_bigint (truncate q))%Qc in
  (Qabs f < 1)%Q /\ (0 <= f * this q)%Q.
Proof.
  cbv zeta.
  assert (Hf : (this (q - rational_of_bigint (truncate q))%Qc
                == Z.rem (numerator q) (denominator q) # Qden (this q))%Q).
  { unfold Qcminus, Qcplus, Qcopp, rational_of_bigint, truncate,
      numerator, denominator.
    cbn [this Q2Qc]. rewrite !Qred_correct.
    destruct (this q) as [a b]. cbn [Qnum Qden].
    pose proof (Z.quot_rem' a (Zpos b)).
    unfold Qeq, Qplus, Qopp, inject_Z; simpl. nia. }
  pose proof (denominator_pos q) as Hb.
  pose proof (Z.rem_bound_abs (numerator q) (denominator q) ltac:(lia)) as Hr.
  pose proof (Z.rem_sign_mul (numerator q) (denominator q) ltac:(lia)) as Hs.
  split.
  - rewrite Hf. unfold Qlt, Qabs. cbn [Qnum Qden].
    unfold denominator in *. lia.
  - rewrite Hf. unfold Qle, Qmult, numerator, denominator in *.
    destruct (this q) as [a b]. cbn [Qnum Qden] in *. nia.
Qed.

(** X5. For a nonzero [y], [x % y] is [x - trunc(x / y) * y] with the
    quotient truncated towards zero, by the same formula whether the
    operands are integers or fractions; the result is smaller than [y] in
    absolute value and never has the sign opposite to [x]. *)
Theorem evaluateBinaryOperator_mod_remainder fits (x y : rational) :
  y <> rational_of_bigint 0 ->
  exists r,
    evaluateBinaryOperator fits Token.Mod x y = Some r
    /\ r = (x - rational_of_bigint (truncate (x / y)) * y)%Qc
    /\ (Qabs (this r) < Qabs (this y))%Q
    /\ (0 <= this r * this x)%Q.
Proof.
  intros Hy. eexists. split; [now apply evaluateBinaryOperator_mod_value|].
  split; [reflexivity|].
  set (q := (x / y)%Qc).
  assert (Hy0 : y <> 0%Qc) by exact Hy.
  assert (Hr : @eq Qc (x - rational_of_bigint (truncate q) * y)%Qc
                 ((q - rational_of_bigint (truncate q)) * y)%Qc).
  { generalize (rational_of_bigint (truncate q)). intros t.
    unfold q, rational in *. field. exact Hy0. }
  assert (Hx : @eq Qc x (q * y)%Qc)
    by (unfold q, rational in *; field; exact Hy0).
  destruct (fractional_part q) as [Hlt Hsign].
  set (f := (q - rational_of_bigint (truncate q))%Qc) in *.
  rewrite Hr.
  assert (Hfy : (this (f * y)%Qc == this f * this y)%Q)
    by (unfold Qcmult; cbn [this Q2Qc]; apply Qred_correct).
  assert (Hqy : (this x == this q * this y)%Q)
    by (rewrite Hx at 1; unfold Qcmult; cbn [this Q2Qc]; apply Qred_correct).
  assert (Hypos : (0 < Qabs (this y))%Q).
  { assert (Hn : numerator y <> 0).
    { intros Hz. apply Hy.
      rewrite (integral_rational y (numerator_zero y Hz)), Hz. reflexivity. }
    unfold numerator in Hn. destruct (this y) as [a b].
    unfold Qlt, Qabs. cbn [Qnum Qden] in *. lia. }
  split.
  - rewrite Hfy, Qabs_Qmult.
    pose proof (Qmult_lt_compat_r _ _ _ Hypos Hlt) as H.
    now rewrite Qmult_1_l in H.
  - rewrite Hfy, Hqy.
    assert (E : (this f * this y * (this q * this y)
                 == (this f * this q) * (this y * this y))%Q) by ring.
    rewrite E. apply Qmult_le_0_compat; [exact Hsign|].
    unfold Qle, Qmult. simpl. nia.
Qed.

Lemma evaluateBinaryOperator_mod_remainder_witness :
  exists r,
    evaluateBinaryOperator fitsPrecisionBaseX_spec Token.Mod
      (Q2Qc (-7 # 2)) (rational_of_bigint 2) = Some r
    /\ r = (Q2Qc (-7 # 2)
            - rational_of_bigint
                (truncate (Q2Qc (-7 # 2) / rational_of_bigint 2))
              * rational_of_bigint 2)%Qc
    /\ (Qabs (this r) < Qabs (this (rational_of_bigint 2)))%Q
    /\ (0 <= this r * this (Q2Qc (-7 # 2)))%Q.
Proof.
  apply (evaluateBinaryOperator_mod_remainder fitsPrecisionBaseX_spec
           (Q2Qc (-7 # 2)) (rational_of_bigint 2)).
  intros E. apply (f_equal this) in E. vm_compute in E. congruence.
Defined.

(** *** Exact arithmetic *)

(** X6. Division is exact: for a nonzero [y], [x / y] has a value and
    multiplying that value by [y] gives [x] back, with no rounding; likewise
    subtracting [y] from [x + y] always gives [x]. *)
Theorem evaluateBinaryOperator_div_mul fits (x y : rational) :
  (y <> rational_of_bigint 0 ->
   exists q, evaluateBinaryOperator fits Token.Div x y = Some q
             /\ evaluateBinaryOperator fits Token.Mul q y = Some x)
  /\ (exists s, evaluateBinaryOperator fits Token.Add x y = Some s
                /\ evaluateBinaryOperator fits Token.Sub s y = Some x).
Proof.
  split.
  - intros Hy. assert (Hy0 : y <> 0%Qc) by exact Hy.
    exists (x / y)%Qc. split.
    + unfold evaluateBinaryOperator.
      destruct (rat_eqb y (rational_of_bigint 0)) eqn:E; [|reflexivity].
      apply rat_eqb_true in E. contradiction.
    + cbn [evaluateBinaryOperator]. f_equal.
      unfold rational in *. field. exact Hy0.
  - exists (x + y)%Qc. split; [reflexivity|].
    cbn [evaluateBinaryOperator]. f_equal. unfold rational in *. ring.
Qed.

Lemma evaluateBinaryOperator_div_mul_witness :
  exists q, evaluateBinaryOperator fitsPrecisionBaseX_spec Token.Div
              (rational_of_bigint 1) (rational_of_bigint 3) = Some q
            /\ evaluateBinaryOperator fitsPrecisionBaseX_spec Token.Mul
                 q (rational_of_bigint 3) = Some (rational_of_bigint 1).
Proof.
  apply (proj1 (evaluateBinaryOperator_div_mul fitsPrecisionBaseX_spec
                  (rational_of_bigint 1) (rational_of_bigint 3))).
  intros E. apply (f_equal this) in E. vm_compute in E. congruence.
Defined.

(** *** Bitwise operators *)

Lemma lnot_land (a b : Z) :
  Z.lnot (Z.land a b) = Z.lor (Z.lnot a) (Z.lnot b).
Proof.
  apply Z.bits_inj'. intros n Hn.
  rewrite Z.lor_spec, !Z.lnot_spec, Z.land_spec by exact Hn.
  now destruct (Z.testbit a n), (Z.testbit b n).
Qed.

Lemma lnot_lor (a b : Z) :
  Z.lnot (Z.lor a b) = Z.land (Z.lnot a) (Z.lnot b).
Proof.
  apply Z.bits_inj'. intros n Hn.
  rewrite Z.land_spec, !Z.lnot_spec, Z.lor_spec by exact Hn.
  now destruct (Z.testbit a n), (Z.testbit b n).
Qed.

Lemma rational_of_bigint_opp (a : Z) :
  rational_of_bigint (- a) = (- rational_of_bigint a)%Qc.
Proof.
  apply Qc_is_canon. unfold Qcopp, rational_of_bigint.
  cbn [this Q2Qc]. rewrite !Qred_correct.
  unfold Qeq, Qopp, inject_Z; simpl. lia.
Qed.

(** X9. The unary operators: [-x] is [0 - x] for every [x]; [~x] has a
    value exactly for an integral [x], which is [-x - 1] as the evaluator's
    own subtraction computes it, and applying [~] twice gives [x] back; no
    other unary operator has a value. *)
Theorem evaluateUnaryOperator_spec fits (op : Token.t) (x : rational) :
  evaluateUnaryOperator Token.Sub x
  = evaluateBinaryOperator fits Token.Sub (rational_of_bigint 0) x
  /\ (denominator x = 1 ->
      exists r, evaluateUnaryOperator Token.BitNot x = Some r
                /\ evaluateBinaryOperator fits Token.Sub (- x)%Qc
                     (rational_of_bigint 1) = Some r
                /\ evaluateUnaryOperator Token.BitNot r = Some x)
  /\ (denominator x <> 1 -> evaluateUnaryOperator Token.BitNot x = None)
  /\ (op <> Token.Sub -> op <> Token.BitNot ->
      evaluateUnaryOperator op x = None).
Proof.
  split; [|split; [|split]].
  - cbn [evaluateUnaryOperator evaluateBinaryOperator]. f_equal.
    unfold rational in *. change (rational_of_bigint 0) with 0%Qc. ring.
  - intros Hd. exists (rational_of_bigint (Z.lnot (numerator x))).
    unfold evaluateUnaryOperator.
    rewrite Hd, denominator_of_bigint, numerator_of_bigint.
    cbn [negb Z.eqb Pos.eqb]. split; [reflexivity|]. split.
    + cbn [evaluateBinaryOperator]. f_equal.
      rewrite (integral_rational x Hd) at 1.
      rewrite <- rational_of_bigint_opp, <- rational_of_bigint_sub.
      reflexivity.
    + rewrite Z.lnot_involutive. f_equal. symmetry.
      now apply integral_rational.
  - intros Hd. unfold evaluateUnaryOperator.
    now destruct (Z.eqb_spec (denominator x) 1).
  - intros Hs Hb. now destruct op.
Qed.

Lemma evaluateUnaryOperator_spec_witness :
  exists r, evaluateUnaryOperator Token.BitNot (rational_of_bigint 5) = Some r
            /\ evaluateBinaryOperator fitsPrecisionBaseX_spec Token.Sub
                 (- rational_of_bigint 5)%Qc (rational_of_bigint 1) = Some r
            /\ evaluateUnaryOperator Token.BitNot r
               = Some (rational_of_bigint 5).
Proof.
  apply (proj1 (proj2 (evaluateUnaryOperator_spec fitsPrecisionBaseX_spec
                         Token.BitNot (rational_of_bigint 5)))).
  reflexivity.
Defined.

(** X10. The bitwise binary operators [|], [^] and [&] have a value exactly
    when both operands are integers, and the value is an integer; with [~]
    they obey De Morgan's laws: [~(x & y)] is [~x | ~y] and [~(x | y)] is
    [~x & ~y]. *)
Theorem evaluateBinaryOperator_bitwise_integral fits (op : Token.t)
    (x y : rational) :
  op = Token.BitOr \/ op = Token.BitXor \/ op = Token.BitAnd ->
  (denominator x <> 1 \/ denominator y <> 1 ->
   evaluateBinaryOperator fits op x y = None)
  /\ (denominator x = 1 -> denominator y = 1 ->
      (exists r, evaluateBinaryOperator fits op x y = Some r
                 /\ denominator r = 1)
      /\ (exists nx ny,
            evaluateUnaryOperator Token.BitNot x = Some nx
            /\ evaluateUnaryOperator Token.BitNot y = Some ny
            /\ mbind (evaluateUnaryOperator Token.BitNot)
                 (evaluateBinaryOperator fits Token.BitAnd x y)
               = evaluateBinaryOperator fits Token.BitOr nx ny
            /\ mbind (evaluateUnaryOperator Token.BitNot)
                 (evaluateBinaryOperator fits Token.BitOr x y)
               = evaluateBinaryOperator fits Token.BitAnd nx ny)).
Proof.
  intros Hop. split.
  - intros Hd. unfold evaluateBinaryOperator.
    destruct (Z.eqb_spec (denominator x) 1), (Z.eqb_spec (denominator y) 1);
      cbn [negb orb]; destruct Hop as [-> | [-> | ->]]; try reflexivity;
      destruct Hd; contradiction.
  - intros Hx Hy. split.
    + unfold evaluateBinaryOperator. rewrite Hx, Hy. cbn [negb orb Z.eqb Pos.eqb].
      destruct Hop as [-> | [-> | ->]]; eexists; (split; [reflexivity|]);
        apply denominator_of_bigint.
    + exists (rational_of_bigint (Z.lnot (numerator x))),
        (rational_of_bigint (Z.lnot (numerator y))).
      unfold evaluateUnaryOperator, evaluateBinaryOperator.
      rewrite Hx, Hy, !denominator_of_bigint, !numerator_of_bigint.
      cbn [negb orb Z.eqb Pos.eqb mbind option_bind].
      rewrite !denominator_of_bigint, !numerator_of_bigint.
      cbn [negb orb Z.eqb Pos.eqb].
      now rewrite lnot_land, lnot_lor.
Qed.

Lemma evaluateBinaryOperator_bitwise_integral_witness :
  evaluateBinaryOperator fitsPrecisionBaseX_spec Token.BitXor
    (Q2Qc (1 # 2)) (rational_of_bigint 3) = None.
Proof.
  apply (proj1 (evaluateBinaryOperator_bitwise_integral
                  fitsPrecisionBaseX_spec Token.BitXor
                  (Q2Qc (1 # 2)) (rational_of_bigint 3)
                  (or_intror (or_introl eq_refl)))).
  left. vm_compute. congruence.
Defined.

(** *** The precision guard of exponentiation is monotone *)

(** X7. When [fitsPrecisionExp] accepts a power, it accepts every power of a
    base that is not larger and an exponent that is not larger; for a
    nonnegative base it never fails its assertion. *)
Theorem fitsPrecisionExp_monotone (base exp base' exp' : Z) :
  0 <= base' <= base -> exp' <= exp ->
  fitsPrecisionExp base exp = Some true ->
  fitsPrecisionExp base' exp' = Some true.
Proof.
  intros Hb He.
  destruct (Z.eq_dec base' 0) as [->|Hb']; [reflexivity|].
  rewrite !fitsPrecisionExp_eq by lia.
  pose proof (Z.log2_le_mono base' base ltac:(lia)) as Hl.
  pose proof (Z.log2_nonneg base').
  destruct (Z.eqb_spec (Z.log2 base') 0) as [|Hl0]; [reflexivity|].
  destruct (Z.eqb_spec (Z.log2 base) 0); [lia|].
  destruct (Z.ltb_spec 4096 (Z.log2 base)); [discriminate|].
  destruct (Z.ltb_spec 4096 (Z.log2 base')); [lia|].
  intros E. injection E as E. apply Z.leb_le in E. f_equal.
  apply Z.leb_le. destruct (Z.le_gt_cases 0 exp'); nia.
Qed.

Lemma fitsPrecisionExp_monotone_witness :
  fitsPrecisionExp 3 100 = Some true.
Proof.
  apply (fitsPrecisionExp_monotone 10 1000 3 100);
    [lia | lia | reflexivity].
Defined.

(** *** Conversion to an integer type stays within the type *)

Lemma truncate_within (n d lo hi : Z) :
  0 < d -> lo * d <= n <= hi * d -> lo <= Z.quot n d <= hi.
Proof.
  intros Hd H.
  pose proof (Z.quot_rem' n d) as Hqr.
  pose proof (Z.rem_bound_abs n d ltac:(lia)) as Hr.
  pose proof (Z.rem_sign_mul n d ltac:(lia)) as Hs.
  destruct (Z.le_gt_cases 0 n); split; nia.
Qed.

(** X8. A value converted to an integer type is an integer within the bounds
    of that type, carries that type, and converting it again to the same
    type changes nothing. *)
Theorem convertType_integer_range (v : rational) (minValue maxValue : Z)
    (converted : TypedRational) :
  convertType v (IntegerType minValue maxValue) = Some converted ->
  type converted = IntegerType minValue maxValue
  /\ denominator (value converted) = 1
  /\ minValue <= numerator (value converted) <= maxValue
  /\ convertType (value converted) (IntegerType minValue maxValue)
     = Some converted.
Proof.
  unfold convertType, rat_gt_int, rat_lt_int.
  pose proof (denominator_pos v) as Hd.
  destruct (Z.ltb_spec (maxValue * denominator v) (numerator v));
    [discriminate|].
  destruct (Z.ltb_spec (numerator v) (minValue * denominator v));
    [discriminate|].
  cbn [orb]. intros E. injection E as <-. cbn [type value].
  rewrite numerator_of_bigint, denominator_of_bigint.
  pose proof (truncate_within (numerator v) (denominator v) minValue maxValue
                Hd ltac:(lia)) as Ht.
  split; [reflexivity|]. split; [reflexivity|]. split; [exact Ht|].
  destruct (Z.ltb_spec (maxValue * 1) (Z.quot (numerator v) (denominator v)));
    [lia|].
  destruct (Z.ltb_spec (Z.quot (numerator v) (denominator v)) (minValue * 1));
    [lia|].
  cbn [orb]. now rewrite Z.quot_1_r.
Qed.

Lemma convertType_integer_range_witness :
  type (mkTypedRational (IntegerType 0 255) (rational_of_bigint 3))
  = IntegerType 0 255
  /\ denominator (value (mkTypedRational (IntegerType 0 255)
                           (rational_of_bigint 3))) = 1
  /\ 0 <= numerator (value (mkTypedRational (IntegerType 0 255)
                              (rational_of_bigint 3))) <= 255
  /\ convertType (value (mkTypedRational (IntegerType 0 255)
                           (rational_of_bigint 3))) (IntegerType 0 255)
     = Some (mkTypedRational (IntegerType 0 255) (rational_of_bigint 3)).
Proof.
  apply (convertType_integer_range (Q2Qc (7 # 2)) 0 255
           (mkTypedRational (IntegerType 0 255) (rational_of_bigint 3))).
  reflexivity.
Defined.

(** *** The left shift *)

(** X23. The left shift [x << s] has a value exactly when [x] and [s] are
    integers, [0 <= s <= uint32::max], and [x] is zero or the precision
    guard accepts [|x|] shifted by [s]; the value is then [x * 2^s].  Zero
    can be shifted by any such amount, whatever the guard answers. *)
Theorem evaluateBinaryOperator_shl_value fits (x s : rational) :
  (denominator x = 1 -> denominator s = 1 -> 0 <= numerator s <= uint32_max ->
   evaluateBinaryOperator fits Token.SHL x s
   = if (numerator x =? 0)
        || fitsPrecisionBase2 fits (Z.abs (numerator x)) (numerator s)
     then Some (rational_of_bigint (numerator x * 2 ^ numerator s))
     else None)
  /\ (denominator x <> 1 \/ denominator s <> 1
      \/ numerator s < 0 \/ uint32_max < numerator s ->
      evaluateBinaryOperator fits Token.SHL x s = None).
Proof.
  split.
  - intros Hdx Hds Hs.
    destruct (shift_amount_valid s Hds Hs) as [Hlt Hgt].
    unfold evaluateBinaryOperator. rewrite Hlt, Hgt, Hdx, Hds.
    change (negb (1 =? 1) || negb (1 =? 1)) with false. cbv iota.
    destruct (Z.eqb_spec (numerator x) 0) as [Hz|Hnz]; cbn [orb].
    + now rewrite Hz, Z.mul_0_l.
    + now destruct (fitsPrecisionBase2 fits _ _).
  - intros H. unfold evaluateBinaryOperator.
    destruct (Z.eqb_spec (denominator x) 1) as [Hdx|Hdx]; [|reflexivity].
    destruct (Z.eqb_spec (denominator s) 1) as [Hds|Hds]; [|reflexivity].
    cbn [negb orb]. unfold rat_lt_int, rat_gt_int. rewrite Hds.
    destruct (Z.ltb_spec (numerator s) (0 * 1)); [reflexivity|].
    destruct (Z.ltb_spec (uint32_max * 1) (numerator s)); [reflexivity|].
    lia.
Qed.

Lemma evaluateBinaryOperator_shl_value_witness :
  evaluateBinaryOperator fitsPrecisionBaseX_spec Token.SHL
    (rational_of_bigint (-5)) (rational_of_bigint 3)
  = Some (rational_of_bigint (-40))
  /\ evaluateBinaryOperator fitsPrecisionBaseX_spec Token.SHL
       (rational_of_bigint 1) (rational_of_bigint (-1)) = None.
Proof.
  split.
  - apply (proj1 (evaluateBinaryOperator_shl_value fitsPrecisionBaseX_spec
                    (rational_of_bigint (-5)) (rational_of_bigint 3)));
      [reflexivity | reflexivity | split; vm_compute; congruence].
  - apply (proj2 (evaluateBinaryOperator_shl_value fitsPrecisionBaseX_spec
                    (rational_of_bigint 1) (rational_of_bigint (-1)))).
    right; right; left. vm_compute. reflexivity.
Defined.

(** ** Part IV: further properties of the evaluator *)

Section EvaluateFurtherProperties.

Variable fitsPrecisionBaseX : Z -> Q -> Z -> bool.
Variable unaryOperatorResult : SolType -> Token.t -> option SolType.
Variable binaryOperatorResult : SolType -> Token.t -> SolType -> option SolType.
Variable tokenToString : Token.t -> string.
Variable typeToString : SolType -> string.
Variable declarations : gmap nat VariableDeclaration.

Local Abbreviation eval :=
  (evaluate fitsPrecisionBaseX unaryOperatorResult binaryOperatorResult
     tokenToString typeToString declarations).
Local Abbreviation acceptWith :=
  (accept fitsPrecisionBaseX unaryOperatorResult binaryOperatorResult
     tokenToString typeToString declarations).

Lemma evaluate_cached (fuel : nat) (node : ASTNode) (s s' : ConstantEvaluator)
    (v : option TypedRational) :
  eval fuel node s = Returns v s' -> m_values s' !! nodeId node = Some v.
Proof.
  destruct fuel as [|fuel]; [discriminate|].
  simpl. unfold evaluate_body.
  destruct (m_values s !! nodeId node) as [cached|] eqn:Hc.
  { intros E. injection E as <- <-. exact Hc. }
  assert (Hret : forall id s0,
             returnCached id s0 = Returns v s' -> m_values s' !! id = Some v).
  { intros id s0. unfold returnCached.
    destruct (m_values s0 !! id) eqn:E0; [|discriminate].
    intros E. injection E as <- <-. exact E0. }
  destruct node as [d|e]; simpl.
  - destruct (declarations !! d) as [varDecl|]; [|apply Hret].
    destruct (isConstant varDecl); simpl; [|discriminate].
    destruct (declValue varDecl) as [initializer|]; [|apply Hret].
    destruct (declType varDecl) as [t|]; [|apply Hret].
    destruct (32 <? S (m_depth s))%nat; [discriminate|].
    destruct (eval fuel _ _) as [v1 s1|s1|s1|]; simpl; try discriminate.
    apply Hret.
  - destruct (acceptWith _ e s) as [[] s1|s1|s1|]; simpl; try discriminate.
    apply Hret.
Qed.

End EvaluateFurtherProperties.

(** X11. The evaluator touches the error reporter only when it abandons the
    evaluation: when [evaluate] returns (or fails an assertion) the reports
    are unchanged, and when it throws it has appended exactly one fatal type
    error, with one of the codes 5210, 3667, 2643 and 6020. *)
Theorem evaluate_reports_only_when_fatal fitsPrecisionBaseX
    unaryOperatorResult binaryOperatorResult tokenToString typeToString
    (declarations : gmap nat VariableDeclaration)
    (fuel : nat) (node : ASTNode) (s : ConstantEvaluator) :
  match evaluate fitsPrecisionBaseX unaryOperatorResult binaryOperatorResult
          tokenToString typeToString declarations fuel node s with
  | Returns _ s' | AssertionFailed s' => m_errorReporter s' = m_errorReporter s
  | Fatal s' =>
      exists id l msg,
        m_errorReporter s'
        = m_errorReporter s ++ [mkDiagnostic FatalTypeError id l [] msg]
        /\ id ∈ [5210; 3667; 2643; 6020]
  | OutOfFuel => True
  end.
Proof.
  apply (evaluate_reports fitsPrecisionBaseX unaryOperatorResult
           binaryOperatorResult tokenToString typeToString declarations
           fuel node s).
Qed.

(** X12. Evaluation is memoised: when [evaluate] returns a value for a node,
    that value is stored for the node, and evaluating the node again returns
    the same value and changes nothing. *)
Theorem evaluate_memoised fitsPrecisionBaseX unaryOperatorResult
    binaryOperatorResult tokenToString typeToString
    (declarations : gmap nat VariableDeclaration)
    (fuel : nat) (node : ASTNode) (s s' : ConstantEvaluator)
    (v : option TypedRational) :
  let eval :=
    evaluate fitsPrecisionBaseX unaryOperatorResult binaryOperatorResult
      tokenToString typeToString declarations in
  eval fuel node s = Returns v s' ->
  m_values s' !! nodeId node = Some v
  /\ forall fuel', eval (S fuel') node s' = Returns v s'.
Proof.
  cbv zeta. intros E. apply evaluate_cached in E. split; [exact E|].
  intros fuel'. simpl. unfold evaluate_body. now rewrite E.
Qed.

Lemma evaluate_memoised_witness :
  m_values sevenEvaluated !! 1%nat = Some (Some sevenAsUint256)
  /\ forall fuel',
       evaluate fitsPrecisionBaseX_spec sameTypeUnary sameTypeBinary
         printToken printType (constantChain 0 1) (S fuel')
         (VariableDeclarationNode 1) sevenEvaluated
       = Returns (Some sevenAsUint256) sevenEvaluated.
Proof.
  apply (evaluate_memoised fitsPrecisionBaseX_spec sameTypeUnary
           sameTypeBinary printToken printType (constantChain 0 1) 3
           (VariableDeclarationNode 1) freshEvaluator sevenEvaluated
           (Some sevenAsUint256)).
  reflexivity.
Defined.

Lemma convertType_integer_inv (v : rational) (minValue maxValue : Z)
    (converted : TypedRational) :
  convertType v (IntegerType minValue maxValue) = Some converted ->
  converted
  = mkTypedRational (IntegerType minValue maxValue)
      (rational_of_bigint (Z.quot (numerator v) (denominator v)))
  /\ minValue <= Z.quot (numerator v) (denominator v) <= maxValue.
Proof.
  unfold convertType, rat_gt_int, rat_lt_int.
  pose proof (denominator_pos v) as Hd.
  destruct (Z.ltb_spec (maxValue * denominator v) (numerator v));
    [discriminate|].
  destruct (Z.ltb_spec (numerator v) (minValue * denominator v));
    [discriminate|].
  cbn [orb]. intros E. injection E as <-. split; [reflexivity|].
  apply truncate_within; [exact Hd|lia].
Qed.

(** X13. A constant declared with an integer type never evaluates to a value
    outside that type: when the evaluation of such a declaration, not yet
    memoised, returns a value, the value carries the declared type and is an
    integer within its bounds. *)
Theorem evaluate_integer_constant fitsPrecisionBaseX unaryOperatorResult
    binaryOperatorResult tokenToString typeToString
    (declarations : gmap nat VariableDeclaration)
    (fuel d : nat) (varDecl : VariableDeclaration) (minValue maxValue : Z)
    (s s' : ConstantEvaluator) (result : TypedRational) :
  declarations !! d = Some varDecl ->
  declType varDecl = Some (IntegerType minValue maxValue) ->
  m_values s !! d = None ->
  evaluate fitsPrecisionBaseX unaryOperatorResult binaryOperatorResult
    tokenToString typeToString declarations fuel (VariableDeclarationNode d) s
  = Returns (Some result) s' ->
  type result = IntegerType minValue maxValue
  /\ denominator (value result) = 1
  /\ minValue <= numerator (value result) <= maxValue.
Proof.
  intros Hd Ht Hc. destruct fuel as [|fuel]; [discriminate|].
  simpl. unfold evaluate_body. cbn [nodeId]. rewrite Hc, Hd, Ht.
  destruct (isConstant varDecl); simpl; [|discriminate].
  destruct (declValue varDecl) as [initializer|].
  - destruct (32 <? S (m_depth s))%nat; [discriminate|].
    destruct (evaluate _ _ _ _ _ _ fuel _ _) as [v s1|s1|s1|]; simpl;
      try discriminate.
    unfold returnCached. simpl. rewrite lookup_insert_eq.
    intros E. injection E as E _.
    destruct v as [v|]; simpl in E; [|discriminate].
    apply convertType_integer_inv in E as [-> Hrange]. simpl.
    now rewrite numerator_of_bigint, denominator_of_bigint.
  - unfold returnCached. simpl. rewrite lookup_insert_eq. discriminate.
Qed.

Lemma evaluate_integer_constant_witness :
  type sevenAsUint256 = IntegerType 0 (2 ^ 256 - 1)
  /\ denominator (value sevenAsUint256) = 1
  /\ 0 <= numerator (value sevenAsUint256) <= 2 ^ 256 - 1.
Proof.
  apply (evaluate_integer_constant fitsPrecisionBaseX_spec sameTypeUnary
           sameTypeBinary printToken printType (constantChain 0 1) 3 1
           (mkVariableDeclaration (mkLoc 0 1 (Some "c.sol")) true
              (Some (Literal 1001
                       (Some (RationalNumberType (rational_of_bigint 7)))))
              (Some uint256))
           0 (2 ^ 256 - 1) freshEvaluator sevenEvaluated sevenAsUint256);
    reflexivity.
Defined.

(** *** Assertions *)

Lemma neverAsserts_bind {A B : Type} (m : Outcome A)
    (k : A -> ConstantEvaluator -> Outcome B) :
  neverAsserts m -> (forall a s', neverAsserts (k a s')) ->
  neverAsserts (bind m k).
Proof. destruct m; simpl; auto. Qed.

Lemma returnCached_stored id v (s : ConstantEvaluator) :
  returnCached id (setValue id v s) = Returns v (setValue id v s).
Proof. unfold returnCached, setValue. simpl. now rewrite lookup_insert_eq. Qed.

Section EvaluateAssertions.

Variable fitsPrecisionBaseX : Z -> Q -> Z -> bool.
Variable unaryOperatorResult : SolType -> Token.t -> option SolType.
Variable binaryOperatorResult : SolType -> Token.t -> SolType -> option SolType.
Variable tokenToString : Token.t -> string.
Variable typeToString : SolType -> string.
Variable declarations : gmap nat VariableDeclaration.

Local Abbreviation eval :=
  (evaluate fitsPrecisionBaseX unaryOperatorResult binaryOperatorResult
     tokenToString typeToString declarations).
Local Abbreviation acceptWith :=
  (accept fitsPrecisionBaseX unaryOperatorResult binaryOperatorResult
     tokenToString typeToString declarations).

Lemma accept_neverAsserts rec (e : Expression) (s : ConstantEvaluator) :
  (forall n s', evaluable declarations n -> neverAsserts (rec n s')) ->
  neverAsserts (acceptWith rec e s).
Proof.
  intros Hrec. destruct e as [id l op a b|id l op sub|id t|id d|id cs|id];
    simpl.
  - unfold endVisit_BinaryOperation.
    apply neverAsserts_bind; [now apply Hrec|]. intros left s1.
    apply neverAsserts_bind; [now apply Hrec|]. intros right s2.
    destruct left as [lv|], right as [rv|]; simpl; try exact I.
    destruct (isCompareOp op); [exact I|].
    destruct (binaryOperatorResult _ _ _) as [resultType|]; [|exact I].
    destruct (convertType (value lv) resultType); [|exact I].
    destruct (convertType (value rv) resultType); [|exact I].
    destruct (evaluateBinaryOperator _ _ _ _); [|exact I].
    now destruct (convertType _ _).
  - unfold endVisit_UnaryOperation.
    apply neverAsserts_bind; [now apply Hrec|]. intros v s1.
    destruct v as [v|]; simpl; [|exact I].
    destruct (unaryOperatorResult _ _) as [resultType|]; [|exact I].
    destruct (convertType (value v) resultType); [|exact I].
    destruct (evaluateUnaryOperator _ _); [|exact I].
    now destruct (convertType _ _).
  - unfold endVisit_Literal. now destruct t.
  - unfold endVisit_Identifier. destruct d as [d|]; [|exact I].
    destruct (declarations !! d) as [vd|] eqn:Hd; [|exact I].
    destruct (isConstant vd) eqn:Hc; [|exact I].
    apply neverAsserts_bind; [|intros; exact I].
    apply Hrec. now exists vd.
  - unfold endVisit_TupleExpression.
    destruct cs as [|inner [|? ?]]; try exact I.
    apply neverAsserts_bind; [now apply Hrec|]. intros; exact I.
  - exact I.
Qed.

Lemma evaluate_neverAsserts (fuel : nat) :
  forall (node : ASTNode) (s : ConstantEvaluator),
    evaluable declarations node -> neverAsserts (eval fuel node s).
Proof.
  induction fuel as [|fuel IH]; intros node s Hnode; [exact I|].
  simpl. unfold evaluate_body.
  destruct (m_values s !! nodeId node) as [cached|]; [exact I|].
  destruct node as [d|e].
  - destruct Hnode as (varDecl & -> & ->). cbn [negb].
    destruct (declValue varDecl) as [initializer|];
      [|now rewrite returnCached_stored].
    destruct (declType varDecl) as [t|]; [|now rewrite returnCached_stored].
    destruct (32 <? _)%nat; [exact I|].
    apply neverAsserts_bind; [now apply IH|]. intros v s'.
    unfold returnCached, setDepth, setValue. simpl.
    now rewrite lookup_insert_eq.
  - apply neverAsserts_bind.
    + apply accept_neverAsserts. intros n s' Hn. now apply IH.
    + intros [] s'. destruct (m_values s' !! expressionId e) eqn:Hc.
      * unfold returnCached. now rewrite Hc.
      * now rewrite returnCached_stored.
Qed.

End EvaluateAssertions.

(** X21. The assertions of the evaluator never fail: for an expression, or
    for the declaration of a constant, neither [solAssert(isConstant)] nor
    the final [m_values.at] throws, whatever the state of the evaluator. *)
Theorem evaluate_never_fails_assertion fitsPrecisionBaseX unaryOperatorResult
    binaryOperatorResult tokenToString typeToString
    (declarations : gmap nat VariableDeclaration)
    (fuel : nat) (node : ASTNode) (s s' : ConstantEvaluator) :
  evaluable declarations node ->
  evaluate fitsPrecisionBaseX unaryOperatorResult binaryOperatorResult
    tokenToString typeToString declarations fuel node s
  <> AssertionFailed s'.
Proof.
  intros Hnode E.
  pose proof (evaluate_neverAsserts fitsPrecisionBaseX unaryOperatorResult
                binaryOperatorResult tokenToString typeToString declarations
                fuel node s Hnode) as H.
  now rewrite E in H.
Qed.

Lemma evaluate_never_fails_assertion_witness :
  evaluate fitsPrecisionBaseX_spec sameTypeUnary sameTypeBinary printToken
    printType cyclicConstants 100 (ExpressionNode (Identifier 11 (Some 2%nat)))
    freshEvaluator
  <> AssertionFailed freshEvaluator.
Proof.
  apply (evaluate_never_fails_assertion fitsPrecisionBaseX_spec sameTypeUnary
           sameTypeBinary printToken printType cyclicConstants 100
           (ExpressionNode (Identifier 11 (Some 2%nat)))
           freshEvaluator freshEvaluator).
  exact I.
Defined.

(** *** Cyclic definitions never evaluate *)

Lemma returnsUnblocked_bind {A B : Type} (nodes : gset nat) (P Q : Prop)
    (m : Outcome A)
    (k : A -> ConstantEvaluator -> Outcome B) :
  returnsUnblocked nodes P m ->
  (forall a s', ~ P -> notMemoised nodes s' ->
                returnsUnblocked nodes Q (k a s')) ->
  returnsUnblocked nodes Q (bind m k).
Proof. destruct m; simpl; try tauto. intros [HP Hs] Hk. now apply Hk. Qed.

Lemma notMemoised_setValue (B : gset nat) (id : nat) v (s : ConstantEvaluator) :
  id ∉ B -> notMemoised B s -> notMemoised B (setValue id v s).
Proof.
  intros Hid Hs k Hk. unfold setValue. simpl.
  rewrite lookup_insert_ne; [now apply Hs|]. intros ->. contradiction.
Qed.

Lemma blocked_in (declarations : gmap nat VariableDeclaration) (B : gset nat)
    (e : Expression) :
  blocked declarations B e = true -> expressionId e ∈ B.
Proof.
  destruct e; simpl; intros H; apply andb_true_iff in H as [H _];
    now apply bool_decide_eq_true in H.
Qed.

Lemma consistent_unblocked (declarations : gmap nat VariableDeclaration)
    (B : gset nat) (e : Expression) :
  consistent declarations B e = true -> blocked declarations B e <> true ->
  expressionId e ∉ B.
Proof.
  intros Hc Hb Hin. apply Hb.
  destruct e; cbn [consistent] in Hc; apply andb_true_iff in Hc as [Hc _];
    rewrite bool_decide_eq_true_2 in Hc by exact Hin; exact Hc.
Qed.

Lemma cyclicDefinitions_declaration
    (declarations : gmap nat VariableDeclaration) (B : gset nat) d varDecl :
  cyclicDefinitions declarations B = true ->
  declarations !! d = Some varDecl ->
  (d ∈ B -> isConstant varDecl = true ->
   exists initializer t,
     declValue varDecl = Some initializer /\ declType varDecl = Some t
     /\ blocked declarations B initializer = true)
  /\ (forall initializer, declValue varDecl = Some initializer ->
        consistent declarations B initializer = true).
Proof.
  intros Hall Hd. unfold cyclicDefinitions in Hall.
  rewrite forallb_forall in Hall.
  specialize (Hall (d, varDecl)). cbn [fst snd] in Hall.
  apply andb_true_iff in Hall as [H1 H2].
  2: { apply list_elem_of_In. now apply elem_of_map_to_list. }
  split.
  - intros Hin Hc. rewrite bool_decide_eq_true_2, Hc in H1 by exact Hin.
    cbn [negb orb] in H1.
    destruct (declValue varDecl) as [initializer|]; [|discriminate].
    destruct (declType varDecl) as [t|]; [|discriminate].
    now exists initializer, t.
  - intros initializer Hv. now rewrite Hv in H2.
Qed.

Section CyclicDefinitions.

Variable fitsPrecisionBaseX : Z -> Q -> Z -> bool.
Variable unaryOperatorResult : SolType -> Token.t -> option SolType.
Variable binaryOperatorResult : SolType -> Token.t -> SolType -> option SolType.
Variable tokenToString : Token.t -> string.
Variable typeToString : SolType -> string.
Variable declarations : gmap nat VariableDeclaration.
Variable B : gset nat.
Hypothesis B_cyclic : cyclicDefinitions declarations B = true.

Local Abbreviation eval :=
  (evaluate fitsPrecisionBaseX unaryOperatorResult binaryOperatorResult
     tokenToString typeToString declarations).
Local Abbreviation acceptWith :=
  (accept fitsPrecisionBaseX unaryOperatorResult binaryOperatorResult
     tokenToString typeToString declarations).

Lemma accept_returnsUnblocked rec (e : Expression) (s : ConstantEvaluator) :
  (forall n s', consistentNode declarations B n -> notMemoised B s' ->
     returnsUnblocked B (blockedNode declarations B n) (rec n s')) ->
  consistent declarations B e = true -> notMemoised B s ->
  returnsUnblocked B (blocked declarations B e = true) (acceptWith rec e s).
Proof.
  intros Hrec Hc Hs.
  assert (Hset : forall v s', blocked declarations B e <> true ->
             notMemoised B s' ->
             returnsUnblocked (A := unit) B (blocked declarations B e = true)
               (Returns tt (setValue (expressionId e) v s'))).
  { intros v s' Hb Hs'. split; [exact Hb|].
    apply notMemoised_setValue; [|exact Hs'].
    now apply consistent_unblocked with (declarations := declarations). }
  assert (Hkeep : forall s', blocked declarations B e <> true ->
             notMemoised B s' ->
             returnsUnblocked (A := unit) B (blocked declarations B e = true)
               (Returns tt s')) by (intros s' Hb Hs'; now split).
  destruct e as [id l op a b|id l op sub|id t|id d|id cs|id].
  - simpl in Hc. apply andb_true_iff in Hc as [_ Hc].
    apply andb_true_iff in Hc as [Hca Hcb].
    cbn [accept]. unfold endVisit_BinaryOperation.
    eapply returnsUnblocked_bind; [apply (Hrec (ExpressionNode a)); assumption|].
    intros left s1 Hba Hs1.
    eapply returnsUnblocked_bind; [apply (Hrec (ExpressionNode b)); assumption|].
    intros right s2 Hbb Hs2. cbn [blockedNode] in Hba, Hbb.
    assert (Hb : blocked declarations B (BinaryOperation id l op a b) <> true).
    { simpl. destruct (blocked declarations B a); [contradiction|].
      destruct (blocked declarations B b); [contradiction|].
      now rewrite andb_false_r. }
    destruct left as [lv|], right as [rv|]; simpl; try now apply Hkeep.
    destruct (isCompareOp op); [now apply Hkeep|].
    destruct (binaryOperatorResult _ _ _) as [resultType|]; [|exact I].
    destruct (convertType (value lv) resultType); [|now apply Hkeep].
    destruct (convertType (value rv) resultType); [|now apply Hkeep].
    destruct (evaluateBinaryOperator _ _ _ _); [|now apply Hkeep].
    destruct (convertType _ _); [|exact I].
    now apply Hset.
  - simpl in Hc. apply andb_true_iff in Hc as [_ Hc].
    cbn [accept]. unfold endVisit_UnaryOperation.
    eapply returnsUnblocked_bind;
      [apply (Hrec (ExpressionNode sub)); assumption|].
    intros v s1 Hbs Hs1. cbn [blockedNode] in Hbs.
    assert (Hb : blocked declarations B (UnaryOperation id l op sub) <> true).
    { simpl. destruct (blocked declarations B sub); [contradiction|].
      now rewrite andb_false_r. }
    destruct v as [v|]; simpl; [|now apply Hkeep].
    destruct (unaryOperatorResult _ _) as [resultType|]; [|now apply Hkeep].
    destruct (convertType (value v) resultType); [|now apply Hkeep].
    destruct (evaluateUnaryOperator _ _); [|now apply Hkeep].
    destruct (convertType _ _); [|exact I].
    now apply Hset.
  - assert (Hb : blocked declarations B (Literal id t) <> true)
      by (simpl; now rewrite andb_false_r).
    cbn [accept]. unfold endVisit_Literal.
    destruct t; [now apply (Hset _ s)|now apply Hkeep].
  - cbn [accept]. unfold endVisit_Identifier.
    destruct d as [d|].
    2: { apply Hkeep; [|exact Hs]. simpl. now rewrite andb_false_r. }
    destruct (declarations !! d) as [vd|] eqn:Hd.
    2: { apply Hkeep; [|exact Hs]. simpl. rewrite Hd.
         now rewrite !andb_false_r. }
    destruct (isConstant vd) eqn:Hconst.
    2: { apply Hkeep; [|exact Hs]. simpl. rewrite Hd, Hconst.
         now rewrite !andb_false_r. }
    eapply returnsUnblocked_bind;
      [apply (Hrec (VariableDeclarationNode d)); [exact I|exact Hs]|].
    intros v s1 Hbd Hs1. cbn [blockedNode] in Hbd.
    apply (Hset v s1); [|exact Hs1].
    simpl. rewrite (bool_decide_eq_false_2 (d ∈ B)) by exact Hbd.
    cbn [andb]. now rewrite andb_false_r.
  - cbn [accept]. unfold endVisit_TupleExpression.
    destruct cs as [|inner [|c cs]].
    + apply Hkeep; [|exact Hs]. simpl. now rewrite andb_false_r.
    + simpl in Hc. apply andb_true_iff in Hc as [_ Hc].
      eapply returnsUnblocked_bind;
        [apply (Hrec (ExpressionNode inner)); assumption|].
      intros v s1 Hbi Hs1. cbn [blockedNode] in Hbi.
      apply (Hset v s1); [|exact Hs1].
      simpl. destruct (blocked declarations B inner); [contradiction|].
      now rewrite andb_false_r.
    + apply Hkeep; [|exact Hs]. simpl. now rewrite andb_false_r.
  - apply Hkeep; [|exact Hs]. simpl. now rewrite andb_false_r.
Qed.

Lemma evaluate_returnsUnblocked (fuel : nat) :
  forall (node : ASTNode) (s : ConstantEvaluator),
    consistentNode declarations B node -> notMemoised B s ->
    returnsUnblocked B (blockedNode declarations B node) (eval fuel node s).
Proof.
  induction fuel as [|fuel IH]; intros node s Hnode Hs; [exact I|].
  assert (Hid : blockedNode declarations B node -> nodeId node ∈ B).
  { destruct node as [d|e]; simpl; [auto|apply blocked_in]. }
  simpl. unfold evaluate_body.
  destruct (m_values s !! nodeId node) as [cached|] eqn:Hcached.
  { split; [|exact Hs]. intros Hb. apply Hid, Hs in Hb. congruence. }
  destruct node as [d|e]; cbn [nodeId blockedNode] in *.
  - destruct (declarations !! d) as [varDecl|] eqn:Hd.
    2: { unfold returnCached. now rewrite Hcached. }
    destruct (cyclicDefinitions_declaration declarations B d varDecl
                B_cyclic Hd) as [Hblocked Hconsistent].
    destruct (isConstant varDecl) eqn:Hconst; cbn [negb]; [|exact I].
    assert (Hstore : forall v s',
               (d ∈ B -> False) -> notMemoised B s' ->
               returnsUnblocked B (d ∈ B)
                 (returnCached d
                    (setDepth (pred (m_depth (setValue d v s')))
                       (setValue d v s')))).
    { intros v s' Hnb Hs'. unfold returnCached, setDepth, setValue. simpl.
      rewrite lookup_insert_eq. split; [exact Hnb|].
      intros k Hk. simpl. rewrite lookup_insert_ne; [now apply Hs'|].
      intros ->. now apply Hnb. }
    destruct (declValue varDecl) as [initializer|] eqn:Hv.
    2: { rewrite returnCached_stored. split.
         - intros Hin. destruct (Hblocked Hin eq_refl) as (? & ? & ? & _).
           discriminate.
         - apply notMemoised_setValue; [|exact Hs].
           intros Hin. destruct (Hblocked Hin eq_refl) as (? & ? & ? & _).
           discriminate. }
    destruct (declType varDecl) as [t|] eqn:Ht.
    2: { rewrite returnCached_stored. split.
         - intros Hin. destruct (Hblocked Hin eq_refl) as (? & ? & _ & ? & _).
           discriminate.
         - apply notMemoised_setValue; [|exact Hs].
           intros Hin. destruct (Hblocked Hin eq_refl) as (? & ? & _ & ? & _).
           discriminate. }
    destruct (32 <? _)%nat; [exact I|].
    eapply returnsUnblocked_bind.
    + apply (IH (ExpressionNode initializer)); [now apply Hconsistent|].
      exact Hs.
    + intros v s1 Hbi Hs1. cbn [blockedNode] in Hbi.
      apply (Hstore (convertType_opt v t) s1); [|exact Hs1].
      intros Hin. destruct (Hblocked Hin eq_refl) as (i & t' & Hi & _ & Hbl).
      injection Hi as <-. contradiction.
  - eapply returnsUnblocked_bind.
    + apply accept_returnsUnblocked; [|exact Hnode|exact Hs].
      intros n s' Hn Hs'. now apply IH.
    + intros [] s1 Hb Hs1.
      assert (Hnin : expressionId e ∉ B)
        by now apply consistent_unblocked with (declarations := declarations).
      destruct (m_values s1 !! expressionId e) eqn:Hc.
      * unfold returnCached. rewrite Hc. now split.
      * rewrite returnCached_stored. split; [exact Hb|].
        now apply notMemoised_setValue.
Qed.

End CyclicDefinitions.

(** X22. A cyclic definition never evaluates to a value.  For a set of
    nodes that wait for each other (the constants on a cycle of definitions
    and the nodes between each of them and its reference to the next,
    through any operators), none of them memoised: the evaluation of a
    constant of the set never returns, and with the fuel of [nodeFuel] it
    ends in a fatal type error, exactly one, added to the reports. *)
Theorem cyclic_definition_rejected fitsPrecisionBaseX unaryOperatorResult
    binaryOperatorResult tokenToString typeToString
    (declarations : gmap nat VariableDeclaration) (B : gset nat)
    (fuel d : nat) (varDecl : VariableDeclaration) (s : ConstantEvaluator) :
  let eval :=
    evaluate fitsPrecisionBaseX unaryOperatorResult binaryOperatorResult
      tokenToString typeToString declarations in
  cyclicDefinitions declarations B = true ->
  d ∈ B ->
  declarations !! d = Some varDecl -> isConstant varDecl = true ->
  (forall k, k ∈ B -> m_values s !! k = None) ->
  (forall v s', eval fuel (VariableDeclarationNode d) s <> Returns v s')
  /\ ((nodeFuel (initialiserHeight declarations) (VariableDeclarationNode d)
         (m_depth s) <= fuel)%nat ->
      exists s' id l msg,
        eval fuel (VariableDeclarationNode d) s = Fatal s'
        /\ m_errorReporter s'
           = m_errorReporter s ++ [mkDiagnostic FatalTypeError id l [] msg]).
Proof.
  cbv zeta. intros Hcyclic Hin Hd Hconst Hs.
  pose proof (evaluate_returnsUnblocked fitsPrecisionBaseX unaryOperatorResult
                binaryOperatorResult tokenToString typeToString declarations
                B Hcyclic fuel (VariableDeclarationNode d) s I Hs) as Hblocked.
  split.
  - intros v s' E. rewrite E in Hblocked. destruct Hblocked as [Hb _].
    now apply Hb.
  - intros Hfuel.
    pose proof (evaluate_bounded fitsPrecisionBaseX unaryOperatorResult
                  binaryOperatorResult tokenToString typeToString declarations
                  fuel (VariableDeclarationNode d) s Hfuel) as Hends.
    pose proof (evaluate_reports fitsPrecisionBaseX unaryOperatorResult
                  binaryOperatorResult tokenToString typeToString declarations
                  fuel (VariableDeclarationNode d) s) as Hreports.
    pose proof (evaluate_neverAsserts fitsPrecisionBaseX unaryOperatorResult
                  binaryOperatorResult tokenToString typeToString declarations
                  fuel (VariableDeclarationNode d) s
                  (ex_intro _ varDecl (conj Hd Hconst))) as Hassert.
    destruct (evaluate _ _ _ _ _ _ fuel _ s) as [v s'|s'|s'|].
    + destruct Hblocked as [Hb _]. exfalso. now apply Hb.
    + destruct Hreports as (id & l & msg & Hr & _).
      exists s', id, l, msg. now split.
    + contradiction.
    + contradiction.
Qed.

Lemma cyclic_definition_rejected_witness :
  exists s' id l msg,
    evaluate fitsPrecisionBaseX_spec sameTypeUnary sameTypeBinary printToken
      printType cyclicSums 200 (VariableDeclarationNode 1) freshEvaluator
    = Fatal s'
    /\ m_errorReporter s'
       = m_errorReporter freshEvaluator
         ++ [mkDiagnostic FatalTypeError id l [] msg].
Proof.
  apply (proj2 (cyclic_definition_rejected fitsPrecisionBaseX_spec
                  sameTypeUnary sameTypeBinary printToken printType
                  cyclicSums cyclicSumsNodes 200 1
                  (mkVariableDeclaration (mkLoc 0 28 (Some "c.sol")) true
                     (Some (BinaryOperation 10 (mkLoc 21 26 (Some "c.sol"))
                              Token.Add (Identifier 11 (Some 2%nat))
                              (Literal 12
                                 (Some (RationalNumberType
                                          (rational_of_bigint 1))))))
                     (Some uint256))
                  freshEvaluator
                  ltac:(vm_compute; reflexivity)
                  ltac:(vm_compute; set_solver)
                  ltac:(reflexivity) ltac:(reflexivity)
                  ltac:(intros k _; apply lookup_empty))).
  vm_compute. lia.
Defined.

(** *** Memoised values are well typed *)

Lemma convertType_wellTyped (v : rational) (t : SolType)
    (converted : TypedRational) :
  convertType v t = Some converted -> wellTyped converted.
Proof.
  destruct t as [c|minValue maxValue|tag]; [| |discriminate].
  - simpl. intros [= <-]. reflexivity.
  - intros H. apply convertType_integer_inv in H as [-> Hrange].
    unfold wellTyped. simpl.
    now rewrite numerator_of_bigint, denominator_of_bigint.
Qed.

Lemma constantToTypedValue_wellTyped (t : SolType) :
  wellTypedResult (constantToTypedValue t).
Proof. intros typed. destruct t; simpl; [|discriminate..]. now intros [= <-]. Qed.

Lemma convertType_opt_wellTyped (v : option TypedRational) (t : SolType) :
  wellTypedResult (convertType_opt v t).
Proof.
  intros typed. destruct v as [v|]; simpl; [|discriminate].
  apply convertType_wellTyped.
Qed.

Lemma wellTypedValues_setValue id v (s : ConstantEvaluator) :
  wellTypedResult v -> wellTypedValues s -> wellTypedValues (setValue id v s).
Proof.
  intros Hv Hs k w. unfold setValue. simpl.
  destruct (decide (id = k)) as [->|Hne].
  - rewrite lookup_insert_eq. now intros [= <-].
  - rewrite lookup_insert_ne by assumption. apply Hs.
Qed.

Lemma keepsWellTyped_bind {A B : Type} (P : A -> Prop) (Q : B -> Prop)
    (m : Outcome A) (k : A -> ConstantEvaluator -> Outcome B) :
  keepsWellTyped P m ->
  (forall a s', P a -> wellTypedValues s' -> keepsWellTyped Q (k a s')) ->
  keepsWellTyped Q (bind m k).
Proof. destruct m; simpl; try tauto. intros [Ha Hs] Hk. now apply Hk. Qed.

Lemma returnCached_wellTyped id (s : ConstantEvaluator) :
  wellTypedValues s -> keepsWellTyped wellTypedResult (returnCached id s).
Proof.
  intros Hs. unfold returnCached.
  destruct (m_values s !! id) eqn:E; simpl; [|exact Hs].
  split; [|exact Hs]. now apply (Hs id).
Qed.

Section WellTyped.

Variable fitsPrecisionBaseX : Z -> Q -> Z -> bool.
Variable unaryOperatorResult : SolType -> Token.t -> option SolType.
Variable binaryOperatorResult : SolType -> Token.t -> SolType -> option SolType.
Variable tokenToString : Token.t -> string.
Variable typeToString : SolType -> string.
Variable declarations : gmap nat VariableDeclaration.

Local Abbreviation eval :=
  (evaluate fitsPrecisionBaseX unaryOperatorResult binaryOperatorResult
     tokenToString typeToString declarations).
Local Abbreviation acceptWith :=
  (accept fitsPrecisionBaseX unaryOperatorResult binaryOperatorResult
     tokenToString typeToString declarations).

Lemma accept_wellTyped rec (e : Expression) (s : ConstantEvaluator) :
  (forall n s', wellTypedValues s' ->
                keepsWellTyped wellTypedResult (rec n s')) ->
  wellTypedValues s ->
  keepsWellTyped (fun _ => True) (acceptWith rec e s).
Proof.
  intros Hrec Hs.
  assert (Hkeep : forall s', wellTypedValues s' ->
             keepsWellTyped (A := unit) (fun _ => True) (Returns tt s'))
    by (intros s' Hs'; now split).
  assert (Hfatal : forall id l msg s', wellTypedValues s' ->
             keepsWellTyped (A := unit) (fun _ => True)
               (fatalTypeError id l msg s'))
    by (intros id l msg s' Hs'; exact Hs').
  destruct e as [id l op a b|id l op sub|id t|id d|id cs|id]; cbn [accept].
  - unfold endVisit_BinaryOperation.
    eapply keepsWellTyped_bind; [now apply Hrec|]. intros left s1 _ Hs1.
    eapply keepsWellTyped_bind; [now apply Hrec|]. intros right s2 _ Hs2.
    destruct left as [lv|], right as [rv|]; simpl; try now apply Hkeep.
    destruct (isCompareOp op); [now apply Hkeep|].
    destruct (binaryOperatorResult _ _ _) as [resultType|];
      [|now apply Hfatal].
    destruct (convertType (value lv) resultType); [|now apply Hkeep].
    destruct (convertType (value rv) resultType); [|now apply Hkeep].
    destruct (evaluateBinaryOperator _ _ _ _); [|now apply Hkeep].
    destruct (convertType _ _) as [converted|] eqn:E; [|now apply Hfatal].
    apply Hkeep, wellTypedValues_setValue; [|exact Hs2].
    intros typed [= <-]. eapply convertType_wellTyped, E.
  - unfold endVisit_UnaryOperation.
    eapply keepsWellTyped_bind; [now apply Hrec|]. intros v s1 _ Hs1.
    destruct v as [v|]; simpl; [|now apply Hkeep].
    destruct (unaryOperatorResult _ _) as [resultType|]; [|now apply Hkeep].
    destruct (convertType (value v) resultType); [|now apply Hkeep].
    destruct (evaluateUnaryOperator _ _); [|now apply Hkeep].
    destruct (convertType _ _) as [converted|] eqn:E; [|now apply Hfatal].
    apply Hkeep, wellTypedValues_setValue; [|exact Hs1].
    intros typed [= <-]. eapply convertType_wellTyped, E.
  - unfold endVisit_Literal. destruct t; [|now apply Hkeep].
    apply Hkeep, wellTypedValues_setValue; [|exact Hs].
    apply constantToTypedValue_wellTyped.
  - unfold endVisit_Identifier. destruct d as [d|]; [|now apply Hkeep].
    destruct (declarations !! d) as [vd|]; [|now apply Hkeep].
    destruct (isConstant vd); [|now apply Hkeep].
    eapply keepsWellTyped_bind; [now apply Hrec|]. intros v s1 Hv Hs1.
    now apply Hkeep, wellTypedValues_setValue.
  - unfold endVisit_TupleExpression.
    destruct cs as [|inner [|? ?]]; try now apply Hkeep.
    eapply keepsWellTyped_bind; [now apply Hrec|]. intros v s1 Hv Hs1.
    now apply Hkeep, wellTypedValues_setValue.
  - now apply Hkeep.
Qed.

Lemma evaluate_wellTyped (fuel : nat) :
  forall (node : ASTNode) (s : ConstantEvaluator),
    wellTypedValues s -> keepsWellTyped wellTypedResult (eval fuel node s).
Proof.
  induction fuel as [|fuel IH]; intros node s Hs; [exact I|].
  simpl. unfold evaluate_body.
  destruct (m_values s !! nodeId node) as [cached|] eqn:Hcached.
  { split; [|exact Hs]. now apply (Hs (nodeId node)). }
  assert (Hnone : wellTypedResult None) by (intros typed; discriminate).
  destruct node as [d|e].
  - destruct (declarations !! d) as [varDecl|];
      [|now apply returnCached_wellTyped].
    destruct (isConstant varDecl); cbn [negb]; [|exact Hs].
    destruct (declValue varDecl) as [initializer|].
    2: { now apply returnCached_wellTyped, wellTypedValues_setValue. }
    destruct (declType varDecl) as [t|].
    2: { now apply returnCached_wellTyped, wellTypedValues_setValue. }
    destruct (32 <? _)%nat; [exact Hs|].
    eapply keepsWellTyped_bind; [apply IH; exact Hs|].
    intros v s1 _ Hs1.
    apply (returnCached_wellTyped d
             (setDepth _ (setValue d (convertType_opt v t) s1))).
    apply (wellTypedValues_setValue d (convertType_opt v t) s1);
      [apply convertType_opt_wellTyped|exact Hs1].
  - eapply keepsWellTyped_bind.
    + apply accept_wellTyped; [|exact Hs]. intros n s' Hs'. now apply IH.
    + intros [] s1 _ Hs1. destruct (m_values s1 !! expressionId e).
      * now apply returnCached_wellTyped.
      * now apply returnCached_wellTyped, wellTypedValues_setValue.
Qed.

End WellTyped.

(** X24. The evaluator keeps types and values in agreement.  When every
    memoised value is well typed (an integer within the bounds of its
    integer type, or the constant of its rational-number type), so is the
    value [evaluate] returns and so is every value memoised afterwards,
    also when the evaluation is abandoned. *)
Theorem evaluate_well_typed fitsPrecisionBaseX unaryOperatorResult
    binaryOperatorResult tokenToString typeToString
    (declarations : gmap nat VariableDeclaration)
    (fuel : nat) (node : ASTNode) (s : ConstantEvaluator) :
  (forall k typed, m_values s !! k = Some (Some typed) -> wellTyped typed) ->
  match evaluate fitsPrecisionBaseX unaryOperatorResult binaryOperatorResult
          tokenToString typeToString declarations fuel node s with
  | Returns v s' =>
      (forall typed, v = Some typed -> wellTyped typed)
      /\ (forall k typed, m_values s' !! k = Some (Some typed) ->
            wellTyped typed)
  | Fatal s' | AssertionFailed s' =>
      forall k typed, m_values s' !! k = Some (Some typed) -> wellTyped typed
  | OutOfFuel => True
  end.
Proof.
  intros Hs.
  assert (Hs' : wellTypedValues s)
    by (intros k v Hk typed ->; now apply (Hs k)).
  pose proof (evaluate_wellTyped fitsPrecisionBaseX unaryOperatorResult
                binaryOperatorResult tokenToString typeToString declarations
                fuel node s Hs') as H.
  destruct (evaluate _ _ _ _ _ _ _ _ _) as [v s1|s1|s1|]; simpl in H.
  - destruct H as [Hv H1]. split; [exact Hv|].
    intros k typed Hk. now apply (H1 k (Some typed)).
  - intros k typed Hk. now apply (H k (Some typed)).
  - intros k typed Hk. now apply (H k (Some typed)).
  - exact I.
Qed.

Lemma evaluate_well_typed_witness :
  match evaluate fitsPrecisionBaseX_spec sameTypeUnary sameTypeBinary
          printToken printType (constantChain 0 1) 3
          (VariableDeclarationNode 1) freshEvaluator with
  | Returns v s' =>
      (forall typed, v = Some typed -> wellTyped typed)
      /\ (forall k typed, m_values s' !! k = Some (Some typed) ->
            wellTyped typed)
  | Fatal s' | AssertionFailed s' =>
      forall k typed, m_values s' !! k = Some (Some typed) -> wellTyped typed
  | OutOfFuel => True
  end.
Proof.
  apply (evaluate_well_typed fitsPrecisionBaseX_spec sameTypeUnary
           sameTypeBinary printToken printType (constantChain 0 1) 3
           (VariableDeclarationNode 1) freshEvaluator).
  intros k typed Hk. simpl in Hk. now rewrite lookup_empty in Hk.
Defined.

(** *** The entry point *)

(** X14. The entry point [evaluate(errorReporter, expression)] always ends,
    and no assertion fails: it returns a value, memoised for the expression
    and well typed, and leaves the reports as it found them, or it has added
    exactly one fatal type error to them; fuel for the height of the
    expression and 32 nested declarations suffices. *)
Theorem evaluateExpression_ends fitsPrecisionBaseX unaryOperatorResult
    binaryOperatorResult tokenToString typeToString
    (declarations : gmap nat VariableDeclaration)
    (fuel : nat) (reported : list Diagnostic) (e : Expression) :
  (height e + declarationFuel (initialiserHeight declarations) 0 <= fuel)%nat ->
  match evaluateExpression fitsPrecisionBaseX unaryOperatorResult
          binaryOperatorResult tokenToString typeToString declarations
          fuel reported e with
  | Returns v s' =>
      m_errorReporter s' = reported
      /\ m_values s' !! expressionId e = Some v
      /\ (forall typed, v = Some typed -> wellTyped typed)
  | Fatal s' =>
      exists id l msg,
        m_errorReporter s'
        = reported ++ [mkDiagnostic FatalTypeError id l [] msg]
  | AssertionFailed _ | OutOfFuel => False
  end.
Proof.
  intros Hfuel. unfold evaluateExpression.
  set (s := mkEvaluator reported 0 ∅).
  pose proof (evaluate_bounded fitsPrecisionBaseX unaryOperatorResult
                binaryOperatorResult tokenToString typeToString declarations
                fuel (ExpressionNode e) s Hfuel) as Hb.
  pose proof (evaluate_reports fitsPrecisionBaseX unaryOperatorResult
                binaryOperatorResult tokenToString typeToString declarations
                fuel (ExpressionNode e) s) as Hr.
  pose proof (evaluate_cached fitsPrecisionBaseX unaryOperatorResult
                binaryOperatorResult tokenToString typeToString declarations
                fuel (ExpressionNode e) s) as Hc.
  pose proof (evaluate_neverAsserts fitsPrecisionBaseX unaryOperatorResult
                binaryOperatorResult tokenToString typeToString declarations
                fuel (ExpressionNode e) s I) as Ha.
  assert (Hs : wellTypedValues s).
  { intros k v Hk. simpl in Hk. now rewrite lookup_empty in Hk. }
  pose proof (evaluate_wellTyped fitsPrecisionBaseX unaryOperatorResult
                binaryOperatorResult tokenToString typeToString declarations
                fuel (ExpressionNode e) s Hs) as Hw.
  destruct (evaluate _ _ _ _ _ _ _ _ _) as [v s'|s'|s'|]; simpl in *.
  - split; [exact Hr|]. split; [now apply Hc|]. now destruct Hw.
  - destruct Hr as (id & l & msg & Hr & _). now exists id, l, msg.
  - exact Ha.
  - exact Hb.
Qed.

Lemma evaluateExpression_ends_witness :
  match evaluateExpression fitsPrecisionBaseX_spec sameTypeUnary
          sameTypeBinary printToken printType cyclicConstants
          100 [] (Identifier 11 (Some 2%nat)) with
  | Returns v s' =>
      m_errorReporter s' = []
      /\ m_values s' !! 11%nat = Some v
      /\ (forall typed, v = Some typed -> wellTyped typed)
  | Fatal s' =>
      exists id l msg,
        m_errorReporter s' = [] ++ [mkDiagnostic FatalTypeError id l [] msg]
  | AssertionFailed _ | OutOfFuel => False
  end.
Proof.
  apply (evaluateExpression_ends fitsPrecisionBaseX_spec sameTypeUnary
           sameTypeBinary printToken printType cyclicConstants
           100 [] (Identifier 11 (Some 2%nat))).
  vm_compute. lia.
Defined.

(** ** Part V: further properties of the control-flow analysis *)

(** *** Propagation between nodes *)

Lemma union_size_same `{Countable K} (X Y : gset K) :
  (size X <? size (X ∪ Y))%nat = false <-> Y ⊆ X.
Proof.
  rewrite Nat.ltb_ge. split.
  - intros Hsize. destruct (decide (Y ⊆ X)) as [|Hn]; [assumption|].
    assert (Hlt : X ⊂ X ∪ Y) by set_solver.
    apply subset_size in Hlt. lia.
  - intros Hsub. replace (X ∪ Y) with X by set_solver. lia.
Qed.

Lemma propagateFrom_flag (self _entryNode : NodeInfo) :
  snd (propagateFrom self _entryNode) = false
  <-> unassignedVariablesAtExit _entryNode ⊆ unassignedVariablesAtEntry self
      /\ uninitializedVariableAccesses _entryNode
         ⊆ uninitializedVariableAccesses self.
Proof.
  unfold propagateFrom. cbn [fst snd unassignedVariablesAtEntry
                             uninitializedVariableAccesses].
  rewrite orb_false_iff, !union_size_same. reflexivity.
Qed.

Lemma propagateFrom_unchanged (self _entryNode : NodeInfo) :
  snd (propagateFrom self _entryNode) = false ->
  fst (propagateFrom self _entryNode) = self.
Proof.
  intros Hflag. apply propagateFrom_flag in Hflag as [H1 H2].
  destruct self as [atEntry atExit accesses]. unfold propagateFrom.
  cbn [fst unassignedVariablesAtEntry unassignedVariablesAtExit
       uninitializedVariableAccesses] in *.
  f_equal; set_solver.
Qed.

(** X15. [NodeInfo::propagateFrom] only adds: it joins the exit state of the
    predecessor into the entry state and the predecessor's flagged accesses
    into the flagged accesses, and leaves the exit state alone.  The flag it
    returns, found by comparing sizes, is true exactly when the receiver
    has changed; propagating the same information again returns false. *)
Theorem propagateFrom_spec (self _entryNode : NodeInfo) :
  let self' := fst (propagateFrom self _entryNode) in
  let changed := snd (propagateFrom self _entryNode) in
  unassignedVariablesAtEntry self'
  = unassignedVariablesAtEntry self ∪ unassignedVariablesAtExit _entryNode
  /\ unassignedVariablesAtExit self' = unassignedVariablesAtExit self
  /\ uninitializedVariableAccesses self'
     = uninitializedVariableAccesses self
       ∪ uninitializedVariableAccesses _entryNode
  /\ (changed = true <-> self' <> self)
  /\ snd (propagateFrom self' _entryNode) = false.
Proof.
  cbv zeta. split; [reflexivity|]. split; [reflexivity|].
  split; [reflexivity|]. split.
  - destruct (snd (propagateFrom self _entryNode)) eqn:Hflag.
    + split; [|reflexivity]. intros _ Heq.
      assert (Hf : snd (propagateFrom self _entryNode) = false);
        [|congruence].
      pose proof (f_equal unassignedVariablesAtEntry Heq) as H1.
      pose proof (f_equal uninitializedVariableAccesses Heq) as H2.
      unfold propagateFrom in H1, H2.
      cbn [fst unassignedVariablesAtEntry uninitializedVariableAccesses]
        in H1, H2.
      apply propagateFrom_flag. set_solver.
    + split; [discriminate|]. intros Hne. exfalso. apply Hne.
      now apply propagateFrom_unchanged.
  - apply propagateFrom_flag. unfold propagateFrom. cbn. set_solver.
Qed.

(** *** The traversal and the paths of the graph *)

(** Whether a variable is unassigned behind some occurrences depends only
    on whether it was before them. *)
Lemma replayOccurrence_pointwise p p' o (U U' : gset nat) A A' (v : nat) :
  (v ∈ U -> v ∈ U') ->
  v ∈ fst (replayOccurrence p o (U, A)) ->
  v ∈ fst (replayOccurrence p' o (U', A')).
Proof.
  unfold replayOccurrence. cbn [fst snd].
  destruct (CFG.kind o); try destruct (decide _); try destruct (decide _);
    cbn [fst]; set_solver.
Qed.

Lemma replay_pointwise n k n' k' l :
  forall (U U' : gset nat) A A' (v : nat),
    (v ∈ U -> v ∈ U') ->
    v ∈ fst (replay n k l (U, A)) -> v ∈ fst (replay n' k' l (U', A')).
Proof.
  revert k k'. induction l as [|o l IH]; intros k k' U U' A A' v HU; simpl;
    [exact HU|].
  destruct (replayOccurrence (n, k) o (U, A)) as [U1 A1] eqn:E1.
  destruct (replayOccurrence (n', k') o (U', A')) as [U2 A2] eqn:E2.
  apply IH. intros Hv.
  pose proof (replayOccurrence_pointwise (n, k) (n', k') o U U' A A' v HU) as H.
  rewrite E1, E2 in H. now apply H.
Qed.

Lemma unassignedBefore_pointwise l (U U' : gset nat) (i v : nat) :
  (v ∈ U -> v ∈ U') ->
  v ∈ unassignedBefore l U i -> v ∈ unassignedBefore l U' i.
Proof. unfold unassignedBefore. apply replay_pointwise. Qed.

Lemma afterNode_pointwise cfg n (U U' : gset nat) (v : nat) :
  (v ∈ U -> v ∈ U') -> v ∈ afterNode cfg n U -> v ∈ afterNode cfg n U'.
Proof. unfold afterNode. apply unassignedBefore_pointwise. Qed.

Lemma unassignedAfterPath_snoc cfg path b :
  unassignedAfterPath cfg (path ++ [b])
  = afterNode cfg b (unassignedAfterPath cfg path).
Proof. unfold unassignedAfterPath. now rewrite foldl_app. Qed.

(** *** Declared and not assigned since *)

Lemma declaredUnassigned_nil (v : nat) : ~ declaredUnassigned [] v.
Proof. intros (before & d & after & E & _). now destruct before. Qed.

(** One more occurrence met: the variable is declared and unassigned behind
    it when the occurrence declares it, or when it was so in front of the
    occurrence, which does not assign it. *)
Lemma declaredUnassigned_snoc (met : list CFG.VariableOccurrence)
    (o : CFG.VariableOccurrence) (v : nat) :
  declaredUnassigned (met ++ [o]) v
  <-> (CFG.kind o = VariableOccurrence.Declaration
       /\ CFG.id (CFG.declaration o) = v)
      \/ (declaredUnassigned met v
          /\ (CFG.kind o = VariableOccurrence.Assignment ->
              CFG.id (CFG.declaration o) <> v)).
Proof.
  split.
  - intros (before & d & after & E & Hk & Hid & Hafter).
    destruct (decide (after = [])) as [->|Hne].
    + apply app_inj_tail in E as [_ ->]. now left.
    + destruct (exists_last Hne) as (after' & o' & ->).
      change (before ++ d :: after' ++ [o'])
        with (before ++ (d :: after') ++ [o']) in E.
      rewrite app_assoc in E. apply app_inj_tail in E as [-> ->].
      right. split.
      * exists before, d, after'. repeat split; try assumption.
        intros a Ha. apply Hafter. set_solver.
      * apply Hafter. set_solver.
  - intros [[Hk Hid]|[(before & d & after & -> & Hk & Hid & Hafter) Ho]].
    + exists met, o, []. repeat split; try assumption. intros a Ha.
      now apply elem_of_nil in Ha.
    + exists before, d, (after ++ [o]). rewrite <- app_assoc.
      repeat split; try assumption.
      intros a Ha. apply elem_of_app in Ha as [Ha|Ha]; [now apply Hafter|].
      apply list_elem_of_singleton in Ha as ->. exact Ho.
Qed.

(** The unassigned set that the loop over the occurrences keeps, started
    empty, holds the variables declared and not assigned since. *)
Lemma replay_declaredUnassigned (met : list CFG.VariableOccurrence) (v : nat) :
  v ∈ fst (replay 0 0 met (∅, ∅)) <-> declaredUnassigned met v.
Proof.
  induction met as [|o met IH] using rev_ind.
  - simpl. split; [set_solver|]. intros H. now apply declaredUnassigned_nil in H.
  - rewrite replay_app, declaredUnassigned_snoc, <- IH. cbn [replay].
    destruct (replay 0 0 met (∅, ∅)) as [U A]. unfold replayOccurrence.
    cbn [fst snd].
    destruct (CFG.kind o) eqn:Hk; cbn [fst];
      try destruct (decide _); cbn [fst];
      try (split; [intros H; right; split; [exact H|discriminate]
                  |intros [[H _]|[H _]]; [discriminate H|exact H]]).
    + rewrite elem_of_union, elem_of_singleton. split.
      * intros [->|H]; [now left|]. right. split; [exact H|discriminate].
      * intros [[_ H]|[H _]]; [now left|now right].
    + rewrite elem_of_difference, not_elem_of_singleton. split.
      * intros [H Hne]. right. split; [exact H|]. intros _. congruence.
      * intros [[H _]|[H Hne]]; [discriminate H|].
        split; [exact H|]. intros ->. now apply Hne.
Qed.

Lemma unassignedAfterPath_replay cfg path :
  unassignedAfterPath cfg path
  = fst (replay 0 0 (occurrencesAlong cfg path) (∅, ∅)).
Proof.
  induction path as [|n path IH] using rev_ind; [reflexivity|].
  rewrite unassignedAfterPath_snoc, IH. unfold occurrencesAlong, afterNode.
  rewrite bind_app. cbn [mbind list_bind]. rewrite app_nil_r, replay_app.
  fold (occurrencesAlong cfg path).
  destruct (replay 0 0 (occurrencesAlong cfg path) (∅, ∅)) as [U A].
  cbn [fst]. symmetry. apply unassignedBefore_replay.
Qed.

Lemma unassignedBefore_declaredUnassigned cfg path occurrences i v :
  v ∈ unassignedBefore occurrences (unassignedAfterPath cfg path) i
  <-> declaredUnassigned (occurrencesAlong cfg path ++ take i occurrences) v.
Proof.
  rewrite <- replay_declaredUnassigned, replay_app, unassignedAfterPath_replay.
  unfold unassignedBefore.
  destruct (replay 0 0 (occurrencesAlong cfg path) (∅, ∅)) as [U A].
  cbn [fst].
  now rewrite (replay_fst 0 0 0 (0 + length (occurrencesAlong cfg path))
                 (take i occurrences) U ∅ A).
Qed.

(** The reads of a variable declared and not assigned since on some path are
    those that the replay of some path finds unassigned. *)
Lemma readsUnassignedOnPath_replays cfg _entry _exit p :
  readsUnassignedOnPath cfg _entry _exit p
  <-> replaysUnassignedOnPath cfg _entry _exit p.
Proof.
  unfold readsUnassignedOnPath, replaysUnassignedOnPath.
  split; intros (path & o & Hpath & Ho & Hk & Hin & Hreach);
    exists path, o; repeat split; try assumption;
    now apply unassignedBefore_declaredUnassigned.
Qed.

Lemma arrivesAt_reaches cfg _entry path n :
  arrivesAt cfg _entry path n -> reaches cfg _entry n.
Proof.
  induction 1 as [|path b c _ IH Hs]; [apply rtc_refl|].
  eapply rtc_r; eassumption.
Qed.

Section OnPaths.

Variable cfg : gmap nat CFG.CFGNode.
Variable _entry : nat.

(** A variable unassigned behind a node, entered with a state every
    variable of which is unassigned on some path, is so on some path. *)
Lemma unassigned_on_some_path (m : nat) (U : gset nat) (v : nat)
    (P : gset nat -> Prop) :
  (exists path, arrivesAt cfg _entry path m) ->
  (forall u, u ∈ U ->
     exists path, arrivesAt cfg _entry path m
                  /\ u ∈ unassignedAfterPath cfg path) ->
  (forall V V' : gset nat, (v ∈ V -> v ∈ V') -> P V -> P V') ->
  P U ->
  exists path, arrivesAt cfg _entry path m /\ P (unassignedAfterPath cfg path).
Proof.
  intros [path0 Hpath0] HU Hmono HP.
  destruct (decide (v ∈ U)) as [Hin|Hnin].
  - destruct (HU v Hin) as (path & Hpath & Hv). exists path.
    split; [exact Hpath|]. eapply Hmono; [|exact HP]. intros _. exact Hv.
  - exists path0. split; [exact Hpath0|]. eapply Hmono; [|exact HP].
    intros Hv. contradiction.
Qed.

Lemma propagateTo_onPaths currentNode exit st :
  onPaths cfg _entry st ->
  (exists path, arrivesAt cfg _entry path currentNode) ->
  successor cfg currentNode exit ->
  onPaths cfg _entry (propagateTo currentNode exit st).
Proof.
  destruct st as [nodeInfos nodesToTraverse].
  intros [Hinfos Hwl] [pathc Hc] He. cbn [fst snd] in *.
  assert (Hexit : exists path, arrivesAt cfg _entry path exit).
  { exists (pathc ++ [currentNode]). now apply arrives_step. }
  unfold propagateTo. cbn [fst snd].
  set (r := propagateFrom _ _) in *.
  assert (Hmap : forall m info, <[exit := fst r]> nodeInfos !! m = Some info ->
     (exists path, arrivesAt cfg _entry path m)
     /\ (forall v, v ∈ unassignedVariablesAtEntry info ->
           exists path, arrivesAt cfg _entry path m
                        /\ v ∈ unassignedAfterPath cfg path)
     /\ (forall v, v ∈ unassignedVariablesAtExit info ->
           exists path, arrivesAt cfg _entry path m
                        /\ v ∈ afterNode cfg m (unassignedAfterPath cfg path))
     /\ (forall p, p ∈ uninitializedVariableAccesses info ->
           replaysUnassignedOnPath cfg _entry m p)).
  { intros m info Hm. destruct (decide (exit = m)) as [<-|Hne].
    2: { rewrite lookup_insert_ne in Hm by assumption. now apply Hinfos. }
    rewrite lookup_insert_eq in Hm. injection Hm as <-.
    split; [exact Hexit|]. unfold r, propagateFrom. cbn.
    split; [|split].
    - intros v Hv. apply elem_of_union in Hv as [Hv|Hv].
      + destruct (nodeInfos !! exit) as [i|] eqn:Hi; simpl in Hv;
          [|set_solver].
        now apply (Hinfos exit i Hi).
      + destruct (nodeInfos !! currentNode) as [i|] eqn:Hi; simpl in Hv;
          [|set_solver].
        destruct (Hinfos currentNode i Hi) as (_ & _ & Hx & _).
        destruct (Hx v Hv) as (path & Hpath & Hin).
        exists (path ++ [currentNode]). split; [now apply arrives_step|].
        now rewrite unassignedAfterPath_snoc.
    - intros v Hv.
      destruct (nodeInfos !! exit) as [i|] eqn:Hi; simpl in Hv; [|set_solver].
      now apply (Hinfos exit i Hi).
    - intros p Hp. apply elem_of_union in Hp as [Hp|Hp].
      + destruct (nodeInfos !! exit) as [i|] eqn:Hi; simpl in Hp;
          [|set_solver].
        now apply (Hinfos exit i Hi).
      + destruct (nodeInfos !! currentNode) as [i|] eqn:Hi; simpl in Hp;
          [|set_solver].
        destruct (Hinfos currentNode i Hi) as (_ & _ & _ & Hx).
        destruct (Hx p Hp) as (path & o & H1 & H2 & H3 & H4 & H5).
        exists path, o. repeat split; auto. eapply rtc_r; eassumption. }
  destruct (snd r || negb (bool_decide (is_Some (nodeInfos !! exit))));
    (split; cbn [fst snd]; [exact Hmap|]); [|exact Hwl].
  intros m Hm. apply elem_of_union in Hm as [Hm|Hm]; [|now apply Hwl].
  apply elem_of_singleton in Hm as ->. exact Hexit.
Qed.

Lemma propagateTo_fold_onPaths currentNode exits st :
  onPaths cfg _entry st ->
  (exists path, arrivesAt cfg _entry path currentNode) ->
  (forall e, e ∈ exits -> successor cfg currentNode e) ->
  onPaths cfg _entry
    (foldl (fun st exit => propagateTo currentNode exit st) st exits).
Proof.
  revert st. induction exits as [|e exits IH]; intros st Hst Hc He; simpl;
    [assumption|].
  apply IH; [|assumption|intros e' He'; apply He; set_solver].
  apply propagateTo_onPaths; [assumption..|apply He; set_solver].
Qed.

Lemma traverseStep_onPaths st st' :
  onPaths cfg _entry st -> traverseStep cfg st = Some st' ->
  onPaths cfg _entry st'.
Proof.
  destruct st as [nodeInfos nodesToTraverse]. intros [Hinfos Hwl].
  unfold traverseStep. cbn [fst snd].
  destruct (firstAddress nodesToTraverse) as [c|] eqn:Hfirst; [|discriminate].
  intros [= <-]. apply firstAddress_elem in Hfirst.
  assert (Hc : exists path, arrivesAt cfg _entry path c) by now apply Hwl.
  apply propagateTo_fold_onPaths; [|assumption|intros e He; exact He].
  set (info0 := default newNodeInfo (nodeInfos !! c)).
  assert (Hentry : forall u, u ∈ unassignedVariablesAtEntry info0 ->
            exists path, arrivesAt cfg _entry path c
                         /\ u ∈ unassignedAfterPath cfg path).
  { intros u Hu. unfold info0 in Hu.
    destruct (nodeInfos !! c) as [i|] eqn:Hi; simpl in Hu; [|set_solver].
    now apply (Hinfos c i Hi). }
  split; cbn [fst snd].
  - intros m info Hm. destruct (decide (c = m)) as [<-|Hne].
    2: { rewrite lookup_insert_ne in Hm by assumption. now apply Hinfos. }
    rewrite lookup_insert_eq in Hm. injection Hm as <-.
    cbn [unassignedVariablesAtEntry unassignedVariablesAtExit
         uninitializedVariableAccesses].
    split; [exact Hc|]. split; [exact Hentry|]. split.
    + intros v Hv. rewrite unassignedBefore_replay in Hv.
      apply (unassigned_on_some_path c _ v
               (fun V => v ∈ afterNode cfg c V) Hc Hentry);
        [|exact Hv].
      intros V V'. apply afterNode_pointwise.
    + intros p Hp. apply replay_flags in Hp.
      destruct Hp as [Hp|(i & o & -> & Hi & Hk & Hin)].
      * fold info0 in Hp. unfold info0 in Hp.
        destruct (nodeInfos !! c) as [info|] eqn:Hinfo; simpl in Hp;
          [|set_solver].
        now apply (Hinfos c info Hinfo).
      * destruct (unassigned_on_some_path c _ (CFG.id (CFG.declaration o))
                    (fun V => CFG.id (CFG.declaration o)
                              ∈ unassignedBefore
                                  (CFG.variableOccurrences (nodeAt cfg c)) V i)
                    Hc Hentry) as (path & Hpath & Hv);
          [intros V V'; apply unassignedBefore_pointwise|exact Hin|].
        exists path, o. cbn [fst snd].
        repeat split; [exact Hpath|exact Hi|exact Hk|exact Hv|apply rtc_refl].
  - intros m Hm. apply Hwl. set_solver.
Qed.

Lemma traverse_onPaths fuel st nodeInfos :
  onPaths cfg _entry st -> traverse cfg fuel st = Some nodeInfos ->
  onPaths cfg _entry (nodeInfos, ∅).
Proof.
  revert st. induction fuel as [|fuel IH]; intros st Hst; simpl;
    [discriminate|].
  destruct (traverseStep cfg st) as [st'|] eqn:Hstep.
  - apply IH. eapply traverseStep_onPaths; eassumption.
  - intros [= <-]. destruct Hst as [Hinfos _]. split; [exact Hinfos|].
    simpl. set_solver.
Qed.

Lemma initial_onPaths : onPaths cfg _entry (∅, {[_entry]}).
Proof.
  split; simpl.
  - intros m info. now rewrite lookup_empty.
  - intros m Hm. apply elem_of_singleton in Hm as ->.
    exists []. constructor.
Qed.

End OnPaths.

Lemma propagateTo_unchanged currentNode exit
    (nodeInfos : gmap nat NodeInfo) (nodesToTraverse : gset nat) info :
  nodeInfos !! exit = Some info ->
  snd (propagateFrom info (default newNodeInfo (nodeInfos !! currentNode)))
  = false ->
  propagateTo currentNode exit (nodeInfos, nodesToTraverse)
  = (nodeInfos, nodesToTraverse).
Proof.
  intros Hexit Hflag. unfold propagateTo. cbv zeta. cbn [fst snd].
  rewrite Hexit. cbn [default id]. rewrite Hflag.
  rewrite bool_decide_eq_true_2 by eauto. cbn [negb orb].
  rewrite propagateFrom_unchanged by exact Hflag.
  now rewrite insert_id.
Qed.

Lemma propagateTo_changed currentNode exit
    (nodeInfos : gmap nat NodeInfo) (nodesToTraverse : gset nat) :
  let r := propagateFrom (default newNodeInfo (nodeInfos !! exit))
             (default newNodeInfo (nodeInfos !! currentNode)) in
  snd r || negb (bool_decide (is_Some (nodeInfos !! exit))) = true ->
  propagateTo currentNode exit (nodeInfos, nodesToTraverse)
  = (<[exit := fst r]> nodeInfos, {[exit]} ∪ nodesToTraverse).
Proof.
  cbv zeta. intros Hflag. unfold propagateTo. cbv zeta. cbn [fst snd].
  now rewrite Hflag.
Qed.

Lemma propagatedTo_insert (nodeInfos : gmap nat NodeInfo)
    (info source : NodeInfo) (e e' : nat) :
  propagatedTo nodeInfos info e' ->
  propagatedTo
    (<[e := fst (propagateFrom (default newNodeInfo (nodeInfos !! e)) source)]>
       nodeInfos)
    info e'.
Proof.
  intros (info' & Hl & H1 & H2). destruct (decide (e = e')) as [<-|Hne].
  - eexists. rewrite lookup_insert_eq. split; [reflexivity|].
    rewrite Hl. unfold propagateFrom. cbn. set_solver.
  - exists info'. now rewrite lookup_insert_ne.
Qed.

Section Settled.

Variable cfg : gmap nat CFG.CFGNode.

Lemma propagateTo_settled currentNode (done : list nat) (e : nat) st :
  settledButFor cfg currentNode done st ->
  settledButFor cfg currentNode (done ++ [e]) (propagateTo currentNode e st).
Proof.
  destruct st as [nodeInfos nodesToTraverse].
  intros [Hothers (infoc & Hc & Hcur)]. cbn [fst snd] in *.
  set (r := propagateFrom (default newNodeInfo (nodeInfos !! e))
              (default newNodeInfo (nodeInfos !! currentNode))).
  destruct (snd r || negb (bool_decide (is_Some (nodeInfos !! e)))) eqn:Hflag.
  - rewrite propagateTo_changed by exact Hflag. fold r. split; cbn [fst snd].
    + intros m info Hm Hwl Hne.
      assert (m <> e) by set_solver.
      rewrite lookup_insert_ne in Hm by congruence.
      destruct (Hothers m info Hm ltac:(set_solver) Hne) as [Hrep Hprop].
      split; [exact Hrep|]. intros e' He'.
      apply propagatedTo_insert. now apply Hprop.
    + destruct (decide (e = currentNode)) as [->|Hne].
      * eexists. rewrite lookup_insert_eq. split; [reflexivity|]. set_solver.
      * exists infoc. rewrite lookup_insert_ne by assumption.
        split; [exact Hc|]. intros Hwl.
        destruct (Hcur ltac:(set_solver)) as [Hrep Hdone].
        split; [exact Hrep|]. intros e' He'.
        apply elem_of_app in He' as [He'|He'].
        -- apply propagatedTo_insert. now apply Hdone.
        -- apply list_elem_of_singleton in He' as ->.
           eexists. rewrite lookup_insert_eq. split; [reflexivity|].
           unfold r, propagateFrom. rewrite Hc. cbn. set_solver.
  - apply orb_false_iff in Hflag as [Hflag Hex].
    apply negb_false_iff, bool_decide_eq_true in Hex as [infoe He].
    unfold r in Hflag. rewrite He in Hflag. cbn [default id] in Hflag.
    rewrite (propagateTo_unchanged _ _ _ _ infoe He Hflag).
    split; cbn [fst snd]; [exact Hothers|].
    exists infoc. split; [exact Hc|]. intros Hwl.
    destruct (Hcur Hwl) as [Hrep Hdone]. split; [exact Hrep|].
    intros e' He'. apply elem_of_app in He' as [He'|He'];
      [now apply Hdone|].
    apply list_elem_of_singleton in He' as ->.
    rewrite Hc in Hflag. cbn [default id] in Hflag.
    apply propagateFrom_flag in Hflag as [H1 H2].
    now exists infoe.
Qed.

Lemma propagateTo_fold_settled currentNode (exits done : list nat) :
  forall st,
    settledButFor cfg currentNode done st ->
    settledButFor cfg currentNode (done ++ exits)
      (foldl (fun st exit => propagateTo currentNode exit st) st exits).
Proof.
  revert done. induction exits as [|e exits IH]; intros done st Hst; simpl.
  - now rewrite app_nil_r.
  - replace (done ++ e :: exits) with ((done ++ [e]) ++ exits)
      by (now rewrite <- app_assoc).
    apply IH. now apply propagateTo_settled.
Qed.

Lemma replay_keeps_flags (n k : nat) (l : list CFG.VariableOccurrence)
    (U : gset nat) (A : gset (nat * nat)) :
  A ⊆ snd (replay n k l (U, A)).
Proof. intros p Hp. apply replay_flags. now left. Qed.

Lemma traverseStep_settled st st' :
  settled cfg st -> traverseStep cfg st = Some st' -> settled cfg st'.
Proof.
  destruct st as [nodeInfos nodesToTraverse]. intros Hst.
  unfold traverseStep. cbn [fst snd].
  destruct (firstAddress nodesToTraverse) as [c|] eqn:Hfirst; [|discriminate].
  intros [= <-]. apply firstAddress_elem in Hfirst.
  set (info0 := default newNodeInfo (nodeInfos !! c)).
  set (occurrences := CFG.variableOccurrences (nodeAt cfg c)).
  set (r := replay c 0 occurrences
              (unassignedVariablesAtEntry info0,
               uninitializedVariableAccesses info0)).
  set (info1 := mkNodeInfo (unassignedVariablesAtEntry info0) (fst r) (snd r)).
  assert (Hstart : settledButFor cfg c []
                     (<[c := info1]> nodeInfos, nodesToTraverse ∖ {[c]})).
  { split; cbn [fst snd].
    - intros m info Hm Hwl Hne. rewrite lookup_insert_ne in Hm by congruence.
      destruct (Hst m info Hm ltac:(set_solver)) as [Hrep Hprop].
      split; [exact Hrep|]. intros e He.
      destruct (Hprop e He) as (info' & Hl & H1 & H2). cbn [fst] in Hl.
      destruct (decide (c = e)) as [<-|Hce].
      + exists info1. rewrite lookup_insert_eq. split; [reflexivity|].
        unfold info1, info0. rewrite Hl.
        cbn [default id unassignedVariablesAtEntry
             uninitializedVariableAccesses].
        split; [exact H1|]. etrans; [exact H2|].
        unfold r, info0. rewrite Hl. apply replay_keeps_flags.
      + exists info'. now rewrite lookup_insert_ne.
    - exists info1. rewrite lookup_insert_eq. split; [reflexivity|].
      intros _. split; [|intros e He; now apply elem_of_nil in He].
      split.
      + unfold info1, r, afterNode. cbn. apply unassignedBefore_replay.
      + intros i o Hi Hk Hin. unfold info1, r. cbn.
        apply replay_flags. right. exists i, o. repeat split; auto. }
  pose proof (propagateTo_fold_settled c (CFG.exits (nodeAt cfg c)) []
                _ Hstart) as [Hothers (infoc & Hc & Hcur)].
  intros m info Hm Hwl. destruct (decide (m = c)) as [->|Hne].
  - rewrite Hc in Hm. injection Hm as <-.
    destruct (Hcur Hwl) as [Hrep Hdone]. split; [exact Hrep|].
    intros e He. now apply Hdone.
  - now apply Hothers.
Qed.

Lemma traverse_settled fuel st nodeInfos :
  settled cfg st -> traverse cfg fuel st = Some nodeInfos ->
  settled cfg (nodeInfos, ∅).
Proof.
  revert st. induction fuel as [|fuel IH]; intros st Hst; simpl;
    [discriminate|].
  destruct (traverseStep cfg st) as [st'|] eqn:Hstep.
  - apply IH. eapply traverseStep_settled; eassumption.
  - intros [= <-]. destruct st as [nodeInfos nodesToTraverse].
    unfold traverseStep in Hstep. cbn [fst snd] in *.
    destruct (firstAddress nodesToTraverse) eqn:Hfirst; [discriminate|].
    apply firstAddress_none in Hfirst. now subst nodesToTraverse.
Qed.

Lemma initial_settled (_entry : nat) : settled cfg (∅, {[_entry]}).
Proof. intros m info. cbn [fst]. now rewrite lookup_empty. Qed.

End Settled.

Lemma propagateTo_entryKnown _entry currentNode exit st :
  entryKnown _entry st -> entryKnown _entry (propagateTo currentNode exit st).
Proof.
  destruct st as [nodeInfos nodesToTraverse]. unfold entryKnown, propagateTo.
  cbv zeta. cbn [fst snd]. intros [Hsome|Hin].
  - left. destruct (_ || _); cbn [fst];
      (destruct (decide (exit = _entry)) as [->|Hne];
       [rewrite lookup_insert_eq; eauto
       |now rewrite lookup_insert_ne by assumption]).
  - right. destruct (_ || _); cbn [snd]; set_solver.
Qed.

Lemma traverseStep_entryKnown cfg _entry st st' :
  entryKnown _entry st -> traverseStep cfg st = Some st' ->
  entryKnown _entry st'.
Proof.
  destruct st as [nodeInfos nodesToTraverse]. intros Hst.
  unfold traverseStep. cbn [fst snd].
  destruct (firstAddress nodesToTraverse) as [c|] eqn:Hfirst; [|discriminate].
  intros [= <-].
  match goal with
  | |- entryKnown _ (foldl _ ?st0 ?exits) =>
      assert (H0 : entryKnown _entry st0); [|generalize H0; generalize st0;
                                             generalize exits]
  end.
  - destruct Hst as [Hsome|Hin]; cbn [fst snd] in *.
    + left. cbn [fst]. destruct (decide (c = _entry)) as [->|Hne];
        [rewrite lookup_insert_eq; eauto
        |now rewrite lookup_insert_ne by assumption].
    + destruct (decide (c = _entry)) as [->|Hne].
      * left. cbn [fst]. rewrite lookup_insert_eq. eauto.
      * right. cbn [snd]. set_solver.
  - clear. intros exits. induction exits as [|e exits IH]; intros st0 H0; simpl;
      [exact H0|].
    apply IH. now apply propagateTo_entryKnown.
Qed.

Lemma traverse_entryKnown cfg _entry fuel st nodeInfos :
  entryKnown _entry st -> traverse cfg fuel st = Some nodeInfos ->
  is_Some (nodeInfos !! _entry).
Proof.
  revert st. induction fuel as [|fuel IH]; intros st Hst; simpl;
    [discriminate|].
  destruct (traverseStep cfg st) as [st'|] eqn:Hstep.
  - apply IH. eapply traverseStep_entryKnown; eassumption.
  - intros [= <-]. destruct st as [nodeInfos nodesToTraverse].
    unfold traverseStep in Hstep. cbn [fst snd] in *.
    destruct (firstAddress nodesToTraverse) eqn:Hfirst; [discriminate|].
    apply firstAddress_none in Hfirst. subst nodesToTraverse.
    destruct Hst as [Hsome|Hin]; [exact Hsome|]. cbn [snd] in Hin. set_solver.
Qed.

Section Arrival.

Variable cfg : gmap nat CFG.CFGNode.
Variable _entry : nat.
Variable nodeInfos : gmap nat NodeInfo.
Hypothesis nodeInfos_settled : settled cfg (nodeInfos, ∅).
Hypothesis entry_known : is_Some (nodeInfos !! _entry).

(** Whatever is unassigned on arrival along a path is in the entry state
    the traversal has left for the node. *)
Lemma arrival_recorded path n :
  arrivesAt cfg _entry path n ->
  exists info, nodeInfos !! n = Some info
               /\ unassignedAfterPath cfg path
                  ⊆ unassignedVariablesAtEntry info.
Proof.
  induction 1 as [|path b c _ IH Hs].
  - destruct entry_known as [info Hinfo]. exists info.
    split; [exact Hinfo|]. unfold unassignedAfterPath. simpl. set_solver.
  - destruct IH as (infob & Hb & Hsub).
    destruct (nodeInfos_settled b infob Hb ltac:(set_solver))
      as [[Hexit _] Hprop].
    destruct (Hprop c Hs) as (infoc & Hc & H1 & _). cbn [fst] in Hc.
    exists infoc. split; [exact Hc|].
    rewrite unassignedAfterPath_snoc. etrans; [|exact H1]. rewrite Hexit.
    intros v. apply afterNode_pointwise. intros Hv. now apply Hsub.
Qed.

(** Flagged accesses travel along successor edges. *)
Lemma flags_travel a b :
  reaches cfg a b ->
  forall infoa, nodeInfos !! a = Some infoa ->
    exists infob, nodeInfos !! b = Some infob
                  /\ uninitializedVariableAccesses infoa
                     ⊆ uninitializedVariableAccesses infob.
Proof.
  induction 1 as [a|a c b Hs _ IH]; intros infoa Ha.
  - exists infoa. split; [exact Ha|reflexivity].
  - destruct (nodeInfos_settled a infoa Ha ltac:(set_solver)) as [_ Hprop].
    destruct (Hprop c Hs) as (infoc & Hc & _ & H2). cbn [fst] in Hc.
    destruct (IH infoc Hc) as (infob & Hb & H3).
    exists infob. split; [exact Hb|]. etrans; eassumption.
Qed.

Lemma path_read_flagged _exit p :
  replaysUnassignedOnPath cfg _entry _exit p ->
  p ∈ uninitializedVariableAccesses (default newNodeInfo (nodeInfos !! _exit)).
Proof.
  intros (path & o & Hpath & Ho & Hk & Hin & Hreach).
  destruct p as [n i]. cbn [fst snd] in *.
  destruct (arrival_recorded path n Hpath) as (infon & Hn & Hsub).
  destruct (nodeInfos_settled n infon Hn ltac:(set_solver)) as [[_ Hflag] _].
  assert (Hp : (n, i) ∈ uninitializedVariableAccesses infon).
  { apply (Hflag i o Ho Hk).
    revert Hin. apply unassignedBefore_pointwise. intros Hv. now apply Hsub. }
  destruct (flags_travel n _exit Hreach infon Hn) as (infox & Hx & Hsubx).
  rewrite Hx. cbn [default id]. now apply Hsubx.
Qed.

End Arrival.

(** The traversal ends, and what it leaves flagged for the exit node are the
    reads of a variable unassigned on some path. *)
Lemma traverse_paths (cfg : gmap nat CFG.CFGNode) (fuel _entry _exit : nat) :
  (traverseFuel cfg _entry <= fuel)%nat ->
  exists nodeInfos,
    traverse cfg fuel (∅, {[_entry]}) = Some nodeInfos
    /\ forall p,
         p ∈ uninitializedVariableAccesses
               (default newNodeInfo (nodeInfos !! _exit))
         <-> readsUnassignedOnPath cfg _entry _exit p.
Proof.
  intros Hfuel.
  destruct (traverse_terminates cfg _entry fuel (∅, {[_entry]}))
    as [nodeInfos Htraverse];
    [apply initial_withinGraph|pose proof (initial_potential cfg _entry); lia|].
  exists nodeInfos. split; [exact Htraverse|]. intros p.
  rewrite readsUnassignedOnPath_replays. split.
  - intros Hp.
    pose proof (traverse_onPaths cfg _entry fuel _ nodeInfos
                  (initial_onPaths cfg _entry) Htraverse) as [Hinfos _].
    cbn [fst] in Hinfos.
    destruct (nodeInfos !! _exit) as [info|] eqn:Hinfo; simpl in Hp;
      [|set_solver].
    now apply (Hinfos _exit info Hinfo).
  - apply path_read_flagged.
    + eapply traverse_settled; [apply (initial_settled cfg _entry)|].
      exact Htraverse.
    + eapply traverse_entryKnown; [|exact Htraverse].
      right. cbn [snd]. set_solver.
Qed.

(** In [S storage s; if (c) { s = x; } s.a;] the read at the join is a read
    of a variable declared and not assigned since, on the path that skips
    the branch. *)
Example read_at_join_unassigned :
  readsUnassignedOnPath storagePointerExample 0 3 (2%nat, 0%nat).
Proof.
  exists [0%nat],
    (CFG.mkVariableOccurrence VariableOccurrence.Access storagePointer
       (Some (inSource 50 55))).
  split; [|split; [reflexivity|split; [now left|split]]].
  - apply (arrives_step _ _ [] 0%nat 2%nat); [constructor|].
    unfold successor. vm_compute. set_solver.
  - exists [CFG.mkVariableOccurrence VariableOccurrence.Declaration
              unnamedReturn None],
      (CFG.mkVariableOccurrence VariableOccurrence.Declaration storagePointer
         (Some (inSource 10 20))), [].
    split; [reflexivity|]. split; [reflexivity|]. split; [reflexivity|].
    intros a Ha. now apply elem_of_nil in Ha.
  - apply rtc_once. unfold successor. vm_compute. set_solver.
Qed.

(** In [S storage s; if (c) { s.a; revert(); } s = x; s.a;] the second read
    comes behind the assignment in its own node: on no path is it a read of
    a variable not assigned since its declaration. *)
Example read_behind_assignment_assigned :
  ~ readsUnassignedOnPath readBeforeRevertExample 0 3 (2%nat, 1%nat).
Proof.
  intros (path & o & _ & Ho & _ & Hd & _). cbn [fst snd] in Hd.
  assert (E : take 1 (CFG.variableOccurrences (nodeAt readBeforeRevertExample 2))
              = [CFG.mkVariableOccurrence VariableOccurrence.Assignment
                   storagePointer (Some (inSource 50 55))])
    by reflexivity.
  rewrite E in Hd. clear E.
  assert (E : CFG.id (CFG.declaration o) = 100%nat)
    by (vm_compute in Ho; now injection Ho as <-).
  rewrite E in Hd.
  apply declaredUnassigned_snoc in Hd as [[Hk _]|[_ Hne]]; [discriminate Hk|].
  now apply Hne.
Qed.

(** X16. The traversal is exact on paths.  It ends, and the accesses it
    leaves flagged for the exit node are precisely the reads of a variable
    that, on some path from the entry to the read, has been declared and
    not assigned since, and from whose node the exit can be reached: no such
    read is missed, and nothing else is flagged. *)
Theorem traverse_exact (cfg : gmap nat CFG.CFGNode) (fuel _entry _exit : nat) :
  (traverseFuel cfg _entry <= fuel)%nat ->
  exists nodeInfos,
    traverse cfg fuel (∅, {[_entry]}) = Some nodeInfos
    /\ forall p,
         p ∈ uninitializedVariableAccesses
               (default newNodeInfo (nodeInfos !! _exit))
         <-> readsUnassignedOnPath cfg _entry _exit p.
Proof.
  intros Hfuel.
  destruct (traverse_terminates cfg _entry fuel (∅, {[_entry]}))
    as [nodeInfos Htraverse];
    [apply initial_withinGraph|pose proof (initial_potential cfg _entry); lia|].
  exists nodeInfos. split; [exact Htraverse|]. intros p.
  rewrite readsUnassignedOnPath_replays. split.
  - intros Hp.
    destruct (traverse_onPaths cfg _entry fuel _ nodeInfos
                (initial_onPaths cfg _entry) Htraverse) as [Hinfos _].
    cbn [fst] in Hinfos. revert Hp.
    destruct (nodeInfos !! _exit) as [info|] eqn:Hinfo; cbn [default id].
    + apply (Hinfos _exit info Hinfo).
    + intros Hp. now apply elem_of_empty in Hp.
  - apply path_read_flagged.
    + apply (traverse_settled cfg fuel (∅, {[_entry]}) nodeInfos
               (initial_settled cfg _entry) Htraverse).
    + apply (traverse_entryKnown cfg _entry fuel (∅, {[_entry]}) nodeInfos);
        [|exact Htraverse].
      right. cbn [snd]. now apply elem_of_singleton.
Qed.

Lemma traverse_exact_witness :
  exists nodeInfos,
    traverse storagePointerExample 100 (∅, {[0%nat]}) = Some nodeInfos
    /\ forall p,
         p ∈ uninitializedVariableAccesses
               (default newNodeInfo (nodeInfos !! 3%nat))
         <-> readsUnassignedOnPath storagePointerExample 0 3 p.
Proof.
  apply (traverse_exact storagePointerExample 100 0 3).
  vm_compute. lia.
Defined.

(** *** The driver: [analyze] and [run] *)

Lemma unreachableRanges_app (l1 l2 : list Diagnostic) :
  unreachableRanges (l1 ++ l2) = unreachableRanges l1 ++ unreachableRanges l2.
Proof. unfold unreachableRanges. now rewrite filter_app, fmap_app. Qed.

Lemma reportsOnce_refl (a : ControlFlowAnalyzer.t) : reportsOnce a a.
Proof.
  exists []. rewrite app_nil_r. repeat split; try constructor; set_solver.
Qed.

Lemma reportsOnce_trans (a b c : ControlFlowAnalyzer.t) :
  reportsOnce a b -> reportsOnce b c -> reportsOnce a c.
Proof.
  intros (l1 & E1 & F1 & N1 & R1 & U1 & W1) (l2 & E2 & F2 & N2 & R2 & U2 & W2).
  exists (l1 ++ l2). rewrite E2, E1, <- app_assoc, unreachableRanges_app.
  split; [reflexivity|]. split; [now apply Forall_app|]. split; [|split].
  - apply NoDup_app. split; [exact N1|]. split; [|exact N2].
    intros r Hr1 Hr2. destruct (R1 r Hr1) as [_ Hin].
    destruct (R2 r Hr2) as [Hnin _]. contradiction.
  - intros r Hr. apply elem_of_app in Hr as [Hr|Hr].
    + destruct (R1 r Hr). split; [assumption|]. set_solver.
    + destruct (R2 r Hr). split; [|assumption]. set_solver.
  - split; set_solver.
Qed.

Lemma perform_reportsOnce (x : Action) (a : ControlFlowAnalyzer.t) :
  reportsOnce a (perform x a).
Proof.
  destruct x as [e c o|l]; simpl.
  - destruct (reportUninitializedAccess_cases e c o a)
      as [(_ & ->)|[(_ & _ & _ & _ & ->)|(_ & _ & ->)]];
      [| |apply reportsOnce_refl].
    + eexists. split; [reflexivity|]. cbn.
      split; [constructor; [left; now split|constructor]|].
      split; [constructor|]. split; [intros r Hr; inversion Hr|].
      split; set_solver.
    + eexists. split; [reflexivity|]. cbn.
      split; [constructor; [right; left; eauto|constructor]|].
      split; [constructor|]. split; [intros r Hr; inversion Hr|].
      split; set_solver.
  - unfold reportUnreachable. destruct (decide _) as [Hin|Hnin];
      [apply reportsOnce_refl|].
    eexists. split; [reflexivity|]. cbn.
    split; [constructor; [right; right; now exists l|constructor]|].
    split; [apply NoDup_singleton|]. split; [|split; set_solver].
    intros r Hr. apply list_elem_of_singleton in Hr as ->.
    split; [exact Hnin|set_solver].
Qed.

Lemma perform_fold_reportsOnce (actions : list Action) :
  forall a, reportsOnce a (foldl (fun a x => perform x a) a actions).
Proof.
  induction actions as [|x actions IH]; intros a; simpl;
    [apply reportsOnce_refl|].
  eapply reportsOnce_trans; [apply perform_reportsOnce|apply IH].
Qed.

Lemma reportUnreachable_actions (ranges : list SourceLocation) :
  forall a,
    foldl (fun a r => reportUnreachable r a) a ranges
    = foldl (fun a x => perform x a) a (ReportUnreachable <$> ranges).
Proof. induction ranges as [|r ranges IH]; intros a; simpl; auto. Qed.

(** The text of the unassigned-return warnings a sequence of actions adds,
    when all its accesses are handled with the same contract name. *)
Lemma perform_fold_messages (name : option string) (actions : list Action) :
  Forall (fun x => match x with
                   | ReportAccess _ c _ => c = name
                   | ReportUnreachable _ => True
                   end) actions ->
  forall a,
  exists added,
    ControlFlowAnalyzer.m_errorReporter (foldl (fun a x => perform x a) a actions)
    = ControlFlowAnalyzer.m_errorReporter a ++ added
    /\ Forall (fun d => errorId d = 6321 ->
                        message d = unassignedReturnMessage name) added.
Proof.
  induction 1 as [|x actions Hx _ IH]; intros a; simpl.
  - exists []. now rewrite app_nil_r.
  - destruct (IH (perform x a)) as (added & -> & Hadded).
    assert (Hone : exists one,
               ControlFlowAnalyzer.m_errorReporter (perform x a)
               = ControlFlowAnalyzer.m_errorReporter a ++ one
               /\ Forall (fun d => errorId d = 6321 ->
                                   message d = unassignedReturnMessage name)
                    one).
    { destruct x as [e c o|l]; simpl.
      - subst c.
        destruct (reportUninitializedAccess_cases e name o a)
          as [(_ & ->)|[(_ & _ & _ & _ & ->)|(_ & _ & ->)]].
        + eexists. split; [reflexivity|]. constructor; [|constructor].
          cbn. discriminate.
        + eexists. split; [reflexivity|]. constructor; [|constructor].
          reflexivity.
        + exists []. now rewrite app_nil_r.
      - unfold reportUnreachable. destruct (decide _).
        + exists []. now rewrite app_nil_r.
        + eexists. split; [reflexivity|]. constructor; [|constructor].
          cbn. discriminate. }
    destruct Hone as (one & -> & Hone).
    exists (one ++ added). rewrite <- app_assoc. split; [reflexivity|].
    now apply Forall_app.
Qed.

Section RunProperties.

Variable occurrenceBefore :
  CFG.VariableOccurrence -> CFG.VariableOccurrence -> bool.
Variable isValid : SourceLocation -> bool.
Variable containsErrors : list Diagnostic -> bool.
Variable cfg : gmap nat CFG.CFGNode.

Lemma analyze_performs (fuel : nat) (_function : FunctionDefinition)
    (_contract : option ContractDefinition) (_flow : FunctionFlow.t)
    (a : ControlFlowAnalyzer.t) :
  isImplemented _function = true ->
  (traverseFuel cfg (FunctionFlow.entry _flow) <= fuel)%nat ->
  (searchFuel cfg <= fuel)%nat ->
  exists actions,
    analyze occurrenceBefore isValid cfg fuel _function _contract _flow a
    = Some (foldl (fun a x => perform x a) a actions)
    /\ Forall (fun x =>
                 match x with
                 | ReportAccess _ c _ =>
                     c = match _contract with
                         | Some contract =>
                             if bool_decide (Some (contractAddress contract)
                                             <> annotationContract _function)
                             then Some (contractName contract)
                             else None
                         | None => None
                         end
                 | ReportUnreachable _ => True
                 end) actions.
Proof.
  intros Himpl Htraverse Hsearch. unfold analyze. rewrite Himpl. cbn [negb].
  set (name := match _contract with Some _ => _ | None => _ end).
  destruct (traverse_terminates cfg (FunctionFlow.entry _flow) fuel
              (∅, {[FunctionFlow.entry _flow]}))
    as [nodeInfos Hrun];
    [apply initial_withinGraph
    |pose proof (initial_potential cfg (FunctionFlow.entry _flow)); lia|].
  unfold checkUninitializedAccess. rewrite Hrun.
  rewrite reportUninitializedAccesses_actions.
  destruct (forward_search cfg fuel (FunctionFlow.entry _flow) Hsearch)
    as (reachable & Hforward & _).
  destruct (backward_search isValid cfg fuel reachable
              (FunctionFlow.exit _flow) (FunctionFlow.revert _flow)
              (FunctionFlow.transactionReturn _flow) Hsearch)
    as (visited & unreachable & Hbackward & _).
  unfold checkUnreachable. rewrite Hforward, Hbackward.
  rewrite reportUnreachableRanges_merged, reportUnreachable_actions.
  rewrite <- foldl_app.
  eexists. split; [reflexivity|]. apply Forall_app. split.
  - apply Forall_fmap, Forall_forall. now intros.
  - apply Forall_fmap, Forall_forall. now intros.
Qed.




End RunProperties.

(** X17. [analyze] skips a function that is not implemented and leaves the
    analyser as it is.  For an implemented function it ends, keeps the
    reports made before and adds only diagnostics of the analyser (the type
    error 3464, the warning 6321, the warning 5740); the unassigned-return
    warnings it adds name the most derived contract exactly when a contract
    is given that is not the contract of the function itself. *)
Theorem analyze_spec
    (occurrenceBefore : CFG.VariableOccurrence -> CFG.VariableOccurrence -> bool)
    (isValid : SourceLocation -> bool) (cfg : gmap nat CFG.CFGNode)
    (fuel : nat) (_function : FunctionDefinition)
    (_contract : option ContractDefinition) (_flow : FunctionFlow.t)
    (a : ControlFlowAnalyzer.t) :
  let result :=
    analyze occurrenceBefore isValid cfg fuel _function _contract _flow a in
  (isImplemented _function = false -> result = Some a)
  /\ (isImplemented _function = true ->
      (traverseFuel cfg (FunctionFlow.entry _flow) <= fuel)%nat ->
      (searchFuel cfg <= fuel)%nat ->
      exists a' added,
        result = Some a'
        /\ ControlFlowAnalyzer.m_errorReporter a'
           = ControlFlowAnalyzer.m_errorReporter a ++ added
        /\ Forall analyzerDiagnostic added
        /\ (_contract = None
            \/ (exists contract,
                  _contract = Some contract
                  /\ Some (contractAddress contract)
                     = annotationContract _function) ->
            Forall (fun d => errorId d = 6321 ->
                             message d = unassignedReturnMessage None) added)
        /\ (forall contract,
              _contract = Some contract ->
              Some (contractAddress contract) <> annotationContract _function ->
              Forall (fun d => errorId d = 6321 ->
                               message d
                               = unassignedReturnMessage
                                   (Some (contractName contract))) added)).
Proof.
  cbv zeta. split.
  - intros Himpl. unfold analyze. now rewrite Himpl.
  - intros Himpl Htraverse Hsearch.
    destruct (analyze_performs occurrenceBefore isValid cfg fuel _function
                _contract _flow a Himpl Htraverse Hsearch)
      as (actions & Hrun & Hnames).
    destruct (perform_fold_reportsOnce actions a) as (added & Hadded & Hdiag & _).
    destruct (perform_fold_messages _ actions Hnames a)
      as (added' & Hadded' & Hmessages).
    rewrite Hadded in Hadded'. apply app_inv_head in Hadded'. subst added'.
    eexists. exists added. split; [exact Hrun|]. split; [exact Hadded|].
    split; [exact Hdiag|]. split.
    + intros [->|(contract & -> & Hsame)]; [exact Hmessages|].
      now rewrite bool_decide_eq_false_2 in Hmessages by (intros H; now apply H).
    + intros contract -> Hne.
      now rewrite bool_decide_eq_true_2 in Hmessages by exact Hne.
Qed.

Lemma analyze_spec_witness :
  exists a' added,
    analyze byOccurrenceStart notDefault revertInBothBranches 100
      (mkFunctionDefinition true (Some 50%nat) false)
      (Some (mkContractDefinition 50 "C")) (FunctionFlow.mk 0 4 5 9)
      freshAnalyzer
    = Some a'
    /\ ControlFlowAnalyzer.m_errorReporter a'
       = ControlFlowAnalyzer.m_errorReporter freshAnalyzer ++ added
    /\ Forall analyzerDiagnostic added.
Proof.
  destruct (proj2 (analyze_spec byOccurrenceStart notDefault
                     revertInBothBranches 100
                     (mkFunctionDefinition true (Some 50%nat) false)
                     (Some (mkContractDefinition 50 "C"))
                     (FunctionFlow.mk 0 4 5 9) freshAnalyzer))
    as (a' & added & H1 & H2 & H3 & _);
    [reflexivity | vm_compute; lia | vm_compute; lia |].
  exists a', added. repeat split; assumption.
Defined.



(** *** What the warned ranges consist of *)

(** A merged range has no position outside the locations it was merged
    from. *)
Lemma coalesce_within (locations rest : list SourceLocation) :
  forall current,
    (forall l, l ∈ rest -> l ∈ locations) ->
    (forall x, start current <= x <= end_ current ->
       exists l, l ∈ locations /\ start l <= x <= end_ l) ->
    forall r, r ∈ coalesce current rest ->
      forall x, start r <= x <= end_ r ->
        exists l, l ∈ locations /\ start l <= x <= end_ l.
Proof.
  induction rest as [|next rest IH]; intros current Hrest Hcurrent r Hr x Hx;
    simpl in Hr.
  - apply list_elem_of_singleton in Hr as ->. now apply Hcurrent.
  - assert (Hnext : next ∈ locations) by (apply Hrest; set_solver).
    assert (Hrest' : forall l, l ∈ rest -> l ∈ locations)
      by (intros l Hl; apply Hrest; set_solver).
    destruct (Z.leb_spec (start next) (end_ current)) as [Hle|Hgt].
    + eapply IH; [exact Hrest'| |exact Hr|exact Hx].
      cbn [start end_]. intros y Hy.
      destruct (Z.le_gt_cases y (end_ current)) as [Hin|Hout].
      * apply Hcurrent. lia.
      * exists next. split; [exact Hnext|]. lia.
    + apply elem_of_cons in Hr as [->|Hr]; [now apply Hcurrent|].
      eapply IH; [exact Hrest'| |exact Hr|exact Hx].
      intros y Hy. now exists next.
Qed.

(** A merged range lies in the source of the locations it was merged
    from, when these share one. *)
Lemma coalesce_sourceName (src : option string) (rest : list SourceLocation) :
  forall current,
    sourceName current = src ->
    (forall l, l ∈ rest -> sourceName l = src) ->
    forall r, r ∈ coalesce current rest -> sourceName r = src.
Proof.
  induction rest as [|next rest IH]; intros current Hcurrent Hrest r Hr;
    simpl in Hr.
  - now apply list_elem_of_singleton in Hr as ->.
  - assert (Hrest' : forall l, l ∈ rest -> sourceName l = src)
      by (intros l Hl; apply Hrest; set_solver).
    destruct (start next <=? end_ current).
    + eapply IH; [|exact Hrest'|exact Hr]. exact Hcurrent.
    + apply elem_of_cons in Hr as [->|Hr]; [exact Hcurrent|].
      apply (IH next); [apply Hrest; set_solver|exact Hrest'|exact Hr].
Qed.

(** X19. Within one source [checkUnreachable] never warns about a position
    that is not in an unreachable node.  It ends, and the warnings it adds
    are "Unreachable code." warnings for ranges; when the nodes found
    unreachable (met by the backward search, not reachable from the entry,
    with a valid location) all lie in the source [src], then every such
    range lies in [src], and every position within it lies within the
    location, in [src], of a node found unreachable. *)
Theorem checkUnreachable_within (isValid : SourceLocation -> bool)
    (cfg : gmap nat CFG.CFGNode)
    (fuel _entry _exit _revert _transactionReturn : nat)
    (a : ControlFlowAnalyzer.t) (src : option string) :
  (searchFuel cfg <= fuel)%nat ->
  (forall n,
      foundUnreachable isValid cfg _entry _exit _revert _transactionReturn n ->
      sourceName (CFG.nodeLocation (nodeAt cfg n)) = src) ->
  exists (a' : ControlFlowAnalyzer.t) (ranges : list SourceLocation),
    checkUnreachable isValid cfg fuel _entry _exit _revert _transactionReturn a
    = Some a'
    /\ ControlFlowAnalyzer.m_errorReporter a'
       = ControlFlowAnalyzer.m_errorReporter a ++ (unreachableWarning <$> ranges)
    /\ forall r,
         r ∈ ranges ->
         sourceName r = src
         /\ forall x,
              start r <= x <= end_ r ->
              exists n,
                foundUnreachable isValid cfg _entry _exit _revert
                  _transactionReturn n
                /\ sourceName (CFG.nodeLocation (nodeAt cfg n)) = sourceName r
                /\ start (CFG.nodeLocation (nodeAt cfg n)) <= x
                   <= end_ (CFG.nodeLocation (nodeAt cfg n)).
Proof.
  intros Hfuel Hsrc.
  destruct (forward_search cfg fuel _entry Hfuel)
    as (reachable & Hforward & Hreach).
  destruct (backward_search isValid cfg fuel reachable _exit _revert
              _transactionReturn Hfuel)
    as (visited & unreachable & Hbackward & Hrec).
  unfold checkUnreachable. rewrite Hforward, Hbackward.
  rewrite reportUnreachableRanges_merged.
  destruct (reportUnreachable_fold (mergedRanges (inOrder unreachable)) a)
    as (_ & _ & new & _ & Hnew & Hreport).
  eexists. exists new. split; [reflexivity|]. split; [exact Hreport|].
  destruct (inOrder_sorted unreachable) as [_ Hperm].
  assert (Hfound : forall l, l ∈ inOrder unreachable ->
            exists n,
              foundUnreachable isValid cfg _entry _exit _revert
                _transactionReturn n
              /\ l = CFG.nodeLocation (nodeAt cfg n)).
  { intros l Hl. rewrite Hperm in Hl. apply elem_of_elements, Hrec in Hl.
    destruct Hl as (n & Hback & Hnot & Hvalid & ->).
    exists n. split; [|reflexivity].
    split; [exact Hback|]. split; [|exact Hvalid]. now rewrite <- Hreach. }
  assert (Hone : forall l, l ∈ inOrder unreachable -> sourceName l = src).
  { intros l Hl. destruct (Hfound l Hl) as (n & Hn & ->). now apply Hsrc. }
  intros r Hr. apply Hnew in Hr as [Hr _].
  unfold mergedRanges in Hr.
  destruct (inOrder unreachable) as [|first rest] eqn:E;
    [now apply elem_of_nil in Hr|].
  assert (Hr_src : sourceName r = src).
  { apply (coalesce_sourceName src rest first); [apply Hone; set_solver| |exact Hr].
    intros l Hl. apply Hone. set_solver. }
  split; [exact Hr_src|]. intros x Hx.
  destruct (coalesce_within (first :: rest) rest first) with (r := r) (x := x)
    as (l & Hl & Hxl); [set_solver| |exact Hr|exact Hx|].
  { intros y Hy. exists first. split; [set_solver|exact Hy]. }
  destruct (Hfound l Hl) as (n & Hn & ->).
  exists n. split; [exact Hn|]. split; [|exact Hxl].
  rewrite Hr_src. now apply Hsrc.
Qed.

Lemma checkUnreachable_within_witness :
  exists (a' : ControlFlowAnalyzer.t) (ranges : list SourceLocation),
    checkUnreachable notDefault revertInBothBranches 100 0 4 5 9 freshAnalyzer
    = Some a'
    /\ ControlFlowAnalyzer.m_errorReporter a'
       = ControlFlowAnalyzer.m_errorReporter freshAnalyzer
         ++ (unreachableWarning <$> ranges)
    /\ forall r,
         r ∈ ranges ->
         sourceName r = sourceName (inSource 0 0)
         /\ forall x,
              start r <= x <= end_ r ->
              exists n,
                foundUnreachable notDefault revertInBothBranches 0 4 5 9 n
                /\ sourceName (CFG.nodeLocation (nodeAt revertInBothBranches n))
                   = sourceName r
                /\ start (CFG.nodeLocation (nodeAt revertInBothBranches n)) <= x
                   <= end_ (CFG.nodeLocation (nodeAt revertInBothBranches n)).
Proof.
  apply (checkUnreachable_within notDefault revertInBothBranches 100 0 4 5 9
           freshAnalyzer (sourceName (inSource 0 0))).
  - vm_compute. lia.
  - intros n (_ & _ & Hvalid). unfold nodeAt in *.
    destruct (revertInBothBranches !! n) as [node|] eqn:Hnode;
      [|discriminate Hvalid].
    apply elem_of_map_to_list in Hnode. vm_compute in Hnode.
    repeat (apply elem_of_cons in Hnode as [Hnode|Hnode];
            [injection Hnode as -> ->; first [reflexivity|discriminate Hvalid]|]).
    now apply elem_of_nil in Hnode.
Defined.

(** *** The errors reported for uninitialised pointers *)

Lemma reportUninitializedAccess_fold_errors (_emptyBody : bool)
    (_contractName : option string) (l : list CFG.VariableOccurrence) :
  forall a,
  exists added,
    ControlFlowAnalyzer.m_errorReporter
      (foldl (fun a o => reportUninitializedAccess _emptyBody _contractName o a)
         a l)
    = ControlFlowAnalyzer.m_errorReporter a ++ added
    /\ forall d,
         d ∈ added /\ errorId d = 3464
         <-> exists o, o ∈ l /\ pointerTyped o = true
                       /\ d = uninitializedAccessError o.
Proof.
  induction l as [|o l IH]; intros a; simpl.
  - exists []. rewrite app_nil_r. split; [reflexivity|].
    intros d. split; [intros [H _]; now apply elem_of_nil in H|].
    intros (o & Ho & _). now apply elem_of_nil in Ho.
  - destruct (IH (reportUninitializedAccess _emptyBody _contractName o a))
      as (added & -> & Hadded).
    destruct (reportUninitializedAccess_cases _emptyBody _contractName o a)
      as [(Hptr & ->)|[(Hptr & _ & _ & _ & ->)|(Hptr & _ & ->)]];
      cbn [ControlFlowAnalyzer.m_errorReporter].
    + eexists. rewrite <- app_assoc. split; [reflexivity|].
      intros d. cbn [app]. rewrite elem_of_cons. split.
      * intros [[->|Hd] Hid].
        -- exists o. split; [set_solver|]. split; [exact Hptr|reflexivity].
        -- destruct (proj1 (Hadded d) (conj Hd Hid)) as (o' & Ho' & H1 & H2).
           exists o'. split; [set_solver|]. now split.
      * intros (o' & Ho' & Hp' & ->).
        apply elem_of_cons in Ho' as [->|Ho'].
        -- split; [now left|reflexivity].
        -- destruct (proj2 (Hadded (uninitializedAccessError o')))
             as [Hin Hid]; [now exists o'|]. split; [now right|exact Hid].
    + eexists. rewrite <- app_assoc. split; [reflexivity|].
      intros d. cbn [app]. rewrite elem_of_cons. split.
      * intros [[->|Hd] Hid]; [discriminate Hid|].
        destruct (proj1 (Hadded d) (conj Hd Hid)) as (o' & Ho' & H1 & H2).
        exists o'. split; [set_solver|]. now split.
      * intros (o' & Ho' & Hp' & ->).
        apply elem_of_cons in Ho' as [->|Ho'].
        -- unfold pointerTyped in Hp'. congruence.
        -- destruct (proj2 (Hadded (uninitializedAccessError o')))
             as [Hin Hid]; [now exists o'|]. split; [now right|exact Hid].
    + exists added. split; [reflexivity|].
      intros d. rewrite Hadded. split.
      * intros (o' & Ho' & H1 & H2). exists o'. split; [set_solver|]. now split.
      * intros (o' & Ho' & Hp' & ->).
        apply elem_of_cons in Ho' as [->|Ho'].
        -- unfold pointerTyped in Hp'. congruence.
        -- now exists o'.
Qed.

(** X20. The uninitialised-pointer errors are exact.  [checkUninitializedAccess]
    ends, keeps the reports made before, and the type errors 3464 it adds
    are precisely the errors for the reads of a storage or calldata pointer
    that is declared and not yet assigned on some path from the entry to
    the read, in a node from which the exit can be reached. *)
Theorem checkUninitializedAccess_errors
    (occurrenceBefore : CFG.VariableOccurrence -> CFG.VariableOccurrence -> bool)
    (cfg : gmap nat CFG.CFGNode) (fuel _entry _exit : nat)
    (_emptyBody : bool) (_contractName : option string)
    (a : ControlFlowAnalyzer.t) :
  (traverseFuel cfg _entry <= fuel)%nat ->
  exists a' added,
    checkUninitializedAccess occurrenceBefore cfg fuel _entry _exit
      _emptyBody _contractName a
    = Some a'
    /\ ControlFlowAnalyzer.m_errorReporter a'
       = ControlFlowAnalyzer.m_errorReporter a ++ added
    /\ forall d,
         d ∈ added /\ errorId d = 3464
         <-> exists p o,
               readsUnassignedOnPath cfg _entry _exit p
               /\ occurrenceAt cfg p = Some o
               /\ pointerTyped o = true
               /\ d = uninitializedAccessError o.
Proof.
  intros Hfuel.
  destruct (traverse_paths cfg fuel _entry _exit Hfuel)
    as (nodeInfos & Htraverse & Hflagged).
  unfold checkUninitializedAccess. rewrite Htraverse.
  unfold reportUninitializedAccesses.
  set (ordered := uninitializedAccessesOrdered _ _ _).
  destruct (reportUninitializedAccess_fold_errors _emptyBody _contractName
              ordered a) as (added & Hadded & Herrors).
  eexists. exists added. split; [reflexivity|]. split; [exact Hadded|].
  assert (Hordered : forall o,
             o ∈ ordered
             <-> exists p, readsUnassignedOnPath cfg _entry _exit p
                           /\ occurrenceAt cfg p = Some o).
  { intros o. unfold ordered, uninitializedAccessesOrdered.
    rewrite merge_sort_Permutation, list_elem_of_omap.
    split; intros (p & Hp & Ho); exists p; (split; [|exact Ho]).
    - now apply Hflagged, elem_of_elements.
    - now apply elem_of_elements, Hflagged. }
  intros d. rewrite Herrors. split.
  - intros (o & Ho & Hp & ->). apply Hordered in Ho as (p & Hpath & Hat).
    now exists p, o.
  - intros (p & o & Hpath & Hat & Hp & ->). exists o.
    split; [apply Hordered; now exists p|]. now split.
Qed.

Lemma checkUninitializedAccess_errors_witness :
  exists a' added,
    checkUninitializedAccess byOccurrenceStart storagePointerExample 100 0 3
      false None freshAnalyzer
    = Some a'
    /\ ControlFlowAnalyzer.m_errorReporter a'
       = ControlFlowAnalyzer.m_errorReporter freshAnalyzer ++ added
    /\ forall d,
         d ∈ added /\ errorId d = 3464
         <-> exists p o,
               readsUnassignedOnPath storagePointerExample 0 3 p
               /\ occurrenceAt storagePointerExample p = Some o
               /\ pointerTyped o = true
               /\ d = uninitializedAccessError o.
Proof.
  apply (checkUninitializedAccess_errors byOccurrenceStart
           storagePointerExample 100 0 3 false None freshAnalyzer).
  vm_compute. lia.
Defined.

(** *** The warnings for unnamed return variables *)

Lemma reportUninitializedAccess_fold_warnings (_emptyBody : bool)
    (_contractName : option string) (l : list CFG.VariableOccurrence) :
  forall a,
  let warnedFor := ControlFlowAnalyzer.m_unassignedReturnVarsAlreadyWarnedFor in
  let a' :=
    foldl (fun a o => reportUninitializedAccess _emptyBody _contractName o a)
      a l in
  exists added,
    ControlFlowAnalyzer.m_errorReporter a'
    = ControlFlowAnalyzer.m_errorReporter a ++ added
    /\ (forall v,
          v ∈ warnedFor a'
          <-> v ∈ warnedFor a
              \/ (_emptyBody = false
                  /\ exists o, o ∈ l /\ pointerTyped o = false
                               /\ CFG.name (CFG.declaration o) = EmptyString
                               /\ CFG.id (CFG.declaration o) = v))
    /\ length (filter (fun d => errorId d = 6321) added)
       = size (warnedFor a' ∖ warnedFor a).
Proof.
  cbv zeta. induction l as [|o l IH]; intros a; simpl.
  - exists []. rewrite app_nil_r. split; [reflexivity|]. split.
    + intros v. split; [auto|]. intros [H|(_ & o & Ho & _)]; [exact H|].
      now apply elem_of_nil in Ho.
    + replace (_ ∖ _) with (∅ : gset nat) by set_solver.
      now rewrite size_empty.
  - destruct (IH (reportUninitializedAccess _emptyBody _contractName o a))
      as (added & -> & Hwarned & Hcount). clear IH.
    set (a' := foldl _ _ l) in *.
    destruct (reportUninitializedAccess_cases _emptyBody _contractName o a)
      as [(Hptr & E)|[(Hptr & Hbody & Hname & Hnin & E)|(Hptr & Hsilent & E)]];
      rewrite E in *; clear E;
      cbn [ControlFlowAnalyzer.m_errorReporter
           ControlFlowAnalyzer.m_unassignedReturnVarsAlreadyWarnedFor] in *.
    + eexists. rewrite <- app_assoc. split; [reflexivity|]. split.
      * intros v. rewrite Hwarned. split.
        -- intros [H|(Hb & o' & Ho' & H)]; [now left|right].
           split; [exact Hb|]. exists o'. split; [set_solver|exact H].
        -- intros [H|(Hb & o' & Ho' & Hp' & H)]; [now left|].
           apply elem_of_cons in Ho' as [->|Ho'].
           ++ unfold pointerTyped in Hp'. congruence.
           ++ right. split; [exact Hb|]. now exists o'.
      * cbn [app]. rewrite filter_cons_False by (cbn; discriminate).
        exact Hcount.
    + eexists. rewrite <- app_assoc. split; [reflexivity|]. split.
      * intros v. rewrite Hwarned, elem_of_union, elem_of_singleton. split.
        -- intros [[->|H]|(Hb & o' & Ho' & H)].
           ++ right. split; [exact Hbody|]. exists o.
              split; [set_solver|]. now repeat split.
           ++ now left.
           ++ right. split; [exact Hb|]. exists o'.
              split; [set_solver|exact H].
        -- intros [H|(Hb & o' & Ho' & Hp' & Hn' & Hv)]; [now left; right|].
           apply elem_of_cons in Ho' as [->|Ho'].
           ++ left. now left.
           ++ right. split; [exact Hb|]. now exists o'.
      * cbn [app]. rewrite filter_cons_True by reflexivity.
        cbn [length]. rewrite Hcount.
        set (W := ControlFlowAnalyzer.m_unassignedReturnVarsAlreadyWarnedFor a)
          in *.
        set (W' := ControlFlowAnalyzer.m_unassignedReturnVarsAlreadyWarnedFor a')
          in *.
        set (d := CFG.id (CFG.declaration o)) in *.
        assert (Hin : d ∈ W') by (apply Hwarned; left; set_solver).
        replace (W' ∖ W) with ({[d]} ∪ W' ∖ ({[d]} ∪ W)).
        -- assert (Hdisj : ({[d]} : gset nat) ## W' ∖ ({[d]} ∪ W))
             by set_solver.
           rewrite (size_union _ _ Hdisj). now rewrite size_singleton.
        -- apply set_eq. intros x.
           rewrite elem_of_union, !elem_of_difference, elem_of_union,
             elem_of_singleton.
           destruct (decide (x = d)) as [->|Hne]; [tauto|]. tauto.
    + exists added. split; [reflexivity|]. split; [|exact Hcount].
      intros v. rewrite Hwarned. split.
      * intros [H|(Hb & o' & Ho' & H)]; [now left|right].
        split; [exact Hb|]. exists o'. split; [set_solver|exact H].
      * intros [H|(Hb & o' & Ho' & Hp' & Hn' & Hv)]; [now left|].
        apply elem_of_cons in Ho' as [->|Ho'].
        -- left. destruct Hsilent as [Hs|[Hs|Hs]]; [congruence|contradiction|].
           now rewrite <- Hv.
        -- right. split; [exact Hb|]. now exists o'.
Qed.

(** X25. The unassigned-return warning is exact.  After
    [checkUninitializedAccess] the declarations warned about are those
    warned about before and, in a non-empty body, the unnamed variables that
    are not storage or calldata pointers and are read while declared and
    not yet assigned on some path from the entry, in a node from which the
    exit can be reached; one warning 6321 is added for each declaration that
    joins the set, and none besides. *)
Theorem checkUninitializedAccess_warnings
    (occurrenceBefore : CFG.VariableOccurrence -> CFG.VariableOccurrence -> bool)
    (cfg : gmap nat CFG.CFGNode) (fuel _entry _exit : nat)
    (_emptyBody : bool) (_contractName : option string)
    (a : ControlFlowAnalyzer.t) :
  let warnedFor := ControlFlowAnalyzer.m_unassignedReturnVarsAlreadyWarnedFor in
  (traverseFuel cfg _entry <= fuel)%nat ->
  exists a' added,
    checkUninitializedAccess occurrenceBefore cfg fuel _entry _exit
      _emptyBody _contractName a
    = Some a'
    /\ ControlFlowAnalyzer.m_errorReporter a'
       = ControlFlowAnalyzer.m_errorReporter a ++ added
    /\ (forall v,
          v ∈ warnedFor a'
          <-> v ∈ warnedFor a
              \/ (_emptyBody = false
                  /\ exists p o,
                       readsUnassignedOnPath cfg _entry _exit p
                       /\ occurrenceAt cfg p = Some o
                       /\ pointerTyped o = false
                       /\ CFG.name (CFG.declaration o) = EmptyString
                       /\ CFG.id (CFG.declaration o) = v))
    /\ length (filter (fun d => errorId d = 6321) added)
       = size (warnedFor a' ∖ warnedFor a).
Proof.
  cbv zeta. intros Hfuel.
  destruct (traverse_paths cfg fuel _entry _exit Hfuel)
    as (nodeInfos & Htraverse & Hflagged).
  unfold checkUninitializedAccess. rewrite Htraverse.
  unfold reportUninitializedAccesses.
  set (ordered := uninitializedAccessesOrdered _ _ _).
  destruct (reportUninitializedAccess_fold_warnings _emptyBody _contractName
              ordered a) as (added & Hadded & Hwarned & Hcount).
  eexists. exists added. split; [reflexivity|]. split; [exact Hadded|].
  split; [|exact Hcount].
  assert (Hordered : forall o,
             o ∈ ordered
             <-> exists p, readsUnassignedOnPath cfg _entry _exit p
                           /\ occurrenceAt cfg p = Some o).
  { intros o. unfold ordered, uninitializedAccessesOrdered.
    rewrite merge_sort_Permutation, list_elem_of_omap.
    split; intros (p & Hp & Ho); exists p; (split; [|exact Ho]).
    - now apply Hflagged, elem_of_elements.
    - now apply elem_of_elements, Hflagged. }
  intros v. rewrite Hwarned. split.
  - intros [H|(Hb & o & Ho & H)]; [now left|right]. split; [exact Hb|].
    apply Hordered in Ho as (p & Hpath & Hat). now exists p, o.
  - intros [H|(Hb & p & o & Hpath & Hat & H)]; [now left|right].
    split; [exact Hb|]. exists o. split; [|exact H].
    apply Hordered. now exists p.
Qed.

Lemma checkUninitializedAccess_warnings_witness :
  exists a' added,
    checkUninitializedAccess byOccurrenceStart storagePointerExample 100 0 3
      false None freshAnalyzer
    = Some a'
    /\ ControlFlowAnalyzer.m_errorReporter a'
       = ControlFlowAnalyzer.m_errorReporter freshAnalyzer ++ added
    /\ (forall v,
          v ∈ ControlFlowAnalyzer.m_unassignedReturnVarsAlreadyWarnedFor a'
          <-> v ∈ ControlFlowAnalyzer.m_unassignedReturnVarsAlreadyWarnedFor
                    freshAnalyzer
              \/ (false = false
                  /\ exists p o,
                       readsUnassignedOnPath storagePointerExample 0 3 p
                       /\ occurrenceAt storagePointerExample p = Some o
                       /\ pointerTyped o = false
                       /\ CFG.name (CFG.declaration o) = EmptyString
                       /\ CFG.id (CFG.declaration o) = v))
    /\ length (filter (fun d => errorId d = 6321) added)
       = size (ControlFlowAnalyzer.m_unassignedReturnVarsAlreadyWarnedFor a'
               ∖ ControlFlowAnalyzer.m_unassignedReturnVarsAlreadyWarnedFor
                   freshAnalyzer).
Proof.
  apply (checkUninitializedAccess_warnings byOccurrenceStart
           storagePointerExample 100 0 3 false None freshAnalyzer).
  vm_compute. lia.
Defined.
